(** * Remirror: manager lifecycle and document-creation utilities

    A shallow embedding of

    - [packages/@remirror/core/src/manager/remirror-manager.ts]
      (the [RemirrorManager] class: constructor, [setExtensionStore],
      [getState], [addView], [createState], [updateState],
      [onStateUpdate], [destroy]), and
    - the core-utils module ([getTextSelection], [createDocumentNode],
      [createDocumentErrorHandler], [createFallback], [isRemirrorJSON]).

    JavaScript numbers that denote document positions are integers ([Z]);
    objects used as dictionaries are finite maps; a method that may throw
    returns an [Outcome]; the methods of the manager, which mutate the
    private fields of [this] and may throw half way, live in a state
    monad that keeps the mutated state when an exception escapes. *)

From Stdlib Require Import ZArith List String Bool Lia.
From Stdlib Require Import Sorted.
From stdpp Require Import base option list strings gmap.
From stdpp Require Import pretty.

Set Warnings "-register-all".
Local Open Scope string_scope.
Local Open Scope Z_scope.

(** ** Constants of [@remirror/core-constants] *)

Module ManagerPhase.

(** Modelled from the spec: the [ManagerPhase] enum of
    [@remirror/core-constants] is imported by the manager but is not part
    of the sources at hand.  The spec gives it as the strictly increasing
    enum [None -> Create -> EditorView -> Runtime -> Destroy]; a
    TypeScript numeric enum numbers its members from 0 and the manager
    compares them with [<=] and [>=] on those numbers. *)
Variant t : Set := None | Create | EditorView | Runtime | Destroy.

Definition value (p : t) : Z :=
  match p with
  | None => 0
  | Create => 1
  | EditorView => 2
  | Runtime => 3
  | Destroy => 4
  end.

(** [a <= b], [a >= b], [a < b] and [a === b] on enum members, as
    JavaScript evaluates them. *)
Definition le (a b : t) : bool := value a <=? value b.
Definition ge (a b : t) : bool := value b <=? value a.
Definition lt (a b : t) : bool := value a <? value b.
Definition eqb (a b : t) : bool := value a =? value b.

End ManagerPhase.

(** The error codes the manager passes to [invariant]
    (documented in [docs/errors.mdx] as RMR0008, RMR0009, RMR0014 and
    RMR0015). *)
Variant ErrorConstant : Set :=
| MANAGER_PHASE_ERROR
| NEW_EDITOR_MANAGER
| INVALID_MANAGER_EXTENSION
| INVALID_MANAGER_PRESET.

(** What a [throw] carries: a [RemirrorError] (with its code, when one
    was given), or one of the two built-in errors that the modelled code
    can raise: [TypeError] (reading a property of [undefined], assigning
    to a read-only property in strict mode) and [RangeError]
    (the document engine rejecting a position). *)
Variant Exception : Set :=
| RemirrorError (code : option ErrorConstant)
| TypeError
| RangeError.

(** The result of a call that may throw. *)
Variant Outcome (A : Type) : Type :=
| Return (a : A)
| Throw (e : Exception).
Arguments Return {A} a.
Arguments Throw {A} e.

Definition outcome_bind {A B} (o : Outcome A) (k : A -> Outcome B) : Outcome B :=
  match o with
  | Return a => k a
  | Throw e => Throw e
  end.

(** ** The document engine (ProseMirror), as far as the code looks into it *)

(** A document node: a text node, a leaf node, or a node with content. *)
Inductive ProsemirrorNode : Set :=
| PMText (text : string)
| PMLeaf (type : string)
| PMBranch (type : string) (content : list ProsemirrorNode).

(** [node.nodeSize]: the length of a text node, 1 for a leaf, and the
    size of the content plus two otherwise. *)
Fixpoint nodeSize (node : ProsemirrorNode) : Z :=
  match node with
  | PMText text => Z.of_nat (String.length text)
  | PMLeaf _ => 1
  | PMBranch _ content =>
      2 + (fix fragmentSize (l : list ProsemirrorNode) : Z :=
             match l with
             | [] => 0
             | child :: rest => nodeSize child + fragmentSize rest
             end) content
  end.

(** [fragment.size]: the sum of the sizes of the nodes of a fragment. *)
Definition fragmentSize (fragment : list ProsemirrorNode) : Z :=
  foldr (fun child acc => nodeSize child + acc) 0 fragment.

(** [node.content.size]; the content of a text or leaf node is empty. *)
Definition contentSize (node : ProsemirrorNode) : Z :=
  match node with
  | PMBranch _ content => fragmentSize content
  | _ => 0
  end.

(** A node that has content (a document is such a node). *)
Definition hasContent (node : ProsemirrorNode) : bool :=
  match node with
  | PMBranch _ _ => true
  | _ => false
  end.

(** The JSON form of a node ([RemirrorJSON] / [ObjectNode]); [content]
    is absent or an array. *)
Inductive RemirrorJSON : Set :=
| ObjectNode (type : string) (content : option (list RemirrorJSON)) (text : option string).

(** [doc.resolve(pos)]: the position together with the document it
    points into. *)
Record ResolvedPos : Set := mkResolvedPos {
  rp_doc : ProsemirrorNode;
  rp_pos : Z;
}.

(** [doc.resolve(pos)] throws a [RangeError] unless
    [0 <= pos <= doc.content.size]. *)
Definition resolve (doc : ProsemirrorNode) (pos : Z) : Outcome ResolvedPos :=
  if (0 <=? pos) && (pos <=? contentSize doc)
  then Return (mkResolvedPos doc pos)
  else Throw RangeError.

(** A JavaScript number given as a position: an integer, or [NaN], of
    which every comparison is false.  (The positions of a document are
    integers; a number beyond every bound is clamped like an integer
    beyond the bound.) *)
Variant JSNumber : Set :=
| Integer (value : Z)
| NaN.

Coercion Integer : Z >-> JSNumber.

(** [doc.resolve(pos)] for a number: [NaN] fails the test
    [pos >= 0 && pos <= doc.content.size] as well, and the call throws. *)
Definition resolveNumber (doc : ProsemirrorNode) (pos : JSNumber)
  : Outcome ResolvedPos :=
  match pos with
  | Integer pos => resolve doc pos
  | NaN => Throw RangeError
  end.

(** A selection: the document it points into, its anchor and its head. *)
Record Selection : Set := mkSelection {
  sel_doc : ProsemirrorNode;
  sel_anchor : Z;
  sel_head : Z;
}.

(** [plugin.getState(state)]: absent, or a value that may have a
    [destroy] method. *)
Record Plugin : Set := mkPlugin {
  plugin_key : string;
  plugin_state : option bool;
}.

Record EditorState : Set := mkEditorState {
  st_doc : ProsemirrorNode;
  st_selection : Selection;
  st_plugins : list Plugin;
}.

(** The editor view: an object with an identity and a current state. *)
Record EditorView : Set := mkEditorView {
  view_id : nat;
  view_state : EditorState;
}.

(** The operations of the engine that the code calls and does not
    define: [Selection.atStart(doc)] (the selection of a state created
    without one), [TextSelection.near($pos)], and
    [state.applyTransaction(state.tr.setSelection(selection)).state],
    which throws when the engine rejects the selection. *)
Class DocumentEngine := {
  Selection_atStart : ProsemirrorNode -> Selection;
  Selection_near : ResolvedPos -> Selection;
  applySelection : EditorState -> Selection -> Outcome EditorState;
}.

(** [TextSelection.create(doc, anchor, head)] resolves both positions. *)
Definition TextSelection_create (doc : ProsemirrorNode) (anchor head : JSNumber)
  : Outcome Selection :=
  outcome_bind (resolveNumber doc anchor) (fun ra =>
  outcome_bind (resolveNumber doc head) (fun rh =>
  Return (mkSelection doc (rp_pos ra) (rp_pos rh)))).

(** [EditorState.create({ schema, doc, plugins })] *)
Definition EditorState_create `{DocumentEngine}
  (doc : ProsemirrorNode) (plugins : list Plugin) : EditorState :=
  mkEditorState doc (Selection_atStart doc) plugins.


(** ** core-utils *)

(** What core-utils imports from packages that are not part of the
    sources at hand: [clamp({ min, max, value })] of
    [@remirror/core-helpers], on the integers and at [NaN], and the two
    JSON documents [EMPTY_NODE] and [EMPTY_PARAGRAPH_NODE] of
    [@remirror/core-constants]. *)
Class CoreHelpers := {
  clamp : Z -> Z -> Z -> Z;
  clamp_NaN : Z -> Z -> JSNumber;
}.

(** [clamp({ min, max, value })] for a number. *)
Definition clampNumber `{CoreHelpers} (min max : Z) (value : JSNumber) : JSNumber :=
  match value with
  | Integer value => Integer (clamp min max value)
  | NaN => clamp_NaN min max
  end.

Class CoreConstants := {
  EMPTY_NODE : RemirrorJSON;
  EMPTY_PARAGRAPH_NODE : RemirrorJSON;
}.

(** The part of the schema that [createDocumentNode] uses:
    [schema.nodeFromJSON], which throws on JSON that does not fit the
    schema, and [schema.nodes.doc.spec.content], which may be absent. *)
Record EditorSchema : Type := mkEditorSchema {
  nodeFromJSON : RemirrorJSON -> Outcome ProsemirrorNode;
  doc_spec_content : option string;
}.

(** [PrimitiveSelection = Selection | FromToParameter | number | 'start' | 'end'] *)
Variant PrimitiveSelection : Set :=
| SelectionInstance (s : Selection)
| SelectionFromTo (from to : JSNumber)
| SelectionNumber (n : JSNumber)
| SelectionStart
| SelectionEnd.


(** [getTextSelection(selection, doc)].  The source first turns
    ['start'] and ['end'] into the numbers [min] and [max]; a number
    ([NaN] is one: [isNumber] is [typeof value === 'number']) is
    clamped, resolved and handed to [TextSelection.near]; a
    [{ from, to }] pair is clamped end by end and handed to
    [TextSelection.create]. *)
Definition getTextSelection `{DocumentEngine} `{CoreHelpers}
  (selection : PrimitiveSelection) (doc : ProsemirrorNode) : Outcome Selection :=
  let max := nodeSize doc - 2 in
  let min := 0 in
  let clampToDocument := fun value : JSNumber => clampNumber min max value in
  let nearPosition := fun pos : JSNumber =>
    let pos := clampToDocument pos in
    outcome_bind (resolveNumber doc pos)
      (fun resolved => Return (Selection_near resolved)) in
  match selection with
  | SelectionInstance s => Return s
  | SelectionStart => nearPosition min
  | SelectionEnd => nearPosition max
  | SelectionNumber pos => nearPosition pos
  | SelectionFromTo from to =>
      let start := clampToDocument from in
      let end_ := clampToDocument to in
      TextSelection_create doc start end_
  end.

(** [RemirrorContentType]: a node, a plain object, a string, or an
    editor state. *)
Variant RemirrorContentType : Set :=
| ContentNode (node : ProsemirrorNode)
| ContentObject (json : RemirrorJSON)
| ContentString (text : string)
| ContentState (state : EditorState).

(** [Fallback = RemirrorJSON | ProsemirrorNode] *)
Variant Fallback : Set :=
| FallbackJSON (json : RemirrorJSON)
| FallbackNode (node : ProsemirrorNode).

(** [onError?: Fallback | CreateDocumentErrorHandler] *)
Variant OnError : Set :=
| OnErrorFallback (fallback : Fallback)
| OnErrorHandler (handler : option Exception -> Fallback).

(** The custom DOM document handed on to the string handler. *)
Variant Document : Set := DomDocument | MinDocument.

Record FromStringParameter : Type := mkFromStringParameter {
  fs_doc : option Document;
  fs_content : string;
  fs_schema : EditorSchema;
}.

Record CreateDocumentNodeParameter : Type := mkCreateDocumentNodeParameter {
  content : RemirrorContentType;
  schema : EditorSchema;
  doc : option Document;
  stringHandler : option (FromStringParameter -> Outcome ProsemirrorNode);
  onError : option OnError;
  selection : option PrimitiveSelection;
}.

(** [isRemirrorJSON(value)]:
    [isObject(value) && value.type === 'doc' && Array.isArray(value.content)] *)
Definition isRemirrorJSON (value : RemirrorContentType) : option RemirrorJSON :=
  match value with
  | ContentObject (ObjectNode type (Some items) text) =>
      if String.eqb type "doc" then Some (ObjectNode type (Some items) text) else None
  | _ => None
  end.

(** [createFallback(fallback, schema)] *)
Definition createFallback (fallback : Fallback) (schema : EditorSchema)
  : Outcome ProsemirrorNode :=
  match fallback with
  | FallbackNode node => Return node
  | FallbackJSON json => nodeFromJSON schema json
  end.

(** [createDocumentErrorHandler({ onError, schema, error })] *)
Definition createDocumentErrorHandler
  (onError : OnError) (schema : EditorSchema) (error : option Exception)
  : Outcome ProsemirrorNode :=
  match onError with
  | OnErrorHandler handler => createFallback (handler error) schema
  | OnErrorFallback fallback => createFallback fallback schema
  end.

(** The local [onError] of [createDocumentNode]:
[[
  const onError =
    parameter.onError ?? schema.nodes.doc.spec.content?.startsWith('block')
      ? () => EMPTY_PARAGRAPH_NODE
      : () => EMPTY_NODE;
]]
    In JavaScript [??] binds tighter than [? :], so the condition of the
    conditional is [parameter.onError ?? ...startsWith('block')]: a
    supplied [onError] (an object or a function, hence truthy) selects
    the first branch; without one the test is whether the content
    expression of the document node starts with ["block"]. *)
Definition defaultOnError `{CoreConstants}
  (parameter_onError : option OnError) (schema : EditorSchema) : OnError :=
  let condition :=
    match parameter_onError with
    | Some _ => true
    | None =>
        match doc_spec_content schema with
        | Some expression => String.prefix "block" expression
        | None => false
        end
    end in
  if condition
  then OnErrorHandler (fun _ => FallbackJSON EMPTY_PARAGRAPH_NODE)
  else OnErrorHandler (fun _ => FallbackJSON EMPTY_NODE).

(** [createDocumentNode(parameter)] *)
Definition createDocumentNode `{CoreConstants}
  (parameter : CreateDocumentNodeParameter) : Outcome ProsemirrorNode :=
  let onError := defaultOnError (onError parameter) (schema parameter) in
  match content parameter with
  | ContentNode node => Return node
  | value =>
      match isRemirrorJSON value with
      | Some json =>
          match nodeFromJSON (schema parameter) json with
          | Return node => Return node
          | Throw error =>
              createDocumentErrorHandler onError (schema parameter) (Some error)
          end
      | None =>
          match value, stringHandler parameter with
          | ContentString text, Some handler =>
              handler (mkFromStringParameter (doc parameter) text (schema parameter))
          | _, _ =>
              createDocumentErrorHandler onError (schema parameter)
                (Some (RemirrorError None))
          end
      end
  end.

(** ** The manager: data *)

(** A value kept in the extension store: an editor state
    ([currentState], [previousState]), a list of names ([nodeNames],
    ...), one of the manager's bound methods ([getStoreKey], ...), or a
    value that an extension puts there (its [tags], say). *)
Variant StoreValue : Set :=
| StateValue (state : EditorState)
| NamesValue (names : list string)
| MethodValue (method : string)
| CustomValue (payload : string).

(** What a lifecycle method of an extension does with the extension
    store it was given: it calls [this.store.setExtensionStore(key,
    value)] or [this.store.getState()].  (The tags extension, for one,
    calls [setExtensionStore('tags', ...)] in its [onCreate].) *)
Variant StoreCall : Set :=
| CallSetExtensionStore (key : string) (value : StoreValue)
| CallGetState.

Variant ExtensionKind : Set := NodeExtension | MarkExtension | PlainExtension.

#[global] Instance ExtensionKind_eq_dec : EqDecision ExtensionKind.
Proof. solve_decision. Defined.

(** An extension: its name, its kind, and the lifecycle methods it
    defines. *)
Record AnyExtension : Set := mkExtension {
  extension_name : string;
  extension_kind : ExtensionKind;
  extension_onCreate : option (list StoreCall);
  extension_onView : option (list StoreCall);
  extension_onStateUpdate : option (list StoreCall);
  extension_onDestroy : option (list StoreCall);
}.

Definition isNodeExtension (extension : AnyExtension) : bool :=
  bool_decide (extension_kind extension = NodeExtension).
Definition isMarkExtension (extension : AnyExtension) : bool :=
  bool_decide (extension_kind extension = MarkExtension).
Definition isPlainExtension (extension : AnyExtension) : bool :=
  bool_decide (extension_kind extension = PlainExtension).

Record AnyPreset : Set := mkPreset {
  preset_name : string;
  preset_extensions : list AnyExtension;
}.

Variant AnyCombinedUnion : Set :=
| CombinedExtension (extension : AnyExtension)
| CombinedPreset (preset : AnyPreset).

(** [Remirror.ManagerSettings] *)
Record ManagerSettings : Type := mkManagerSettings {
  priority : gmap string Z;
  exclude : gmap string bool;
}.

(** A JavaScript symbol: equal to itself only. *)
Variant symbol : Set := Symbol (identity : positive).

#[global] Instance symbol_eq_dec : EqDecision symbol.
Proof. solve_decision. Defined.

(** What the manager imports from sibling modules of the core package
    that are not part of the sources at hand: the [privacySymbol] of
    [../privacy], [transformCombinedUnion] of
    [./remirror-manager-helpers], which resolves the combined list into
    extensions and presets or throws, and the constructor of the
    [BuiltinPreset]. *)
Class CoreInternals := {
  privacySymbol : symbol;
  transformCombinedUnion :
    list AnyCombinedUnion -> ManagerSettings ->
    Outcome (list AnyExtension * list AnyPreset);
  BuiltinPreset : ManagerSettings -> AnyPreset;
}.

(** A lifecycle method bound to its extension ([handler.bind(extension)]). *)
Record Handler : Set := mkHandler {
  handler_this : string;
  handler_body : list StoreCall;
}.

(** The private [#handlers] field. *)
Record Handlers : Set := mkHandlers {
  create_handlers : list Handler;
  view_handlers : list Handler;
  update_handlers : list Handler;
  destroy_handlers : list Handler;
}.

(** The parameter of [onStateUpdate], without and with [firstUpdate]. *)
Record StateUpdateParameter : Set := mkStateUpdateParameter {
  previousState : EditorState;
  state : EditorState;
}.

Record StateUpdateLifecycleParameter : Set := mkStateUpdateLifecycleParameter {
  lifecycle_previousState : EditorState;
  lifecycle_state : EditorState;
  firstUpdate : bool;
}.

(** What the manager does to the outside, in the order it does it: it
    calls a lifecycle method of an extension, the [destroy] method of a
    plugin state, [view.updateState], [view.destroy], and it emits the
    [stateUpdate] and [destroy] events. *)
Variant Event : Set :=
| CreateHandlerCalled (extension : string)
| ViewHandlerCalled (extension : string) (view : EditorView)
| UpdateHandlerCalled (extension : string) (parameter : StateUpdateLifecycleParameter)
| DestroyHandlerCalled (extension : string)
| PluginStateDestroyed (key : string)
| ViewStateUpdated (view : nat) (state : EditorState)
| ViewDestroyed (view : nat)
| StateUpdateEmitted (parameter : StateUpdateLifecycleParameter)
| DestroyEmitted.

(** The fields of a [RemirrorManager].  [store_view] is the [view] key
    of the private [#store] (absent until a view is added); [trace]
    records the calls the manager has made so far. *)
Record RemirrorManager : Type := mkRemirrorManager {
  extensionStore : gmap string StoreValue;
  extensions : list AnyExtension;
  presets : list AnyPreset;
  store_view : option EditorView;
  phase : ManagerPhase.t;
  settings : ManagerSettings;
  combined : list AnyCombinedUnion;
  firstStateUpdate : bool;
  handlers : Handlers;
  trace : list Event;
}.

Definition set_extensionStore (f : gmap string StoreValue -> gmap string StoreValue)
  (this : RemirrorManager) : RemirrorManager :=
  mkRemirrorManager (f (extensionStore this)) (extensions this) (presets this)
    (store_view this) (phase this) (settings this) (combined this)
    (firstStateUpdate this) (handlers this) (trace this).

Definition set_store_view (view : option EditorView)
  (this : RemirrorManager) : RemirrorManager :=
  mkRemirrorManager (extensionStore this) (extensions this) (presets this)
    view (phase this) (settings this) (combined this)
    (firstStateUpdate this) (handlers this) (trace this).

Definition set_phase (p : ManagerPhase.t)
  (this : RemirrorManager) : RemirrorManager :=
  mkRemirrorManager (extensionStore this) (extensions this) (presets this)
    (store_view this) p (settings this) (combined this)
    (firstStateUpdate this) (handlers this) (trace this).

Definition set_firstStateUpdate (b : bool)
  (this : RemirrorManager) : RemirrorManager :=
  mkRemirrorManager (extensionStore this) (extensions this) (presets this)
    (store_view this) (phase this) (settings this) (combined this)
    b (handlers this) (trace this).

Definition set_handlers (h : Handlers)
  (this : RemirrorManager) : RemirrorManager :=
  mkRemirrorManager (extensionStore this) (extensions this) (presets this)
    (store_view this) (phase this) (settings this) (combined this)
    (firstStateUpdate this) h (trace this).

Definition record_events (events : list Event)
  (this : RemirrorManager) : RemirrorManager :=
  mkRemirrorManager (extensionStore this) (extensions this) (presets this)
    (store_view this) (phase this) (settings this) (combined this)
    (firstStateUpdate this) (handlers this) (trace this ++ events).

(** ** The manager: methods *)

(** A method runs on the fields of [this], returns or throws, and leaves
    the fields as they are at that point. *)
Definition Method (A : Type) : Type :=
  RemirrorManager -> Outcome A * RemirrorManager.

Definition ret {A} (a : A) : Method A := fun this => (Return a, this).

Definition throw {A} (e : Exception) : Method A := fun this => (Throw e, this).

Definition bind {A B} (c : Method A) (k : A -> Method B) : Method B :=
  fun this =>
    match c this with
    | (Return a, this') => k a this'
    | (Throw e, this') => (Throw e, this')
    end.

Definition gets {A} (field : RemirrorManager -> A) : Method A :=
  fun this => (Return (field this), this).

Definition modify (f : RemirrorManager -> RemirrorManager) : Method unit :=
  fun this => (Return tt, f this).

Declare Scope method_scope.
Delimit Scope method_scope with method.
Notation "x <- c ;; k" := (bind c (fun x => k))
  (at level 100, c at next level, right associativity) : method_scope.
Notation "c ;; k" := (bind c (fun _ => k))
  (at level 100, right associativity) : method_scope.
Local Open Scope method_scope.

(** [for (const x of items) { body(x) }] *)
Fixpoint for_each {A} (items : list A) (body : A -> Method unit) : Method unit :=
  match items with
  | [] => ret tt
  | x :: rest => body x ;; for_each rest body
  end.

(** [invariant(condition, { code })] of [@remirror/core-helpers]: throws
    a [RemirrorError] with the code unless the condition holds. *)
Definition invariant (condition : bool) (code : ErrorConstant) : Method unit :=
  if condition then ret tt else throw (RemirrorError (Some code)).

(** [createExtensionStore] defines seven properties of the store with
    [Object.defineProperties], four with a getter only and three with a
    value and no [writable] flag; in strict mode an assignment to any of
    them throws a [TypeError]. *)
Definition readonlyStoreKeys : list string :=
  ["extensions"; "phase"; "view"; "managerSettings";
   "getState"; "updateState"; "isMounted"].

Definition isReadonlyStoreKey (key : string) : bool :=
  bool_decide (key ∈ readonlyStoreKeys).

(** [this.#extensionStore[key] = value] *)
Definition assignExtensionStore (key : string) (value : StoreValue) : Method unit :=
  if isReadonlyStoreKey key
  then throw TypeError
  else modify (set_extensionStore (insert key value)).

(** [setExtensionStore(key, value)] *)
Definition setExtensionStore (key : string) (value : StoreValue) : Method unit :=
  p <- gets phase ;;
  invariant (ManagerPhase.le p ManagerPhase.Create) MANAGER_PHASE_ERROR ;;
  assignExtensionStore key value.

(** [getState()]: [this.view.state], a [TypeError] when there is no view. *)
Definition getState : Method EditorState :=
  p <- gets phase ;;
  invariant (ManagerPhase.ge p ManagerPhase.EditorView) MANAGER_PHASE_ERROR ;;
  view <- gets store_view ;;
  match view with
  | Some view => ret (view_state view)
  | None => throw TypeError
  end.

(** Running the body of a lifecycle method. *)
Definition runStoreCall (call : StoreCall) : Method unit :=
  match call with
  | CallSetExtensionStore key value => setExtensionStore key value
  | CallGetState => _ <- getState ;; ret tt
  end.

(** Calling a bound lifecycle method: the call is recorded, then the
    body runs. *)
Definition callHandler (called : string -> Event) (handler : Handler) : Method unit :=
  modify (record_events [called (handler_this handler)]) ;;
  for_each (handler_body handler) runStoreCall.

(** [get destroyed()] and [get mounted()] *)
Definition destroyed (this : RemirrorManager) : bool :=
  ManagerPhase.eqb (phase this) ManagerPhase.Destroy.

Definition mounted (this : RemirrorManager) : bool :=
  ManagerPhase.ge (phase this) ManagerPhase.EditorView
  && ManagerPhase.lt (phase this) ManagerPhase.Destroy.

(** [createExtensionStore()]: besides the seven read-only properties,
    which are read through the manager, the store starts with the three
    methods assigned to it. *)
Definition createExtensionStore : gmap string StoreValue :=
  <["setExtensionStore" := MethodValue "setExtensionStore"]>
    (<["setStoreKey" := MethodValue "setStoreKey"]>
       (<["getStoreKey" := MethodValue "getStoreKey"]> ∅)).

(** [if (handler) { list.push(handler.bind(extension)) }] *)
Definition pushHandler (extension : AnyExtension)
  (method : option (list StoreCall)) (registered : list Handler) : list Handler :=
  match method with
  | Some body => registered ++ [mkHandler (extension_name extension) body]
  | None => registered
  end.

(** [if (test(extension)) { names.push(extension.name) }] *)
Definition pushName (test : bool) (extension : AnyExtension)
  (names : list string) : list string :=
  if test then names ++ [extension_name extension] else names.

(** One round of the loop of [setupLifecycleHandlers]. *)
Definition setupExtension
  (acc : Handlers * (list string * list string * list string))
  (extension : AnyExtension)
  : Handlers * (list string * list string * list string) :=
  let '(h, (nodeNames, markNames, plainNames)) := acc in
  (mkHandlers
     (pushHandler extension (extension_onCreate extension) (create_handlers h))
     (pushHandler extension (extension_onView extension) (view_handlers h))
     (pushHandler extension (extension_onStateUpdate extension) (update_handlers h))
     (pushHandler extension (extension_onDestroy extension) (destroy_handlers h)),
   (pushName (isNodeExtension extension) extension nodeNames,
    pushName (isMarkExtension extension) extension markNames,
    pushName (isPlainExtension extension) extension plainNames)).

(** [setupLifecycleHandlers()].  Handing the extension store to every
    preset and extension has no counterpart here: the bodies of the
    lifecycle methods run on the store of the manager.  The three name
    arrays are stored in the extension store before the loop fills them;
    the store holds the same arrays, so it ends with the filled ones. *)
Definition setupLifecycleHandlers (this : RemirrorManager) : RemirrorManager :=
  let '(h, (nodeNames, markNames, plainNames)) :=
    foldl setupExtension (handlers this, ([], [], [])) (extensions this) in
  set_handlers h
    (set_extensionStore
       (fun store =>
          <["plainNames" := NamesValue plainNames]>
            (<["markNames" := NamesValue markNames]>
               (<["nodeNames" := NamesValue nodeNames]> store)))
       this).

(** The private constructor,
    [new RemirrorManager(combined, { privacy, ...settings })].  When it
    throws, no manager comes into being. *)
Definition constructor `{CoreInternals}
  (combined : list AnyCombinedUnion) (privacy : option symbol)
  (settings : ManagerSettings) : Outcome RemirrorManager :=
  if negb (bool_decide (privacy = Some privacySymbol))
  then Throw (RemirrorError (Some NEW_EDITOR_MANAGER))
  else
    match transformCombinedUnion combined settings with
    | Throw error => Throw error
    | Return (extensions, presets) =>
        let this :=
          mkRemirrorManager createExtensionStore extensions presets None
            ManagerPhase.None settings combined true
            (mkHandlers [] [] [] []) [] in
        let this := setupLifecycleHandlers this in
        let this := set_phase ManagerPhase.Create this in
        match for_each (create_handlers (handlers this))
                (callHandler CreateHandlerCalled) this with
        | (Return _, this) => Return this
        | (Throw error, _) => Throw error
        end
    end.

(** [RemirrorManager.create(combined, settings)] *)
Definition create `{CoreInternals}
  (combined : list AnyCombinedUnion) (settings : ManagerSettings)
  : Outcome RemirrorManager :=
  constructor (combined ++ [CombinedPreset (BuiltinPreset settings)])
    (Some privacySymbol) settings.

(** [addView(view)] *)
Definition addView (view : EditorView) : Method unit :=
  p <- gets phase ;;
  if ManagerPhase.ge p ManagerPhase.EditorView
  then ret tt
  else
    modify (set_firstStateUpdate true) ;;
    modify (set_phase ManagerPhase.EditorView) ;;
    modify (set_store_view (Some view)) ;;
    view_handlers <- gets (fun this => view_handlers (handlers this)) ;;
    for_each view_handlers
      (callHandler (fun extension => ViewHandlerCalled extension view)).

(** [!selection]: no selection is given, or the selection is the
    number 0 or [NaN], which JavaScript takes for false as well. *)
Definition noSelection (selection : option PrimitiveSelection) : bool :=
  match selection with
  | None => true
  | Some (SelectionNumber (Integer 0)) => true
  | Some (SelectionNumber NaN) => true
  | Some _ => false
  end.

(** [createState(parameter)].  The parameter has no [schema]: the schema
    and the plugins are read from the manager store, where the built-in
    extensions (not part of the sources at hand) have put them; they are
    the first two arguments here. *)
Definition createState `{DocumentEngine} `{CoreHelpers} `{CoreConstants}
  (store_schema : EditorSchema) (store_plugins : list Plugin)
  (parameter : CreateDocumentNodeParameter) : Outcome EditorState :=
  outcome_bind
    (createDocumentNode
       (mkCreateDocumentNodeParameter (content parameter) store_schema
          (doc parameter) (stringHandler parameter) (onError parameter)
          (selection parameter)))
    (fun doc =>
       let state := EditorState_create doc store_plugins in
       match selection parameter with
       | Some selection =>
           if noSelection (Some selection)
           then Return state
           else
             outcome_bind (getTextSelection selection (st_doc state))
               (fun textSelection => applySelection state textSelection)
       | None => Return state
       end).

(** [onStateUpdate(parameter)] *)
Definition onStateUpdate (parameter : StateUpdateParameter) : Method unit :=
  firstUpdate <- gets firstStateUpdate ;;
  modify (set_extensionStore (insert "currentState" (StateValue (state parameter)))) ;;
  modify (set_extensionStore
            (insert "previousState" (StateValue (previousState parameter)))) ;;
  first <- gets firstStateUpdate ;;
  (if first
   then modify (set_phase ManagerPhase.Runtime) ;;
        modify (set_firstStateUpdate false)
   else ret tt) ;;
  let parameterWithUpdate :=
    mkStateUpdateLifecycleParameter
      (previousState parameter) (state parameter) firstUpdate in
  update_handlers <- gets (fun this => update_handlers (handlers this)) ;;
  for_each update_handlers
    (callHandler (fun extension => UpdateHandlerCalled extension parameterWithUpdate)) ;;
  modify (record_events [StateUpdateEmitted parameterWithUpdate]).

(** [updateState(state)] *)
Definition updateState (state : EditorState) : Method unit :=
  previousState <- getState ;;
  view <- gets store_view ;;
  match view with
  | Some view =>
      modify (set_store_view (Some (mkEditorView (view_id view) state))) ;;
      modify (record_events [ViewStateUpdated (view_id view) state])
  | None => throw TypeError
  end ;;
  onStateUpdate (mkStateUpdateParameter previousState state).

(** [plugin.getState(this.view.state)?.destroy?.()] *)
Definition destroyPluginState (plugin : Plugin) : Method unit :=
  match plugin_state plugin with
  | Some true => modify (record_events [PluginStateDestroyed (plugin_key plugin)])
  | _ => ret tt
  end.

(** [destroy()] *)
Definition destroy : Method unit :=
  modify (set_phase ManagerPhase.Destroy) ;;
  view <- gets store_view ;;
  for_each
    (match view with
     | Some view => st_plugins (view_state view)
     | None => []
     end)
    destroyPluginState ;;
  destroy_handlers <- gets (fun this => destroy_handlers (handlers this)) ;;
  for_each destroy_handlers (callHandler DestroyHandlerCalled) ;;
  view <- gets store_view ;;
  match view with
  | Some view => modify (record_events [ViewDestroyed (view_id view)])
  | None => ret tt
  end ;;
  modify (record_events [DestroyEmitted]).

(** ** Sequences of calls on one manager *)

(** The public operations that move a manager through its phases. *)
Variant Operation : Set :=
| AddView (view : EditorView)
| OnStateUpdate (parameter : StateUpdateParameter)
| UpdateState (state : EditorState)
| Destroy.

Definition perform (operation : Operation) : Method unit :=
  match operation with
  | AddView view => addView view
  | OnStateUpdate parameter => onStateUpdate parameter
  | UpdateState state => updateState state
  | Destroy => destroy
  end.

(** The manager after a sequence of operations; a caller that catches
    an exception goes on with the manager as the throwing call left it. *)
Fixpoint performAll (operations : list Operation) (this : RemirrorManager)
  : RemirrorManager :=
  match operations with
  | [] => this
  | operation :: rest => performAll rest (snd (perform operation this))
  end.

(** The phases a manager is in after each operation of a sequence. *)
Fixpoint phases (operations : list Operation) (this : RemirrorManager)
  : list ManagerPhase.t :=
  match operations with
  | [] => []
  | operation :: rest =>
      let this' := snd (perform operation this) in
      phase this' :: phases rest this'
  end.

(** Delivering state updates one after the other. *)
Fixpoint deliver (updates : list StateUpdateParameter) : Method unit :=
  match updates with
  | [] => ret tt
  | parameter :: rest => onStateUpdate parameter ;; deliver rest
  end.

(** ** What the lifecycle methods do once the manager is past [Create] *)

(** Past the [Create] phase [setExtensionStore] throws and [getState]
    returns when there is a view; the body of a lifecycle method then
    changes nothing and ends as follows. *)
Definition hasView (this : RemirrorManager) : bool :=
  match store_view this with
  | Some _ => true
  | None => false
  end.

Fixpoint lateBodyOutcome (view : bool) (body : list StoreCall) : Outcome unit :=
  match body with
  | [] => Return tt
  | CallSetExtensionStore _ _ :: _ => Throw (RemirrorError (Some MANAGER_PHASE_ERROR))
  | CallGetState :: rest =>
      if view then lateBodyOutcome view rest else Throw TypeError
  end.

(** The handlers that get called, up to the first one that throws. *)
Fixpoint lateHandlers (called : string -> Event) (view : bool)
  (registered : list Handler) : Outcome unit * list Event :=
  match registered with
  | [] => (Return tt, [])
  | handler :: rest =>
      match lateBodyOutcome view (handler_body handler) with
      | Return _ =>
          let '(outcome, events) := lateHandlers called view rest in
          (outcome, called (handler_this handler) :: events)
      | Throw error => (Throw error, [called (handler_this handler)])
      end
  end.

(** A body that calls [setExtensionStore]. *)
Definition callsSetExtensionStore (body : list StoreCall) : bool :=
  existsb
    (fun call =>
       match call with
       | CallSetExtensionStore _ _ => true
       | CallGetState => false
       end)
    body.

(** No handler of the list calls [setExtensionStore]. *)
Definition withoutSetExtensionStore (registered : list Handler) : bool :=
  forallb (fun handler => negb (callsSetExtensionStore (handler_body handler)))
    registered.

(** Some handler of the list calls [setExtensionStore]. *)
Definition someCallsSetExtensionStore (registered : list Handler) : bool :=
  existsb (fun handler => callsSetExtensionStore (handler_body handler))
    registered.

(** ** The calls a state update and a teardown are expected to make *)

(** One state update: every [onStateUpdate] handler, in the order of
    registration, with the same parameter, then the [stateUpdate]
    event. *)
Definition updateEvents (registered : list Handler) (first : bool)
  (parameter : StateUpdateParameter) : list Event :=
  let parameterWithUpdate :=
    mkStateUpdateLifecycleParameter
      (previousState parameter) (state parameter) first in
  map (fun handler => UpdateHandlerCalled (handler_this handler) parameterWithUpdate)
    registered
  ++ [StateUpdateEmitted parameterWithUpdate].

(** A sequence of state updates: only the first one is flagged
    [firstUpdate]. *)
Fixpoint deliveryEvents (registered : list Handler) (first : bool)
  (updates : list StateUpdateParameter) : list Event :=
  match updates with
  | [] => []
  | parameter :: rest =>
      updateEvents registered first parameter
      ++ deliveryEvents registered false rest
  end.

(** The extensions whose [onStateUpdate] was called, in order of call. *)
Definition updateHandlerCalls (events : list Event) : list string :=
  omap
    (fun event =>
       match event with
       | UpdateHandlerCalled extension _ => Some extension
       | _ => None
       end)
    events.

(** The [firstUpdate] flags the [onStateUpdate] handlers received. *)
Definition firstUpdateFlags (events : list Event) : list bool :=
  omap
    (fun event =>
       match event with
       | UpdateHandlerCalled _ parameter => Some (firstUpdate parameter)
       | _ => None
       end)
    events.

(** The manager as [onStateUpdate] has it when it starts calling the
    handlers. *)
Definition beforeUpdateHandlers (parameter : StateUpdateParameter)
  (this : RemirrorManager) : RemirrorManager :=
  let this :=
    set_extensionStore
      (insert "previousState" (StateValue (previousState parameter)))
      (set_extensionStore
         (insert "currentState" (StateValue (state parameter))) this) in
  if firstStateUpdate this
  then set_firstStateUpdate false (set_phase ManagerPhase.Runtime this)
  else this.

(** One teardown: the plugin states that can be destroyed, every
    [onDestroy] handler, the view when there is one, the [destroy]
    event. *)
Definition destroyEvents (this : RemirrorManager) : list Event :=
  match store_view this with
  | Some view =>
      omap
        (fun plugin =>
           match plugin_state plugin with
           | Some true => Some (PluginStateDestroyed (plugin_key plugin))
           | _ => None
           end)
        (st_plugins (view_state view))
  | None => []
  end
  ++ map (fun handler => DestroyHandlerCalled (handler_this handler))
       (destroy_handlers (handlers this))
  ++ match store_view this with
     | Some view => [ViewDestroyed (view_id view)]
     | None => []
     end
  ++ [DestroyEmitted].

(** The extensions whose [onDestroy] was called, in order of call, and
    the views that were destroyed. *)
Definition destroyHandlerCalls (events : list Event) : list string :=
  omap
    (fun event =>
       match event with
       | DestroyHandlerCalled extension => Some extension
       | _ => None
       end)
    events.

Definition viewsDestroyed (events : list Event) : list nat :=
  omap
    (fun event =>
       match event with
       | ViewDestroyed view => Some view
       | _ => None
       end)
    events.

(** ** A small editor for concrete runs *)

(** A document engine in which [near] is the collapsed selection at the
    position and a selection is accepted when it lies in the document. *)
#[local] Instance exampleEngine : DocumentEngine := {|
  Selection_atStart := fun doc => mkSelection doc 0 0;
  Selection_near := fun resolved =>
    mkSelection (rp_doc resolved) (rp_pos resolved) (rp_pos resolved);
  applySelection := fun state selection =>
    if (0 <=? sel_anchor selection)
       && (sel_anchor selection <=? contentSize (st_doc state))
       && (0 <=? sel_head selection)
       && (sel_head selection <=? contentSize (st_doc state))
    then Return (mkEditorState (st_doc state) selection (st_plugins state))
    else Throw RangeError;
|}.

#[local] Instance exampleHelpers : CoreHelpers := {|
  clamp := fun min max value =>
    if value <? min then min else if max <? value then max else value;
  clamp_NaN := fun _ _ => NaN;
|}.

#[local] Instance exampleConstants : CoreConstants := {|
  EMPTY_NODE := ObjectNode "doc" (Some []) None;
  EMPTY_PARAGRAPH_NODE :=
    ObjectNode "doc" (Some [ObjectNode "paragraph" None None]) None;
|}.

(** A schema with the nodes [doc], [paragraph] and [text]. *)
Fixpoint exampleNodeFromJSON (json : RemirrorJSON) : Outcome ProsemirrorNode :=
  match json with
  | ObjectNode type content text =>
      if String.eqb type "text" then
        match text with
        | Some text => Return (PMText text)
        | None => Throw RangeError
        end
      else if String.eqb type "doc" || String.eqb type "paragraph" then
        outcome_bind
          (match content with
           | Some items =>
               (fix children (items : list RemirrorJSON)
                  : Outcome (list ProsemirrorNode) :=
                  match items with
                  | [] => Return []
                  | item :: rest =>
                      outcome_bind (exampleNodeFromJSON item) (fun node =>
                      outcome_bind (children rest) (fun nodes =>
                      Return (node :: nodes)))
                  end) items
           | None => Return []
           end)
          (fun nodes => Return (PMBranch type nodes))
      else Throw RangeError
  end.

Definition exampleSchema : EditorSchema :=
  mkEditorSchema exampleNodeFromJSON (Some "block+").

Definition exampleDocument : ProsemirrorNode :=
  PMBranch "doc" [PMBranch "paragraph" [PMText "Hello"]].

Definition fallbackDocument : ProsemirrorNode :=
  PMBranch "doc" [PMBranch "paragraph" [PMText "Sorry"]].

Definition examplePlugins : list Plugin :=
  [mkPlugin "history$" (Some true); mkPlugin "keymap$" None].

Definition exampleState : EditorState :=
  mkEditorState exampleDocument (mkSelection exampleDocument 0 0) examplePlugins.

Definition nextState : EditorState :=
  mkEditorState fallbackDocument (mkSelection fallbackDocument 1 1) examplePlugins.

Definition exampleView : EditorView := mkEditorView 1 exampleState.
Definition otherView : EditorView := mkEditorView 2 nextState.

Definition tagsExtension : AnyExtension :=
  mkExtension "tags" PlainExtension
    (Some [CallSetExtensionStore "tags" (CustomValue "combinedTags")])
    None None None.

Definition paragraphExtension : AnyExtension :=
  mkExtension "paragraph" NodeExtension
    None (Some [CallGetState]) (Some [CallGetState]) (Some []).

Definition italicExtension : AnyExtension :=
  mkExtension "italic" MarkExtension
    None None (Some []) (Some [CallGetState]).

(** An extension that calls [setExtensionStore] in its [onView]. *)
Definition lateExtension : AnyExtension :=
  mkExtension "late" PlainExtension
    None (Some [CallSetExtensionStore "late" (CustomValue "value")]) None None.

Definition exampleSettings : ManagerSettings := mkManagerSettings ∅ ∅.

#[local] Instance exampleInternals : CoreInternals := {|
  privacySymbol := Symbol 1;
  transformCombinedUnion := fun combined _ =>
    Return
      (flat_map
         (fun unit =>
            match unit with
            | CombinedExtension extension => [extension]
            | CombinedPreset preset => preset_extensions preset
            end)
         combined,
       omap
         (fun unit =>
            match unit with
            | CombinedExtension _ => None
            | CombinedPreset preset => Some preset
            end)
         combined);
  BuiltinPreset := fun _ => mkPreset "builtin" [tagsExtension];
|}.

Definition exampleCombined : list AnyCombinedUnion :=
  [CombinedExtension paragraphExtension; CombinedExtension italicExtension].

(** The manager that [create] makes of them. *)
Definition exampleManager : RemirrorManager :=
  mkRemirrorManager
    (<["tags" := CustomValue "combinedTags"]>
       (<["plainNames" := NamesValue ["tags"]]>
          (<["markNames" := NamesValue ["italic"]]>
             (<["nodeNames" := NamesValue ["paragraph"]]> createExtensionStore))))
    [paragraphExtension; italicExtension; tagsExtension]
    [mkPreset "builtin" [tagsExtension]]
    None
    ManagerPhase.Create
    exampleSettings
    (exampleCombined ++ [CombinedPreset (mkPreset "builtin" [tagsExtension])])
    true
    (mkHandlers
       [mkHandler "tags" [CallSetExtensionStore "tags" (CustomValue "combinedTags")]]
       [mkHandler "paragraph" [CallGetState]]
       [mkHandler "paragraph" [CallGetState]; mkHandler "italic" []]
       [mkHandler "paragraph" []; mkHandler "italic" [CallGetState]])
    [CreateHandlerCalled "tags"].

(** The manager that [create] makes when the extension that calls
    [setExtensionStore] in its [onView] is among them. *)
Definition lateCombined : list AnyCombinedUnion :=
  [CombinedExtension paragraphExtension; CombinedExtension lateExtension;
   CombinedExtension italicExtension].

Definition lateManager : RemirrorManager :=
  mkRemirrorManager
    (<["tags" := CustomValue "combinedTags"]>
       (<["plainNames" := NamesValue ["late"; "tags"]]>
          (<["markNames" := NamesValue ["italic"]]>
             (<["nodeNames" := NamesValue ["paragraph"]]> createExtensionStore))))
    [paragraphExtension; lateExtension; italicExtension; tagsExtension]
    [mkPreset "builtin" [tagsExtension]]
    None
    ManagerPhase.Create
    exampleSettings
    (lateCombined ++ [CombinedPreset (mkPreset "builtin" [tagsExtension])])
    true
    (mkHandlers
       [mkHandler "tags" [CallSetExtensionStore "tags" (CustomValue "combinedTags")]]
       [mkHandler "paragraph" [CallGetState];
        mkHandler "late" [CallSetExtensionStore "late" (CustomValue "value")]]
       [mkHandler "paragraph" [CallGetState]; mkHandler "italic" []]
       [mkHandler "paragraph" []; mkHandler "italic" [CallGetState]])
    [CreateHandlerCalled "tags"].

(** ** Notions used in the statements *)

(** Two managers are at the same point of the lifecycle. *)
Definition sameLifecycle (this this' : RemirrorManager) : Prop :=
  phase this' = phase this /\
  store_view this' = store_view this /\
  firstStateUpdate this' = firstStateUpdate this /\
  handlers this' = handlers this.

(** A manager that has a view is at least in the [EditorView] phase. *)
Definition viewImpliesPhase (this : RemirrorManager) : Prop :=
  store_view this <> None ->
  ManagerPhase.value ManagerPhase.EditorView <= ManagerPhase.value (phase this).

(** The manager right after a first, successful [addView(view)]. *)
Definition withView (view : EditorView) (this : RemirrorManager) : RemirrorManager :=
  record_events
    (map (fun handler => ViewHandlerCalled (handler_this handler) view)
       (view_handlers (handlers this)))
    (set_store_view (Some view)
       (set_phase ManagerPhase.EditorView (set_firstStateUpdate true this))).

(** The example manager with the example view added. *)
Definition mountedManager : RemirrorManager := withView exampleView exampleManager.

(** Two state updates for the example manager. *)
Definition exampleUpdates : list StateUpdateParameter :=
  [mkStateUpdateParameter exampleState nextState;
   mkStateUpdateParameter nextState exampleState].

(** Internals whose [transformCombinedUnion] always throws. *)
Definition throwingInternals : CoreInternals := {|
  privacySymbol := Symbol 1;
  transformCombinedUnion := fun _ _ =>
    Throw (RemirrorError (Some INVALID_MANAGER_EXTENSION));
  BuiltinPreset := fun _ => mkPreset "builtin" [];
|}.

(** A string given as content without a string handler, with a node as
    the caller's fallback, and the same with a function that returns the
    node. *)
Definition unrecognizedWithFallback : CreateDocumentNodeParameter :=
  mkCreateDocumentNodeParameter (ContentString "Hello") exampleSchema None None
    (Some (OnErrorFallback (FallbackNode fallbackDocument))) None.

Definition unrecognizedWithHandler : CreateDocumentNodeParameter :=
  mkCreateDocumentNodeParameter (ContentString "Hello") exampleSchema None None
    (Some (OnErrorHandler (fun _ => FallbackNode fallbackDocument))) None.

(** A document given as content, with a selection far beyond its end. *)
Definition documentWithSelection : CreateDocumentNodeParameter :=
  mkCreateDocumentNodeParameter (ContentNode exampleDocument) exampleSchema
    None None None (Some (SelectionNumber 100)).

(** Content that [createDocumentNode] does not recognize: not a node,
    not document JSON, and not a string that comes with a string
    handler. *)
Definition unrecognized (parameter : CreateDocumentNodeParameter) : Prop :=
  isRemirrorJSON (content parameter) = None /\
  match content parameter with
  | ContentNode _ => False
  | ContentString _ => stringHandler parameter = None
  | _ => True
  end.

(** A view is added, the manager is destroyed, and only then a state
    update arrives. *)
Definition updateAfterDestroy : list Operation :=
  [AddView exampleView; Destroy;
   OnStateUpdate (mkStateUpdateParameter exampleState nextState)].

(** The operation is a state update. *)
Definition isStateUpdate (operation : Operation) : bool :=
  match operation with
  | OnStateUpdate _ | UpdateState _ => true
  | _ => false
  end.

(** ** More of the manager: [fromObject], [clone], [recreate] *)

(** What the manager calls on its units and is not part of the sources
    at hand: [unit.clone(unit.options)] and
    [unit.clone(unit.initialOptions)]. *)
Class UnitInternals := {
  cloneWithOptions : AnyCombinedUnion -> AnyCombinedUnion;
  cloneWithInitialOptions : AnyCombinedUnion -> AnyCombinedUnion;
}.

(** [RemirrorManager.fromObject({ extensions, presets, settings })] *)
Definition fromObject `{CoreInternals}
  (extensions : list AnyExtension) (presets : list AnyPreset)
  (settings : ManagerSettings) : Outcome RemirrorManager :=
  create (map CombinedExtension extensions ++ map CombinedPreset presets)%list
    settings.

(** [clone()] *)
Definition clone `{CoreInternals} `{UnitInternals}
  (this : RemirrorManager) : Outcome RemirrorManager :=
  let currentCombined := map cloneWithOptions (combined this) in
  create currentCombined (settings this).

(** [recreate(combined, settings)] *)
Definition recreate `{CoreInternals} `{UnitInternals}
  (this : RemirrorManager) (extraCombined : list AnyCombinedUnion)
  (newSettings : ManagerSettings) : Outcome RemirrorManager :=
  let currentCombined := map cloneWithInitialOptions (combined this) in
  create (currentCombined ++ extraCombined)%list newSettings.

(** ** Notions for the constructor *)

(** The lifecycle methods of one kind that the extensions define, each
    bound to its extension, in the order of the extensions. *)
Definition boundHandlers (method : AnyExtension -> option (list StoreCall))
  (extensions : list AnyExtension) : list Handler :=
  omap
    (fun extension =>
       match method extension with
       | Some body => Some (mkHandler (extension_name extension) body)
       | None => None
       end)
    extensions.

(** The names of the extensions of one kind, in the order of the
    extensions. *)
Definition namesOfKind (kind : ExtensionKind) (extensions : list AnyExtension)
  : list string :=
  omap
    (fun extension =>
       if bool_decide (extension_kind extension = kind)
       then Some (extension_name extension)
       else None)
    extensions.

(** A body that only calls [setExtensionStore], and never with one of
    the read-only keys: the bodies that run to their end during
    construction. *)
Definition writesOnly (body : list StoreCall) : bool :=
  forallb
    (fun call =>
       match call with
       | CallSetExtensionStore key _ => negb (isReadonlyStoreKey key)
       | CallGetState => false
       end)
    body.

(** What such a body leaves in the extension store. *)
Definition writeAll (body : list StoreCall)
  (store : gmap string StoreValue) : gmap string StoreValue :=
  foldl
    (fun store call =>
       match call with
       | CallSetExtensionStore key value => <[key := value]> store
       | CallGetState => store
       end)
    store body.

(** Handlers whose bodies all are of that kind, and what they leave in
    the extension store when called one after the other. *)
Definition allWriteOnly (registered : list Handler) : bool :=
  forallb (fun handler => writesOnly (handler_body handler)) registered.

Definition writeAllHandlers (registered : list Handler)
  (store : gmap string StoreValue) : gmap string StoreValue :=
  foldl (fun store handler => writeAll (handler_body handler) store)
    store registered.

(** The extension store as [setupLifecycleHandlers] leaves it. *)
Definition storeWithNames (extensions : list AnyExtension) : gmap string StoreValue :=
  <["plainNames" := NamesValue (namesOfKind PlainExtension extensions)]>
    (<["markNames" := NamesValue (namesOfKind MarkExtension extensions)]>
       (<["nodeNames" := NamesValue (namesOfKind NodeExtension extensions)]>
          createExtensionStore)).

(** An extension whose [onCreate] asks for the state. *)
Definition eagerExtension : AnyExtension :=
  mkExtension "eager" PlainExtension (Some [CallGetState]) None None None.

#[local] Instance exampleUnits : UnitInternals := {|
  cloneWithOptions := fun unit => unit;
  cloneWithInitialOptions := fun unit => unit;
|}.

(** ** More of core-utils: [nodeNameMatchesList] *)

(** [node.type.name]; the type of a text node is named ["text"]. *)
Definition nodeTypeName (node : ProsemirrorNode) : string :=
  match node with
  | PMText _ => "text"
  | PMLeaf type => type
  | PMBranch type _ => type
  end.

(** [NodeMatch]: a name, a function of the name and the node, or an
    array of strings (a [RegexTuple] when it has one or two items). *)
Variant NodeMatch : Type :=
| MatchName (name : string)
| MatchFunction (checker : string -> ProsemirrorNode -> bool)
| MatchArray (items : list string).

(** [new RegExp(...tuple).test(value)], the regular expressions of the
    JavaScript engine. *)
Class RegExpEngine := {
  regExpTest : list string -> string -> bool;
}.

(** [isRegexTuple(nodeMatch)] *)
Definition isRegexTuple (nodeMatch : NodeMatch) : bool :=
  match nodeMatch with
  | MatchArray items => (0 <? length items)%nat && (length items <=? 2)%nat
  | _ => false
  end.

(** The test of one checker in the loop of [nodeNameMatchesList]: a
    regex tuple is tested as a regular expression, a function is
    called, and anything else is compared with the name by [===]. *)
Definition checkNodeName `{RegExpEngine}
  (checker : NodeMatch) (name : string) (node : ProsemirrorNode) : bool :=
  if isRegexTuple checker
  then match checker with
       | MatchArray tuple => regExpTest tuple name
       | _ => false
       end
  else match checker with
       | MatchFunction checker => checker name node
       | MatchName expected => String.eqb expected name
       | MatchArray _ => false
       end.

(** [nodeNameMatchesList(node, nodeMatches)] *)
Definition nodeNameMatchesList `{RegExpEngine}
  (node : option ProsemirrorNode) (nodeMatches : list NodeMatch) : bool :=
  let outcome := false in
  match node with
  | None => outcome
  | Some node =>
      let name := nodeTypeName node in
      (fix loop (outcome : bool) (checkers : list NodeMatch) : bool :=
         match checkers with
         | [] => outcome
         | checker :: rest =>
             let outcome := checkNodeName checker name node in
             if outcome then outcome else loop outcome rest
         end) outcome nodeMatches
  end.

(** ** More of core-utils: [areSchemaCompatible] *)

(** What [areSchemaCompatible] reads of a schema: which object it is,
    [keys(schema.marks)] and [keys(schema.nodes)]. *)
Record SchemaKeys : Set := mkSchemaKeys {
  schema_identity : nat;
  schema_marks : list string;
  schema_nodes : list string;
}.

(** [array.includes(item)] *)
Definition includes (array : list string) (item : string) : bool :=
  bool_decide (item ∈ array).

(** [for (const item of items) { if (!other.includes(item)) return false }] *)
Fixpoint allIncluded (items other : list string) : bool :=
  match items with
  | [] => true
  | item :: rest =>
      if negb (includes other item) then false else allIncluded rest other
  end.

(** [areSchemaCompatible(schemaA, schemaB)] *)
Definition areSchemaCompatible (schemaA schemaB : SchemaKeys) : bool :=
  if (schema_identity schemaA =? schema_identity schemaB)%nat then true
  else
    let marksA := schema_marks schemaA in
    let marksB := schema_marks schemaB in
    let nodesA := schema_nodes schemaA in
    let nodesB := schema_nodes schemaB in
    if negb (length marksA =? length marksB)%nat
       || negb (length nodesA =? length nodesB)%nat
    then false
    else if negb (allIncluded marksA marksB) then false
    else if negb (allIncluded nodesA nodesB) then false
    else true.

(** Schemas as JavaScript has them: the keys of an object are distinct,
    and one object has one set of keys. *)
Definition wellFormedKeys (schema : SchemaKeys) : Prop :=
  NoDup (schema_marks schema) /\ NoDup (schema_nodes schema).

(** ** More of core-utils: [getInvalidContent] and [transformInvalidJSON] *)

(** A mark in JSON: its name, or an object with a [type]. *)
Variant ObjectMark : Set :=
| MarkString (name : string)
| MarkObject (type : string).

(** The JSON of a node as [getInvalidContent] reads it: the [type], the
    [marks] and the [content], the last two absent or arrays. *)
Inductive MarkedJSON : Set :=
| MarkedNode (type : string) (marks : option (list ObjectMark))
    (content : option (list MarkedJSON)).

Variant BlockType : Set := BlockMark | BlockNode.

(** [InvalidContentBlock] *)
Record InvalidContentBlock : Set := mkInvalidContentBlock {
  block_type : BlockType;
  block_name : string;
  block_path : list string;
  invalidParentNode : bool;
  invalidParentMark : bool;
}.

(** [isString(mark) ? mark : mark.type] *)
Definition markName (mark : ObjectMark) : string :=
  match mark with
  | MarkString name => name
  | MarkObject type => type
  end.

(** The loop over [marks.entries()]: an invalid mark is put in front of
    [invalidMarks] and sets [invalidParentMark] for what follows. *)
Fixpoint invalidMarksLoop (validMarks : gset string) (path : list string)
  (invalidParentNode : bool) (marks : list ObjectMark) (index : nat)
  (invalidMarks : list InvalidContentBlock) (invalidParentMark : bool)
  : list InvalidContentBlock * bool :=
  match marks with
  | [] => (invalidMarks, invalidParentMark)
  | mark :: rest =>
      let name := markName mark in
      if bool_decide (name ∈ validMarks)
      then invalidMarksLoop validMarks path invalidParentNode rest (S index)
             invalidMarks invalidParentMark
      else invalidMarksLoop validMarks path invalidParentNode rest (S index)
             (mkInvalidContentBlock BlockMark name
                (path ++ ["marks"; pretty index])%list invalidParentNode
                invalidParentMark
              :: invalidMarks)
             true
  end.

(** The loop over [content.entries()]: what the recursive call returns
    for a child is put in front of [invalidContent]. *)
Fixpoint invalidContentLoop
  (recurse : MarkedJSON -> list string -> list InvalidContentBlock)
  (path : list string) (content : list MarkedJSON) (index : nat)
  (invalidContent : list InvalidContentBlock) : list InvalidContentBlock :=
  match content with
  | [] => invalidContent
  | value :: rest =>
      invalidContentLoop recurse path rest (S index)
        (recurse value (path ++ ["content"; pretty index])%list ++ invalidContent)%list
  end.

(** [getInvalidContent({ json, validMarks, validNodes, path,
    invalidParentNode, invalidParentMark })] *)
Fixpoint getInvalidContent (validMarks validNodes : gset string)
  (json : MarkedJSON) (path : list string)
  (invalidParentNode invalidParentMark : bool) : list InvalidContentBlock :=
  match json with
  | MarkedNode type marks content =>
      let '(invalidNodes, invalidParentMark) :=
        match marks with
        | Some marks =>
            invalidMarksLoop validMarks path invalidParentNode marks 0 []
              invalidParentMark
        | None => ([], invalidParentMark)
        end in
      let '(invalidNodes, invalidParentNode) :=
        if bool_decide (type ∈ validNodes)
        then (invalidNodes, invalidParentNode)
        else ((invalidNodes
               ++ [mkInvalidContentBlock BlockNode type path invalidParentNode
                     invalidParentMark])%list,
              true) in
      match content with
      | Some content =>
          (invalidContentLoop
             (fun value path =>
                getInvalidContent validMarks validNodes value path
                  invalidParentNode invalidParentMark)
             path content 0 []
           ++ invalidNodes)%list
      | None => invalidNodes
      end
  end.

(** [unset(path, target)] of [@remirror/core-helpers], which is not part
    of the sources at hand. *)
Class ObjectHelpers := {
  unset : list string -> MarkedJSON -> MarkedJSON;
}.

(** [Transformer = InvalidContentTransformer | 'remove'] *)
Variant Transformer : Type :=
| TransformerFunction
    (transform : MarkedJSON -> list InvalidContentBlock -> MarkedJSON)
| TransformerRemove.

(** [transformers.remove(json, blocks)] *)
Definition remove `{ObjectHelpers}
  (json : MarkedJSON) (blocks : list InvalidContentBlock) : MarkedJSON :=
  foldl
    (fun newJSON block =>
       if invalidParentNode block then newJSON
       else unset (block_path block) newJSON)
    json blocks.

(** [transformInvalidJSON(json, schema, transformer)] *)
Definition transformInvalidJSON `{ObjectHelpers}
  (json : MarkedJSON) (schema : SchemaKeys) (transformer : Transformer)
  : MarkedJSON :=
  let validMarks : gset string := list_to_set (schema_marks schema) in
  let validNodes : gset string := list_to_set (schema_nodes schema) in
  let invalidContent :=
    getInvalidContent validMarks validNodes json [] false false in
  let transformer :=
    match transformer with
    | TransformerRemove => remove
    | TransformerFunction transform => transform
    end in
  match invalidContent with
  | _ :: _ => transformer json invalidContent
  | [] => json
  end.

(** ** Notions for the statements about invalid content *)

(** Every node type and every mark of the JSON is known. *)
Fixpoint validJSON (validMarks validNodes : gset string) (json : MarkedJSON)
  : bool :=
  match json with
  | MarkedNode type marks content =>
      bool_decide (type ∈ validNodes)
      && match marks with
         | Some marks =>
             forallb (fun mark => bool_decide (markName mark ∈ validMarks)) marks
         | None => true
         end
      && match content with
         | Some content => forallb (validJSON validMarks validNodes) content
         | None => true
         end
  end.

(** The number of marks that are not known. *)
Definition invalidMarkCount (validMarks : gset string) (marks : list ObjectMark)
  : nat :=
  length
    (omap
       (fun mark =>
          if bool_decide (markName mark ∈ validMarks) then None else Some mark)
       marks).

(** The number of unknown node types and unknown marks in the JSON. *)
Fixpoint invalidCount (validMarks validNodes : gset string) (json : MarkedJSON)
  : nat :=
  match json with
  | MarkedNode type marks content =>
      (if bool_decide (type ∈ validNodes) then 0 else 1)
      + match marks with
        | Some marks => invalidMarkCount validMarks marks
        | None => 0
        end
      + match content with
        | Some content =>
            foldr (fun child total => invalidCount validMarks validNodes child + total)
              0 content
        | None => 0
        end
  end%nat.

(** A block names something unknown. *)
Definition blockIsInvalid (validMarks validNodes : gset string)
  (block : InvalidContentBlock) : Prop :=
  match block_type block with
  | BlockMark => block_name block ∉ validMarks
  | BlockNode => block_name block ∉ validNodes
  end.

(** The blocks of the children of a node, those of a later child
    before those of an earlier one. *)
Fixpoint laterChildrenFirst
  (recurse : MarkedJSON -> list string -> list InvalidContentBlock)
  (path : list string) (content : list MarkedJSON) (index : nat)
  : list InvalidContentBlock :=
  match content with
  | [] => []
  | value :: rest =>
      (laterChildrenFirst recurse path rest (S index)
       ++ recurse value (path ++ ["content"; pretty index])%list)%list
  end.

(** Examples for the statements about JSON. *)
#[local] Instance exampleRegExp : RegExpEngine := {|
  regExpTest := fun tuple value =>
    match tuple with
    | pattern :: _ => String.prefix pattern value
    | [] => false
    end;
|}.

#[local] Instance exampleObjectHelpers : ObjectHelpers := {|
  unset := fun path json =>
    match path with
    | [] => MarkedNode "" None None
    | _ => json
    end;
|}.

Definition basicKeys : SchemaKeys :=
  mkSchemaKeys 1 ["bold"; "italic"] ["doc"; "paragraph"; "text"].

Definition reorderedKeys : SchemaKeys :=
  mkSchemaKeys 2 ["italic"; "bold"] ["text"; "doc"; "paragraph"].

Definition markedDocument : MarkedJSON :=
  MarkedNode "doc" None
    (Some [MarkedNode "paragraph" None
             (Some [MarkedNode "text" (Some [MarkString "bold"]) None]);
           MarkedNode "table" None
             (Some [MarkedNode "text"
                      (Some [MarkObject "underline"; MarkString "italic"]) None])]).

Definition validDocument : MarkedJSON :=
  MarkedNode "doc" None
    (Some [MarkedNode "paragraph" None
             (Some [MarkedNode "text" (Some [MarkString "bold"]) None])]).

(** Some mark of the node is not known. *)
Definition hasInvalidMark (validMarks : gset string)
  (marks : option (list ObjectMark)) : bool :=
  match marks with
  | Some marks =>
      negb (forallb (fun mark => bool_decide (markName mark ∈ validMarks)) marks)
  | None => false
  end.

(** [new Set(keys(schema.marks))] and [new Set(keys(schema.nodes))] *)
Definition validMarksOf (schema : SchemaKeys) : gset string :=
  list_to_set (schema_marks schema).

Definition validNodesOf (schema : SchemaKeys) : gset string :=
  list_to_set (schema_nodes schema).

(** An extension that calls [setExtensionStore] in its [onDestroy], and
    a manager made with it that has been given a view. *)
Definition eraserExtension : AnyExtension :=
  mkExtension "eraser" PlainExtension
    None None None (Some [CallSetExtensionStore "erased" (CustomValue "yes")]).

Definition eraserCombined : list AnyCombinedUnion :=
  [CombinedExtension paragraphExtension; CombinedExtension eraserExtension;
   CombinedExtension italicExtension].

Definition eraserManager : RemirrorManager :=
  match create eraserCombined exampleSettings with
  | Return manager => snd (addView exampleView manager)
  | Throw _ => exampleManager
  end.

(** A path lies in the content of the node at another path. *)
Definition inContentOf (path blockPath : list string) : Prop :=
  (path ++ ["content"])%list `prefix_of` blockPath.

(** ** The example managers are what [create] returns *)

Example create_exampleManager :
  create exampleCombined exampleSettings = Return exampleManager.
Proof. vm_compute. reflexivity. Qed.

Example create_lateManager :
  create lateCombined exampleSettings = Return lateManager.
Proof. vm_compute. reflexivity. Qed.

(** Comparisons of phases, stated on booleans, from the integers. *)
Ltac phase_compare :=
  unfold ManagerPhase.ge, ManagerPhase.le, ManagerPhase.lt;
  first [apply Z.leb_gt | apply Z.leb_le | apply Z.ltb_lt];
  simpl in *; lia.

(** ** Basic facts *)

Lemma nodeSize_branch type content :
  nodeSize (PMBranch type content) = 2 + contentSize (PMBranch type content).
Proof. reflexivity. Qed.

Lemma nodeSize_hasContent node :
  hasContent node = true -> nodeSize node - 2 = contentSize node.
Proof.
  destruct node as [text|type|type content]; simpl; try discriminate.
  intros _. pose proof (nodeSize_branch type content) as E. simpl in E. lia.
Qed.

Lemma nodeSize_nonneg node : 0 <= nodeSize node.
Proof.
  revert node. fix ind 1. intros [text|type|type content]; simpl; try lia.
  induction content as [|child rest IH]; [lia|].
  pose proof (ind child). lia.
Qed.

Lemma contentSize_nonneg node : 0 <= contentSize node.
Proof.
  destruct node as [text|type|type content]; simpl; try lia.
  unfold fragmentSize.
  induction content as [|child rest IH]; simpl; [lia|].
  pose proof (nodeSize_nonneg child). lia.
Qed.

Lemma phase_late_ge p :
  ManagerPhase.le p ManagerPhase.Create = false ->
  ManagerPhase.ge p ManagerPhase.EditorView = true.
Proof. destruct p; simpl; intros; try discriminate; reflexivity. Qed.

Lemma phase_ge_late p :
  ManagerPhase.ge p ManagerPhase.EditorView = true ->
  ManagerPhase.le p ManagerPhase.Create = false.
Proof. destruct p; simpl; intros; try discriminate; reflexivity. Qed.

Lemma phase_lt_not_ge p :
  ManagerPhase.lt p ManagerPhase.EditorView = true ->
  ManagerPhase.ge p ManagerPhase.EditorView = false.
Proof. destruct p; simpl; intros; try discriminate; reflexivity. Qed.

Lemma record_events_nil this : record_events [] this = this.
Proof. destruct this; unfold record_events; simpl. now rewrite app_nil_r. Qed.

Lemma record_events_app first second this :
  record_events second (record_events first this)
  = record_events (first ++ second) this.
Proof. unfold record_events; simpl. now rewrite app_assoc. Qed.

(** Past [Create], a call from a lifecycle method changes nothing. *)
Lemma runStoreCall_late call this :
  ManagerPhase.le (phase this) ManagerPhase.Create = false ->
  runStoreCall call this = (lateBodyOutcome (hasView this) [call], this).
Proof.
  intros Hlate. pose proof (phase_late_ge _ Hlate) as Hge.
  destruct call as [key value|]; unfold runStoreCall.
  - unfold setExtensionStore, bind, gets, invariant. simpl.
    rewrite Hlate. reflexivity.
  - unfold getState, bind, gets, invariant, hasView. simpl.
    rewrite Hge. simpl. destruct (store_view this); reflexivity.
Qed.

Lemma body_late body this :
  ManagerPhase.le (phase this) ManagerPhase.Create = false ->
  for_each body runStoreCall this = (lateBodyOutcome (hasView this) body, this).
Proof.
  intros Hlate. induction body as [|call rest IH]; [reflexivity|].
  simpl for_each. unfold bind. rewrite (runStoreCall_late call this Hlate).
  destruct call as [key value|]; simpl; [reflexivity|].
  destruct (hasView this); [exact IH | reflexivity].
Qed.

Lemma callHandlers_late called registered this :
  ManagerPhase.le (phase this) ManagerPhase.Create = false ->
  for_each registered (callHandler called) this
  = (fst (lateHandlers called (hasView this) registered),
     record_events (snd (lateHandlers called (hasView this) registered)) this).
Proof.
  intros Hlate. revert this Hlate.
  induction registered as [|handler rest IH]; intros this Hlate.
  - simpl. now rewrite record_events_nil.
  - simpl for_each. unfold bind at 1. unfold callHandler at 1.
    unfold bind at 1. unfold modify at 1.
    rewrite body_late by exact Hlate.
    change (hasView (record_events [called (handler_this handler)] this))
      with (hasView this).
    simpl lateHandlers.
    destruct (lateBodyOutcome (hasView this) (handler_body handler)) as [[]|error].
    + rewrite IH by exact Hlate.
      change (hasView (record_events [called (handler_this handler)] this))
        with (hasView this).
      destruct (lateHandlers called (hasView this) rest) as [outcome events].
      simpl. now rewrite record_events_app.
    + reflexivity.
Qed.

Lemma lateBodyOutcome_view body :
  callsSetExtensionStore body = false ->
  lateBodyOutcome true body = Return tt.
Proof.
  induction body as [|[key value|] rest IH]; simpl; intros H;
    [reflexivity | discriminate | exact (IH H)].
Qed.

Lemma lateBodyOutcome_throws view body error :
  lateBodyOutcome view body = Throw error ->
  view = true ->
  error = RemirrorError (Some MANAGER_PHASE_ERROR).
Proof.
  intros H ->. induction body as [|[key value|] rest IH]; simpl in H.
  - discriminate.
  - now inversion H.
  - exact (IH H).
Qed.

Lemma lateHandlers_complete called registered :
  withoutSetExtensionStore registered = true ->
  lateHandlers called true registered
  = (Return tt, map (fun handler => called (handler_this handler)) registered).
Proof.
  induction registered as [|handler rest IH]; simpl; intros H; [reflexivity|].
  apply andb_prop in H as [Hh Hrest].
  rewrite lateBodyOutcome_view by now apply negb_true_iff.
  now rewrite (IH Hrest).
Qed.

Lemma lateHandlers_setExtensionStore called registered :
  someCallsSetExtensionStore registered = true ->
  fst (lateHandlers called true registered)
  = Throw (RemirrorError (Some MANAGER_PHASE_ERROR)).
Proof.
  induction registered as [|handler rest IH]; simpl; intros H; [discriminate|].
  destruct (lateBodyOutcome true (handler_body handler)) as [[]|error] eqn:E.
  - destruct (callsSetExtensionStore (handler_body handler)) eqn:C.
    + clear -E C. exfalso.
      induction (handler_body handler) as [|[key value|] body IHb];
        simpl in *; try discriminate; auto.
    + simpl in H. specialize (IH H).
      destruct (lateHandlers called true rest); simpl in *. exact IH.
  - simpl. f_equal. now apply (lateBodyOutcome_throws true _ _ E).
Qed.

(** ** Lifecycle methods leave the lifecycle fields alone *)

Lemma sameLifecycle_refl this : sameLifecycle this this.
Proof. repeat split. Qed.

Lemma sameLifecycle_trans a b c :
  sameLifecycle a b -> sameLifecycle b c -> sameLifecycle a c.
Proof.
  intros (H1 & H2 & H3 & H4) (G1 & G2 & G3 & G4).
  repeat split; congruence.
Qed.

Lemma runStoreCall_frame call this :
  sameLifecycle this (snd (runStoreCall call this)).
Proof.
  destruct call as [key value|]; unfold runStoreCall.
  - unfold setExtensionStore, assignExtensionStore, bind, gets, invariant, modify,
      ret, throw. simpl.
    destruct (ManagerPhase.le (phase this) ManagerPhase.Create); simpl;
      [|apply sameLifecycle_refl].
    destruct (isReadonlyStoreKey key); simpl; repeat split.
  - unfold getState, bind, gets, invariant, ret, throw. simpl.
    destruct (ManagerPhase.ge (phase this) ManagerPhase.EditorView); simpl;
      [|apply sameLifecycle_refl].
    destruct (store_view this); simpl; apply sameLifecycle_refl.
Qed.

Lemma for_each_frame {A} (body : A -> Method unit) items :
  (forall x this, sameLifecycle this (snd (body x this))) ->
  forall this, sameLifecycle this (snd (for_each items body this)).
Proof.
  intros Hbody. induction items as [|x rest IH]; intros this.
  - apply sameLifecycle_refl.
  - simpl. unfold bind. specialize (Hbody x this).
    destruct (body x this) as [[[]|error] this1]; simpl in *; [|exact Hbody].
    eapply sameLifecycle_trans; [exact Hbody | apply IH].
Qed.

Lemma callHandler_frame called handler this :
  sameLifecycle this (snd (callHandler called handler this)).
Proof.
  unfold callHandler, bind, modify. simpl.
  pose proof (for_each_frame runStoreCall (handler_body handler)
                runStoreCall_frame
                (record_events [called (handler_this handler)] this)) as H.
  destruct (for_each (handler_body handler) runStoreCall
              (record_events [called (handler_this handler)] this))
    as [[[]|error] this1]; simpl in *;
    (eapply sameLifecycle_trans; [|exact H]); repeat split.
Qed.

Lemma callHandlers_frame called registered this :
  sameLifecycle this (snd (for_each registered (callHandler called) this)).
Proof. apply for_each_frame. intros. apply callHandler_frame. Qed.

(** ** The methods, one by one *)

Lemma addView_late view this :
  ManagerPhase.ge (phase this) ManagerPhase.EditorView = true ->
  addView view this = (Return tt, this).
Proof. intros H. unfold addView, bind, gets. simpl. now rewrite H. Qed.

Lemma addView_early view this :
  ManagerPhase.ge (phase this) ManagerPhase.EditorView = false ->
  let called := fun extension => ViewHandlerCalled extension view in
  let run := lateHandlers called true (view_handlers (handlers this)) in
  addView view this
  = (fst run,
     record_events (snd run)
       (set_store_view (Some view)
          (set_phase ManagerPhase.EditorView (set_firstStateUpdate true this)))).
Proof.
  intros H called run. unfold addView, bind at 1, gets at 1. rewrite H.
  unfold bind, modify, gets. simpl.
  rewrite callHandlers_late by reflexivity. reflexivity.
Qed.

Lemma onStateUpdate_unfold parameter this :
  let parameterWithUpdate :=
    mkStateUpdateLifecycleParameter
      (previousState parameter) (state parameter) (firstStateUpdate this) in
  onStateUpdate parameter this
  = (for_each (update_handlers (handlers this))
       (callHandler (fun extension => UpdateHandlerCalled extension parameterWithUpdate)) ;;
     modify (record_events [StateUpdateEmitted parameterWithUpdate]))
      (beforeUpdateHandlers parameter this).
Proof.
  unfold onStateUpdate, beforeUpdateHandlers, bind, gets, modify, ret. simpl.
  destruct (firstStateUpdate this); reflexivity.
Qed.

Lemma beforeUpdateHandlers_phase parameter this :
  phase (beforeUpdateHandlers parameter this)
  = if firstStateUpdate this then ManagerPhase.Runtime else phase this.
Proof. unfold beforeUpdateHandlers. simpl. now destruct (firstStateUpdate this). Qed.

Lemma beforeUpdateHandlers_view parameter this :
  store_view (beforeUpdateHandlers parameter this) = store_view this.
Proof. unfold beforeUpdateHandlers. simpl. now destruct (firstStateUpdate this). Qed.

Lemma beforeUpdateHandlers_handlers parameter this :
  handlers (beforeUpdateHandlers parameter this) = handlers this.
Proof. unfold beforeUpdateHandlers. simpl. now destruct (firstStateUpdate this). Qed.

Lemma beforeUpdateHandlers_first parameter this :
  firstStateUpdate (beforeUpdateHandlers parameter this) = false.
Proof.
  unfold beforeUpdateHandlers, set_extensionStore. cbn.
  destruct (firstStateUpdate this) eqn:E; reflexivity.
Qed.

Lemma beforeUpdateHandlers_trace parameter this :
  trace (beforeUpdateHandlers parameter this) = trace this.
Proof. unfold beforeUpdateHandlers. simpl. now destruct (firstStateUpdate this). Qed.

Lemma onStateUpdate_lifecycle parameter this :
  let this' := snd (onStateUpdate parameter this) in
  phase this' = (if firstStateUpdate this then ManagerPhase.Runtime else phase this)
  /\ store_view this' = store_view this
  /\ firstStateUpdate this' = false
  /\ handlers this' = handlers this.
Proof.
  intros this'. subst this'. rewrite onStateUpdate_unfold. unfold bind.
  match goal with
  | |- context [for_each ?hs (callHandler ?called) ?s] =>
      pose proof (callHandlers_frame called hs s) as (H1 & H2 & H3 & H4);
      destruct (for_each hs (callHandler called) s) as [[[]|error] this1]
  end; simpl in *;
    rewrite H1, H2, H3, H4, beforeUpdateHandlers_phase,
      beforeUpdateHandlers_view, beforeUpdateHandlers_handlers,
      beforeUpdateHandlers_first;
    repeat split.
Qed.

Lemma destroy_unfold this :
  let run :=
    lateHandlers DestroyHandlerCalled (hasView this)
      (destroy_handlers (handlers this)) in
  let plugins :=
    match store_view this with
    | Some view =>
        omap
          (fun plugin =>
             match plugin_state plugin with
             | Some true => Some (PluginStateDestroyed (plugin_key plugin))
             | _ => None
             end)
          (st_plugins (view_state view))
    | None => []
    end in
  destroy this
  = match fst run with
    | Return _ =>
        (Return tt,
         record_events
           (plugins ++ snd run
            ++ match store_view this with
               | Some view => [ViewDestroyed (view_id view)]
               | None => []
               end
            ++ [DestroyEmitted])
           (set_phase ManagerPhase.Destroy this))
    | Throw error =>
        (Throw error,
         record_events (plugins ++ snd run) (set_phase ManagerPhase.Destroy this))
    end.
Proof.
  intros run plugins.
  assert (Hplugins : forall items this0,
             for_each items destroyPluginState this0
             = (Return tt,
                record_events
                  (omap
                     (fun plugin =>
                        match plugin_state plugin with
                        | Some true => Some (PluginStateDestroyed (plugin_key plugin))
                        | _ => None
                        end) items) this0)).
  { induction items as [|plugin rest IH]; intros this0; simpl.
    - now rewrite record_events_nil.
    - unfold bind, destroyPluginState at 1.
      destruct (plugin_state plugin) as [[]|]; unfold modify, ret; simpl;
        rewrite IH; [rewrite record_events_app; reflexivity | reflexivity | reflexivity]. }
  unfold destroy. unfold bind at 1, modify at 1. unfold bind at 1, gets at 1.
  unfold bind at 1. rewrite Hplugins.
  change (store_view (set_phase ManagerPhase.Destroy this)) with (store_view this).
  replace (omap _ match store_view this with
                  | Some view => st_plugins (view_state view)
                  | None => []
                  end) with plugins
    by (subst plugins; destruct (store_view this); reflexivity).
  set (this1 := record_events plugins (set_phase ManagerPhase.Destroy this)).
  unfold bind at 1, gets at 1. unfold bind at 1.
  rewrite callHandlers_late by reflexivity.
  change (hasView this1) with (hasView this).
  change (handlers this1) with (handlers this). fold run.
  destruct (fst run) as [[]|error].
  - unfold bind, gets, modify, ret. subst this1.
    change (store_view (record_events _ (record_events _ (set_phase _ this))))
      with (store_view this).
    destruct (store_view this) as [view|];
      repeat rewrite record_events_app; repeat rewrite <- app_assoc;
      rewrite ?app_nil_l; reflexivity.
  - subst this1. now rewrite record_events_app.
Qed.

(** ** The extension store is written only up to the [Create] phase *)

Lemma setExtensionStore_late key value this :
  ManagerPhase.le (phase this) ManagerPhase.Create = false ->
  setExtensionStore key value this
  = (Throw (RemirrorError (Some MANAGER_PHASE_ERROR)), this).
Proof.
  intros H. unfold setExtensionStore, bind, gets, invariant. simpl.
  now rewrite H.
Qed.

Lemma setExtensionStore_early key value this :
  ManagerPhase.le (phase this) ManagerPhase.Create = true ->
  setExtensionStore key value this = assignExtensionStore key value this.
Proof.
  intros H. unfold setExtensionStore, bind, gets, invariant. simpl.
  now rewrite H.
Qed.

(** C3, as stated, fails: in the [Create] phase [setExtensionStore]
    called with the key ["phase"], one of the read-only properties of
    the extension store, throws a [TypeError] and writes nothing. *)
Lemma setExtensionStore_readonly_key_counterexample :
  phase exampleManager = ManagerPhase.Create /\
  setExtensionStore "phase" (CustomValue "Runtime") exampleManager
  = (Throw TypeError, exampleManager) /\
  extensionStore exampleManager !! "phase" = None.
Proof. repeat split; vm_compute; reflexivity. Qed.

(** C3, amended: while the phase is at most [Create],
    [setExtensionStore] with a key that is not one of the read-only
    properties of the store returns and writes the key (with a read-only
    key it throws a [TypeError] and leaves the store as it is); in every
    later phase it throws the phase error and leaves the manager as it
    is; and [addView] throws the phase error when an [onView] handler
    calls [setExtensionStore]. *)
Theorem setExtensionStore_phase_gate this key value :
  (ManagerPhase.value (phase this) <= ManagerPhase.value ManagerPhase.Create ->
   isReadonlyStoreKey key = false ->
   setExtensionStore key value this
   = (Return tt, set_extensionStore (insert key value) this)
   /\ extensionStore (set_extensionStore (insert key value) this) !! key
      = Some value) /\
  (ManagerPhase.value (phase this) <= ManagerPhase.value ManagerPhase.Create ->
   isReadonlyStoreKey key = true ->
   setExtensionStore key value this = (Throw TypeError, this)) /\
  (ManagerPhase.value ManagerPhase.Create < ManagerPhase.value (phase this) ->
   setExtensionStore key value this
   = (Throw (RemirrorError (Some MANAGER_PHASE_ERROR)), this)) /\
  (forall view,
     ManagerPhase.value (phase this) <= ManagerPhase.value ManagerPhase.Create ->
     someCallsSetExtensionStore (view_handlers (handlers this)) = true ->
     fst (addView view this) = Throw (RemirrorError (Some MANAGER_PHASE_ERROR))).
Proof.
  split; [|split; [|split]].
  - intros Hp Hk. split; [|simpl; apply lookup_insert_eq].
    rewrite setExtensionStore_early by (apply Z.leb_le, Hp).
    unfold assignExtensionStore. now rewrite Hk.
  - intros Hp Hk. rewrite setExtensionStore_early by (apply Z.leb_le, Hp).
    unfold assignExtensionStore. now rewrite Hk.
  - intros Hp. apply setExtensionStore_late. apply Z.leb_gt, Hp.
  - intros view Hp Hcalls.
    rewrite addView_early.
    + simpl. now apply lateHandlers_setExtensionStore.
    + phase_compare.
Qed.

Lemma setExtensionStore_phase_gate_witness :
  setExtensionStore "tags" (CustomValue "other") exampleManager
  = (Return tt,
     set_extensionStore (insert "tags" (CustomValue "other")) exampleManager)
  /\ setExtensionStore "tags" (CustomValue "other")
       (snd (addView exampleView exampleManager))
     = (Throw (RemirrorError (Some MANAGER_PHASE_ERROR)),
        snd (addView exampleView exampleManager))
  /\ fst (addView exampleView lateManager)
     = Throw (RemirrorError (Some MANAGER_PHASE_ERROR)).
Proof.
  split; [|split].
  - apply (setExtensionStore_phase_gate exampleManager "tags" (CustomValue "other"));
      [simpl; lia | reflexivity].
  - apply (setExtensionStore_phase_gate (snd (addView exampleView exampleManager))
             "tags" (CustomValue "other")).
    simpl. lia.
  - apply (setExtensionStore_phase_gate lateManager "tags" (CustomValue "other"));
      [simpl; lia | reflexivity].
Defined.

(** ** [addView] *)

Lemma performAll_addView_late views this :
  ManagerPhase.ge (phase this) ManagerPhase.EditorView = true ->
  performAll (map AddView views) this = this.
Proof.
  intros H. induction views as [|view rest IH]; [reflexivity|].
  simpl. rewrite addView_late by exact H. exact IH.
Qed.

(** Whatever the first call did, a second call to [addView] does
    nothing. *)
Lemma addView_second_call view view' this :
  addView view' (snd (addView view this)) = (Return tt, snd (addView view this)).
Proof.
  apply addView_late.
  destruct (ManagerPhase.ge (phase this) ManagerPhase.EditorView) eqn:E.
  - now rewrite addView_late.
  - now rewrite addView_early.
Qed.

(** C5: on a manager that is not yet in the [EditorView] phase and whose
    [onView] handlers do not call [setExtensionStore], [addView(view)]
    returns, stores the view, sets the phase to [EditorView] and calls
    every [onView] handler once, in the order of registration; after
    that [addView] with any view returns and changes nothing, so the
    first view remains stored and the trace has no further [onView]
    call, however often it is called. *)
Theorem addView_idempotent this view view' views :
  ManagerPhase.value (phase this) < ManagerPhase.value ManagerPhase.EditorView ->
  withoutSetExtensionStore (view_handlers (handlers this)) = true ->
  addView view this = (Return tt, withView view this)
  /\ store_view (withView view this) = Some view
  /\ phase (withView view this) = ManagerPhase.EditorView
  /\ trace (withView view this)
     = (trace this
        ++ map (fun handler => ViewHandlerCalled (handler_this handler) view)
             (view_handlers (handlers this)))%list
  /\ addView view' (withView view this) = (Return tt, withView view this)
  /\ performAll (map AddView views) (withView view this) = withView view this.
Proof.
  intros Hphase Hquiet.
  split; [|split; [|split; [|split; [|split]]]].
  - rewrite addView_early by phase_compare.
    simpl. rewrite lateHandlers_complete by exact Hquiet. reflexivity.
  - reflexivity.
  - reflexivity.
  - reflexivity.
  - now apply addView_late.
  - now apply performAll_addView_late.
Qed.

Lemma addView_idempotent_witness :
  addView exampleView exampleManager
  = (Return tt, withView exampleView exampleManager)
  /\ store_view (withView exampleView exampleManager) = Some exampleView
  /\ trace (withView exampleView exampleManager)
     = [CreateHandlerCalled "tags"; ViewHandlerCalled "paragraph" exampleView]
  /\ addView otherView (withView exampleView exampleManager)
     = (Return tt, withView exampleView exampleManager).
Proof.
  destruct (addView_idempotent exampleManager exampleView otherView [otherView])
    as (H1 & H2 & _ & H4 & H5 & _);
    [simpl; lia | reflexivity |].
  repeat split; assumption.
Defined.

(** ** [destroy] *)

Lemma lateHandlers_returned called view registered :
  fst (lateHandlers called view registered) = Return tt ->
  snd (lateHandlers called view registered)
  = map (fun handler => called (handler_this handler)) registered.
Proof.
  induction registered as [|handler rest IH]; simpl; [reflexivity|].
  destruct (lateBodyOutcome view (handler_body handler)) as [[]|error];
    [|discriminate].
  destruct (lateHandlers called view rest) as [outcome events]; simpl in *.
  intros H. now rewrite (IH H).
Qed.

Lemma destroy_returned this this' :
  destroy this = (Return tt, this') ->
  fst (lateHandlers DestroyHandlerCalled (hasView this)
         (destroy_handlers (handlers this))) = Return tt
  /\ this' = record_events (destroyEvents this) (set_phase ManagerPhase.Destroy this).
Proof.
  rewrite destroy_unfold.
  destruct (fst (lateHandlers DestroyHandlerCalled (hasView this)
                   (destroy_handlers (handlers this)))) as [[]|error] eqn:E;
    [|discriminate].
  intros H. split; [reflexivity|].
  injection H as <-. unfold destroyEvents.
  now rewrite (lateHandlers_returned _ _ _ E).
Qed.

(** C1, as stated, fails: on the example manager with its view added,
    the first [destroy()] returns after calling the two [onDestroy]
    handlers and destroying the view once; the second [destroy()]
    returns as well, and has called both handlers and destroyed the view
    a second time. *)
Lemma destroy_twice_counterexample :
  fst (destroy mountedManager) = Return tt
  /\ destroyHandlerCalls (trace (snd (destroy mountedManager)))
     = ["paragraph"; "italic"]
  /\ viewsDestroyed (trace (snd (destroy mountedManager))) = [1%nat]
  /\ fst (destroy (snd (destroy mountedManager))) = Return tt
  /\ destroyHandlerCalls (trace (snd (destroy (snd (destroy mountedManager)))))
     = ["paragraph"; "italic"; "paragraph"; "italic"]
  /\ viewsDestroyed (trace (snd (destroy (snd (destroy mountedManager)))))
     = [1%nat; 1%nat].
Proof. repeat split; vm_compute; reflexivity. Qed.

(** C1, amended: when a first [destroy()] has returned, a second
    [destroy()] returns too and leaves the phase at [Destroy], but it is
    not guarded: it makes the calls of the first one again, that is, it
    calls every [onDestroy] handler in the order of registration,
    destroys the plugin states and the view when there is one, and
    emits [destroy]. *)
Theorem destroy_twice_repeats this this' :
  destroy this = (Return tt, this') ->
  phase this' = ManagerPhase.Destroy
  /\ trace this' = (trace this ++ destroyEvents this)%list
  /\ destroy this' = (Return tt, record_events (destroyEvents this) this')
  /\ destroyHandlerCalls (destroyEvents this)
     = map handler_this (destroy_handlers (handlers this)).
Proof.
  intros H. apply destroy_returned in H as (Hrun & ->).
  split; [reflexivity|]. split; [reflexivity|]. split.
  - rewrite destroy_unfold.
    change (hasView (record_events _ (set_phase _ this))) with (hasView this).
    change (handlers (record_events _ (set_phase _ this))) with (handlers this).
    rewrite Hrun. rewrite (lateHandlers_returned _ _ _ Hrun). reflexivity.
  - unfold destroyEvents, destroyHandlerCalls.
    rewrite !omap_app.
    assert (Hplugins : forall plugins,
               omap (fun event => match event with
                                  | DestroyHandlerCalled extension => Some extension
                                  | _ => None
                                  end)
                 (omap (fun plugin => match plugin_state plugin with
                                      | Some true =>
                                          Some (PluginStateDestroyed (plugin_key plugin))
                                      | _ => None
                                      end) plugins) = []).
    { induction plugins as [|plugin rest IH]; [reflexivity|].
      simpl. destruct (plugin_state plugin) as [[]|]; exact IH. }
    assert (Hhandlers : forall registered,
               omap (fun event => match event with
                                  | DestroyHandlerCalled extension => Some extension
                                  | _ => None
                                  end)
                 (map (fun handler => DestroyHandlerCalled (handler_this handler))
                    registered) = map handler_this registered).
    { induction registered as [|handler rest IH]; [reflexivity|].
      simpl. now rewrite <- IH. }
    rewrite Hhandlers.
    destruct (store_view this) as [view|]; [rewrite Hplugins|];
      simpl; now rewrite app_nil_r.
Qed.

Lemma destroy_twice_repeats_witness :
  destroy (snd (destroy mountedManager))
  = (Return tt,
     record_events (destroyEvents mountedManager) (snd (destroy mountedManager)))
  /\ destroyHandlerCalls (destroyEvents mountedManager) = ["paragraph"; "italic"].
Proof.
  destruct (destroy_twice_repeats mountedManager (snd (destroy mountedManager)))
    as (_ & _ & H3 & H4); [vm_compute; reflexivity |].
  split; assumption.
Defined.

(** ** State updates *)

Lemma beforeUpdateHandlers_store parameter this :
  extensionStore (beforeUpdateHandlers parameter this) !! "currentState"
  = Some (StateValue (state parameter))
  /\ extensionStore (beforeUpdateHandlers parameter this) !! "previousState"
     = Some (StateValue (previousState parameter)).
Proof.
  unfold beforeUpdateHandlers, set_extensionStore. cbn.
  destruct (firstStateUpdate this); cbn; split;
    try apply lookup_insert_eq;
    (rewrite lookup_insert_ne by discriminate; apply lookup_insert_eq).
Qed.

(** One state update on a manager that has a view, is past [Create] or
    about to leave it, and whose [onStateUpdate] handlers do not call
    [setExtensionStore]. *)
Lemma onStateUpdate_run parameter this :
  hasView this = true ->
  firstStateUpdate this = true
  \/ ManagerPhase.le (phase this) ManagerPhase.Create = false ->
  withoutSetExtensionStore (update_handlers (handlers this)) = true ->
  onStateUpdate parameter this
  = (Return tt,
     record_events
       (updateEvents (update_handlers (handlers this)) (firstStateUpdate this)
          parameter)
       (beforeUpdateHandlers parameter this)).
Proof.
  intros Hview Hlate Hquiet. rewrite onStateUpdate_unfold. unfold bind.
  rewrite callHandlers_late.
  - replace (hasView (beforeUpdateHandlers parameter this)) with true
      by (unfold hasView in *; now rewrite beforeUpdateHandlers_view).
    rewrite lateHandlers_complete by exact Hquiet.
    unfold modify. simpl. now rewrite record_events_app.
  - rewrite beforeUpdateHandlers_phase.
    destruct (firstStateUpdate this); [reflexivity|].
    now destruct Hlate.
Qed.

Lemma updateHandlerCalls_updateEvents registered first parameter :
  updateHandlerCalls (updateEvents registered first parameter)
  = map handler_this registered.
Proof.
  unfold updateHandlerCalls, updateEvents. rewrite omap_app. simpl.
  rewrite app_nil_r.
  induction registered as [|handler rest IH]; [reflexivity|].
  simpl. now rewrite <- IH.
Qed.

Lemma firstUpdateFlags_updateEvents registered first parameter :
  firstUpdateFlags (updateEvents registered first parameter)
  = replicate (length registered) first.
Proof.
  unfold firstUpdateFlags, updateEvents. rewrite omap_app. simpl.
  rewrite app_nil_r.
  induction registered as [|handler rest IH]; [reflexivity|].
  simpl. now rewrite <- IH.
Qed.

Lemma updateHandlerCalls_deliveryEvents registered first updates :
  updateHandlerCalls (deliveryEvents registered first updates)
  = concat (replicate (length updates) (map handler_this registered)).
Proof.
  revert first. induction updates as [|parameter rest IH]; intros first;
    [reflexivity|].
  simpl. unfold updateHandlerCalls in *. rewrite omap_app.
  rewrite IH. f_equal. apply updateHandlerCalls_updateEvents.
Qed.

Lemma firstUpdateFlags_later registered updates :
  firstUpdateFlags (deliveryEvents registered false updates)
  = replicate (length updates * length registered) false.
Proof.
  induction updates as [|parameter rest IH]; [reflexivity|].
  simpl. unfold firstUpdateFlags in *. rewrite omap_app, IH.
  fold (firstUpdateFlags (updateEvents registered false parameter)).
  rewrite firstUpdateFlags_updateEvents. now rewrite replicate_add.
Qed.

Lemma deliver_run updates : forall this,
  hasView this = true ->
  firstStateUpdate this = true
  \/ ManagerPhase.le (phase this) ManagerPhase.Create = false ->
  withoutSetExtensionStore (update_handlers (handlers this)) = true ->
  exists final,
    deliver updates this = (Return tt, final)
    /\ trace final
       = (trace this
          ++ deliveryEvents (update_handlers (handlers this))
               (firstStateUpdate this) updates)%list
    /\ (updates <> [] ->
        phase final
        = (if firstStateUpdate this then ManagerPhase.Runtime else phase this)
        /\ firstStateUpdate final = false)
    /\ (forall parameter, last updates = Some parameter ->
        extensionStore final !! "currentState" = Some (StateValue (state parameter))
        /\ extensionStore final !! "previousState"
           = Some (StateValue (previousState parameter))).
Proof.
  induction updates as [|parameter rest IH]; intros this Hview Hlate Hquiet.
  - exists this. repeat split; try easy. simpl. now rewrite app_nil_r.
  - simpl deliver. unfold bind.
    rewrite onStateUpdate_run by assumption.
    set (this1 := record_events _ (beforeUpdateHandlers parameter this)).
    assert (Hview1 : hasView this1 = true).
    { unfold hasView in *. subst this1. simpl.
      now rewrite beforeUpdateHandlers_view. }
    assert (Hphase1 : phase this1
                      = if firstStateUpdate this then ManagerPhase.Runtime
                        else phase this).
    { subst this1. simpl. apply beforeUpdateHandlers_phase. }
    assert (Hfirst1 : firstStateUpdate this1 = false).
    { subst this1. simpl. apply beforeUpdateHandlers_first. }
    assert (Hhandlers1 : handlers this1 = handlers this).
    { subst this1. simpl. apply beforeUpdateHandlers_handlers. }
    assert (Hlate1 : ManagerPhase.le (phase this1) ManagerPhase.Create = false).
    { rewrite Hphase1. destruct (firstStateUpdate this); [reflexivity|].
      now destruct Hlate. }
    destruct (IH this1 Hview1 (or_intror Hlate1)) as (final & Hrun & Htrace & Hph & Hstore).
    { now rewrite Hhandlers1. }
    exists final. split; [exact Hrun|]. split; [|split].
    + rewrite Htrace, Hhandlers1, Hfirst1. subst this1. simpl.
      now rewrite beforeUpdateHandlers_trace, <- app_assoc.
    + intros _. destruct rest as [|next rest'].
      * simpl in Hrun. injection Hrun as <-. now split.
      * destruct Hph as (Hph1 & Hph2); [discriminate|].
        rewrite Hph1, Hfirst1, Hphase1. now split.
    + intros last Hlast. destruct rest as [|next rest'].
      * simpl in Hrun, Hlast. injection Hrun as <-. injection Hlast as <-.
        subst this1. simpl. apply beforeUpdateHandlers_store.
      * apply Hstore. exact Hlast.
Qed.

Lemma addView_attached view this0 this :
  ManagerPhase.value (phase this0) < ManagerPhase.value ManagerPhase.EditorView ->
  addView view this0 = (Return tt, this) ->
  store_view this = Some view
  /\ phase this = ManagerPhase.EditorView
  /\ firstStateUpdate this = true
  /\ handlers this = handlers this0.
Proof.
  intros Hphase Hadd.
  rewrite addView_early in Hadd by phase_compare.
  injection Hadd as _ <-. repeat split.
Qed.

(** C6: after [addView] has attached a view, delivering N state updates
    to a manager whose [onStateUpdate] handlers do not call
    [setExtensionStore] returns and calls, for each update in turn,
    every [onStateUpdate] handler in the order of registration and then
    emits [stateUpdate]: N rounds in the same order, the handlers of the
    first round receiving [firstUpdate = true] and those of all later
    rounds [firstUpdate = false].  The first update puts the manager in
    the [Runtime] phase, where it stays; the extension store ends with
    the states of the last update; and in every update the two
    snapshots are in the store when the handlers are called. *)
Theorem onStateUpdate_deliveries this0 view this updates :
  ManagerPhase.value (phase this0) < ManagerPhase.value ManagerPhase.EditorView ->
  addView view this0 = (Return tt, this) ->
  withoutSetExtensionStore (update_handlers (handlers this0)) = true ->
  exists final,
    deliver updates this = (Return tt, final)
    /\ trace final
       = (trace this
          ++ deliveryEvents (update_handlers (handlers this0)) true updates)%list
    /\ updateHandlerCalls
         (deliveryEvents (update_handlers (handlers this0)) true updates)
       = concat (replicate (length updates)
                   (map handler_this (update_handlers (handlers this0))))
    /\ firstUpdateFlags
         (deliveryEvents (update_handlers (handlers this0)) true updates)
       = match updates with
         | [] => []
         | _ :: later =>
             (replicate (length (update_handlers (handlers this0))) true
              ++ replicate
                   (length later * length (update_handlers (handlers this0)))
                   false)%list
         end
    /\ (forall parameter later,
          updates = parameter :: later ->
          phase (snd (onStateUpdate parameter this)) = ManagerPhase.Runtime)
    /\ (updates <> [] -> phase final = ManagerPhase.Runtime)
    /\ (forall parameter,
          last updates = Some parameter ->
          extensionStore final !! "currentState"
          = Some (StateValue (state parameter))
          /\ extensionStore final !! "previousState"
             = Some (StateValue (previousState parameter)))
    /\ (forall parameter s,
          onStateUpdate parameter s
          = (for_each (update_handlers (handlers s))
               (callHandler
                  (fun extension =>
                     UpdateHandlerCalled extension
                       (mkStateUpdateLifecycleParameter
                          (previousState parameter) (state parameter)
                          (firstStateUpdate s)))) ;;
             modify
               (record_events
                  [StateUpdateEmitted
                     (mkStateUpdateLifecycleParameter
                        (previousState parameter) (state parameter)
                        (firstStateUpdate s))]))
              (beforeUpdateHandlers parameter s)
          /\ extensionStore (beforeUpdateHandlers parameter s) !! "currentState"
             = Some (StateValue (state parameter))
          /\ extensionStore (beforeUpdateHandlers parameter s) !! "previousState"
             = Some (StateValue (previousState parameter))).
Proof.
  intros Hphase Hadd Hquiet.
  destruct (addView_attached _ _ _ Hphase Hadd) as (Hview & Hp & Hfirst & Hhandlers).
  destruct (deliver_run updates this) as (final & Hrun & Htrace & Hph & Hstore).
  { unfold hasView. now rewrite Hview. }
  { now left. }
  { now rewrite Hhandlers. }
  rewrite Hhandlers, Hfirst in *.
  exists final. split; [exact Hrun|]. split; [exact Htrace|].
  split; [apply updateHandlerCalls_deliveryEvents|]. split.
  { destruct updates as [|parameter later]; [reflexivity|].
    simpl. unfold firstUpdateFlags. rewrite omap_app.
    fold (firstUpdateFlags (updateEvents (update_handlers (handlers this0)) true parameter)).
    fold (firstUpdateFlags (deliveryEvents (update_handlers (handlers this0)) false later)).
    now rewrite firstUpdateFlags_updateEvents, firstUpdateFlags_later. }
  split.
  { intros parameter later _.
    destruct (onStateUpdate_lifecycle parameter this) as (H & _).
    now rewrite H, Hfirst. }
  split; [intros Hne; now apply Hph|]. split; [exact Hstore|].
  intros parameter s. split; [apply onStateUpdate_unfold|].
  apply beforeUpdateHandlers_store.
Qed.

Lemma onStateUpdate_deliveries_witness :
  exists final,
    deliver exampleUpdates mountedManager = (Return tt, final)
    /\ updateHandlerCalls (trace final)
       = ["paragraph"; "italic"; "paragraph"; "italic"]
    /\ firstUpdateFlags (trace final) = [true; true; false; false]
    /\ phase final = ManagerPhase.Runtime.
Proof.
  destruct (onStateUpdate_deliveries exampleManager exampleView mountedManager
              exampleUpdates)
    as (final & Hrun & Htrace & _ & _ & _ & Hphase & _);
    [simpl; lia | reflexivity | reflexivity |].
  exists final. split; [exact Hrun|]. rewrite Htrace.
  split; [reflexivity|]. split; [reflexivity|].
  apply Hphase. discriminate.
Defined.

(** ** [getState] *)

Lemma getState_early this :
  ManagerPhase.ge (phase this) ManagerPhase.EditorView = false ->
  getState this = (Throw (RemirrorError (Some MANAGER_PHASE_ERROR)), this).
Proof.
  intros H. unfold getState, bind, gets, invariant. simpl. now rewrite H.
Qed.

Lemma getState_late this :
  ManagerPhase.ge (phase this) ManagerPhase.EditorView = true ->
  getState this
  = (match store_view this with
     | Some view => Return (view_state view)
     | None => Throw TypeError
     end, this).
Proof.
  intros H. unfold getState, bind, gets, invariant. simpl. rewrite H. simpl.
  now destruct (store_view this).
Qed.

Lemma updateState_unfold state this :
  updateState state this
  = match fst (getState this), store_view this with
    | Return previousState, Some view =>
        onStateUpdate (mkStateUpdateParameter previousState state)
          (record_events [ViewStateUpdated (view_id view) state]
             (set_store_view (Some (mkEditorView (view_id view) state)) this))
    | Return _, None => (Throw TypeError, this)
    | Throw error, _ => (Throw error, this)
    end.
Proof.
  unfold updateState. unfold bind at 1.
  destruct (ManagerPhase.ge (phase this) ManagerPhase.EditorView) eqn:E.
  - rewrite getState_late by exact E.
    destruct (store_view this) as [view|] eqn:V; simpl; [|reflexivity].
    unfold bind, gets, modify. simpl. now rewrite V.
  - now rewrite getState_early by exact E.
Qed.

Lemma setupLifecycleHandlers_lifecycle this :
  phase (setupLifecycleHandlers this) = phase this
  /\ store_view (setupLifecycleHandlers this) = store_view this
  /\ firstStateUpdate (setupLifecycleHandlers this) = firstStateUpdate this.
Proof.
  unfold setupLifecycleHandlers.
  destruct (foldl setupExtension (handlers this, ([], [], [])) (extensions this))
    as [h [[nodeNames markNames] plainNames]].
  repeat split.
Qed.

(** A manager that the constructor returns is in the [Create] phase and
    has no view. *)
Lemma constructor_returns `{CoreInternals} combined privacy settings this :
  constructor combined privacy settings = Return this ->
  privacy = Some privacySymbol
  /\ phase this = ManagerPhase.Create
  /\ store_view this = None
  /\ firstStateUpdate this = true.
Proof.
  unfold constructor.
  destruct (bool_decide (privacy = Some privacySymbol)) eqn:P; [|discriminate].
  apply bool_decide_eq_true in P. simpl.
  destruct (transformCombinedUnion combined settings) as [[exts pres]|error];
    [|discriminate].
  set (s0 := set_phase _ _). set (hs := create_handlers _).
  pose proof (callHandlers_frame CreateHandlerCalled hs s0) as (H1 & H2 & H3 & _).
  destruct (for_each hs (callHandler CreateHandlerCalled) s0)
    as [[[]|error] this1]; [|discriminate].
  intros E. injection E as <-. simpl in H1, H2, H3.
  destruct (setupLifecycleHandlers_lifecycle
              (mkRemirrorManager createExtensionStore exts pres None
                 ManagerPhase.None settings combined true
                 (mkHandlers [] [] [] []) [])) as (_ & G2 & G3).
  subst s0. simpl in *. repeat split; congruence.
Qed.

Lemma perform_viewImpliesPhase operation this :
  viewImpliesPhase this -> viewImpliesPhase (snd (perform operation this)).
Proof.
  unfold viewImpliesPhase. intros Inv.
  destruct operation as [view|parameter|state|]; simpl perform.
  - destruct (ManagerPhase.ge (phase this) ManagerPhase.EditorView) eqn:E.
    + now rewrite addView_late.
    + rewrite addView_early by exact E. simpl. lia.
  - destruct (onStateUpdate_lifecycle parameter this) as (Hp & Hv & _).
    rewrite Hp, Hv. intros V. specialize (Inv V).
    destruct (firstStateUpdate this); simpl in *; lia.
  - rewrite updateState_unfold.
    destruct (ManagerPhase.ge (phase this) ManagerPhase.EditorView) eqn:E.
    + rewrite getState_late by exact E.
      destruct (store_view this) as [view|] eqn:V; simpl; [|now rewrite V].
      match goal with
      | |- context [onStateUpdate ?p ?s] =>
          destruct (onStateUpdate_lifecycle p s) as (Hp & _)
      end.
      rewrite Hp. simpl. intros _.
      apply Z.leb_le in E.
      destruct (firstStateUpdate this); simpl in *; lia.
    + rewrite getState_early by exact E. exact Inv.
  - rewrite destroy_unfold.
    destruct (fst (lateHandlers _ _ _)); simpl; lia.
Qed.

Lemma performAll_viewImpliesPhase operations this :
  viewImpliesPhase this -> viewImpliesPhase (performAll operations this).
Proof.
  revert this. induction operations as [|operation rest IH]; intros this Inv;
    [exact Inv|].
  simpl. apply IH. now apply perform_viewImpliesPhase.
Qed.

(** C4: on a manager made by [create] and taken through any sequence of
    operations, [getState()] throws the phase error, and changes
    nothing, whenever the phase is below [EditorView], which is the case
    only as long as no view has been stored; and once a view is stored,
    [getState()] returns the current state of that view; in particular
    it does so right after the [addView] that stores it. *)
Theorem getState_phase_gate `{CoreInternals} combined settings this0 operations :
  create combined settings = Return this0 ->
  (ManagerPhase.value (phase (performAll operations this0))
   < ManagerPhase.value ManagerPhase.EditorView ->
   store_view (performAll operations this0) = None
   /\ getState (performAll operations this0)
      = (Throw (RemirrorError (Some MANAGER_PHASE_ERROR)),
         performAll operations this0))
  /\ (forall view,
        store_view (performAll operations this0) = Some view ->
        getState (performAll operations this0)
        = (Return (view_state view), performAll operations this0))
  /\ (forall view,
        ManagerPhase.value (phase (performAll operations this0))
        < ManagerPhase.value ManagerPhase.EditorView ->
        store_view (snd (addView view (performAll operations this0))) = Some view
        /\ getState (snd (addView view (performAll operations this0)))
           = (Return (view_state view),
              snd (addView view (performAll operations this0)))).
Proof.
  intros Hcreate. unfold create in Hcreate.
  apply constructor_returns in Hcreate as (_ & Hphase & Hview & _).
  assert (Inv : viewImpliesPhase (performAll operations this0)).
  { apply performAll_viewImpliesPhase. intros V. now rewrite Hview in V. }
  set (this := performAll operations this0) in *.
  split; [|split].
  - intros Hlt. split.
    + destruct (store_view this) as [view|] eqn:V; [|reflexivity].
      unfold viewImpliesPhase in Inv. rewrite V in Inv.
      specialize (Inv ltac:(discriminate)). lia.
    + apply getState_early. phase_compare.
  - intros view V. rewrite getState_late.
    + now rewrite V.
    + apply Z.leb_le. apply Inv. now rewrite V.
  - intros view Hlt.
    rewrite addView_early by phase_compare.
    split; [reflexivity|]. now rewrite getState_late.
Qed.

Lemma getState_phase_gate_witness :
  getState exampleManager
  = (Throw (RemirrorError (Some MANAGER_PHASE_ERROR)), exampleManager)
  /\ getState (performAll [AddView exampleView; UpdateState nextState] exampleManager)
     = (Return nextState,
        performAll [AddView exampleView; UpdateState nextState] exampleManager).
Proof.
  split.
  - apply (getState_phase_gate exampleCombined exampleSettings exampleManager []
             create_exampleManager).
    simpl. lia.
  - destruct (getState_phase_gate exampleCombined exampleSettings exampleManager
                [AddView exampleView; UpdateState nextState]
                create_exampleManager) as (_ & Hview & _).
    apply (Hview (mkEditorView 1 nextState)). vm_compute. reflexivity.
Defined.

(** ** The constructor *)

(** C7: called with anything but the privacy symbol, the constructor
    throws the [NEW_EDITOR_MANAGER] error whatever
    [transformCombinedUnion] would do with the combined list, so a
    manager that the constructor returns was made with the symbol; and
    [create] is the constructor called with the symbol. *)
Theorem constructor_requires_privacySymbol `{CoreInternals}
  combined privacy settings :
  (privacy <> Some privacySymbol ->
   constructor combined privacy settings
   = Throw (RemirrorError (Some NEW_EDITOR_MANAGER)))
  /\ (forall this,
        constructor combined privacy settings = Return this ->
        privacy = Some privacySymbol)
  /\ create combined settings
     = constructor (combined ++ [CombinedPreset (BuiltinPreset settings)])
         (Some privacySymbol) settings.
Proof.
  split; [|split].
  - intros Hne. unfold constructor.
    now rewrite bool_decide_eq_false_2.
  - intros this Hreturn. now apply constructor_returns in Hreturn.
  - reflexivity.
Qed.

Lemma constructor_requires_privacySymbol_witness :
  @constructor exampleInternals exampleCombined None exampleSettings
  = Throw (RemirrorError (Some NEW_EDITOR_MANAGER))
  /\ @constructor throwingInternals exampleCombined (Some (Symbol 2)) exampleSettings
     = Throw (RemirrorError (Some NEW_EDITOR_MANAGER)).
Proof.
  split.
  - apply (@constructor_requires_privacySymbol exampleInternals). discriminate.
  - apply (@constructor_requires_privacySymbol throwingInternals). discriminate.
Defined.

(** ** [createDocumentNode] and [createState] *)

Lemma createDocumentNode_node `{CoreConstants} parameter node :
  content parameter = ContentNode node ->
  createDocumentNode parameter = Return node.
Proof. intros E. unfold createDocumentNode. now rewrite E. Qed.

(** With content that is not recognized and an [onError] supplied by
    the caller, [createDocumentNode] returns what the schema makes of
    [EMPTY_PARAGRAPH_NODE]: the local [onError] is the function
    returning that constant whenever the caller supplies one. *)
Lemma createDocumentNode_unrecognized `{CoreConstants} parameter supplied :
  unrecognized parameter ->
  onError parameter = Some supplied ->
  createDocumentNode parameter
  = nodeFromJSON (schema parameter) EMPTY_PARAGRAPH_NODE.
Proof.
  intros (Hjson & Hcontent) Hsupplied. unfold createDocumentNode.
  rewrite Hsupplied.
  destruct (content parameter) as [node|json|text|state]; try contradiction;
    rewrite Hjson; try rewrite Hcontent; reflexivity.
Qed.

(** C2, where the code departs from it: a string is given as content
    without a string handler, and the caller supplies a fallback
    document, as a value or through a function.  [createDocumentNode]
    returns the empty-paragraph document and not the caller's fallback,
    although [createDocumentErrorHandler], given the caller's [onError],
    would return that fallback. *)
Theorem createDocumentNode_ignores_onError :
  unrecognized unrecognizedWithFallback
  /\ createDocumentNode unrecognizedWithFallback
     = Return (PMBranch "doc" [PMBranch "paragraph" []])
  /\ createDocumentNode unrecognizedWithHandler
     = Return (PMBranch "doc" [PMBranch "paragraph" []])
  /\ createDocumentErrorHandler
       (OnErrorFallback (FallbackNode fallbackDocument)) exampleSchema
       (Some (RemirrorError None))
     = Return fallbackDocument
  /\ createDocumentErrorHandler
       (OnErrorHandler (fun _ => FallbackNode fallbackDocument)) exampleSchema
       (Some (RemirrorError None))
     = Return fallbackDocument.
Proof. repeat split. Qed.

(** C8: when the content is a document node, [createDocumentNode]
    returns that node; [createState] without a selection returns the
    state the engine creates from it, whose document is the node; with a
    selection it hands the text selection to the engine; and, the engine
    keeping the document of a state when it applies a selection, every
    state that [createState] returns has the node as its document. *)
Theorem createState_document_roundtrip
  `{DocumentEngine} `{CoreHelpers} `{CoreConstants}
  store_schema store_plugins parameter node :
  (forall state selection state',
     applySelection state selection = Return state' ->
     st_doc state' = st_doc state) ->
  content parameter = ContentNode node ->
  createDocumentNode parameter = Return node
  /\ (noSelection (selection parameter) = true ->
      createState store_schema store_plugins parameter
      = Return (EditorState_create node store_plugins))
  /\ st_doc (EditorState_create node store_plugins) = node
  /\ (forall primitive,
        selection parameter = Some primitive ->
        noSelection (Some primitive) = false ->
        createState store_schema store_plugins parameter
        = outcome_bind (getTextSelection primitive node)
            (applySelection (EditorState_create node store_plugins)))
  /\ (forall state,
        createState store_schema store_plugins parameter = Return state ->
        st_doc state = node).
Proof.
  intros Hengine Hcontent.
  assert (Hcreate :
             createState store_schema store_plugins parameter
             = match selection parameter with
               | Some primitive =>
                   if noSelection (Some primitive)
                   then Return (EditorState_create node store_plugins)
                   else
                     outcome_bind (getTextSelection primitive node)
                       (applySelection (EditorState_create node store_plugins))
               | None => Return (EditorState_create node store_plugins)
               end).
  { unfold createState.
    rewrite (createDocumentNode_node _ node) by exact Hcontent. reflexivity. }
  split; [now apply createDocumentNode_node|].
  split.
  { intros Hnone. rewrite Hcreate.
    destruct (selection parameter) as [primitive|]; [|reflexivity].
    now rewrite Hnone. }
  split; [reflexivity|].
  split.
  { intros primitive E Hsome. rewrite Hcreate, E. now rewrite Hsome. }
  intros state. rewrite Hcreate.
  destruct (selection parameter) as [primitive|].
  - destruct (noSelection (Some primitive)).
    + intros E. now injection E as <-.
    + destruct (getTextSelection primitive node) as [textSelection|error];
        simpl; [|discriminate].
      intros Happly. now rewrite (Hengine _ _ _ Happly).
  - intros E. now injection E as <-.
Qed.

Lemma exampleEngine_applySelection state selection state' :
  applySelection state selection = Return state' ->
  st_doc state' = st_doc state.
Proof.
  simpl. destruct (_ && _); [|discriminate]. intros E. now injection E as <-.
Qed.

Lemma createState_document_roundtrip_witness :
  createState exampleSchema examplePlugins documentWithSelection
  = Return (mkEditorState exampleDocument (mkSelection exampleDocument 7 7)
              examplePlugins)
  /\ forall state,
       createState exampleSchema examplePlugins documentWithSelection = Return state ->
       st_doc state = exampleDocument.
Proof.
  split; [reflexivity|].
  apply (createState_document_roundtrip exampleSchema examplePlugins
           documentWithSelection exampleDocument
           exampleEngine_applySelection eq_refl).
Defined.

(** ** The phase along a sequence of operations *)

(** Every operation leaves the phase where it is or moves it forward,
    except a state update that is the first one since the view was added
    (or since construction) and arrives in the [Destroy] phase. *)
Lemma perform_phase_monotone operation this :
  isStateUpdate operation = false
  \/ firstStateUpdate this = false
  \/ phase this <> ManagerPhase.Destroy ->
  ManagerPhase.value (phase this)
  <= ManagerPhase.value (phase (snd (perform operation this))).
Proof.
  intros Hcase.
  assert (Hupdate : forall parameter (s : RemirrorManager),
             phase s = phase this ->
             firstStateUpdate s = firstStateUpdate this ->
             firstStateUpdate this = false \/ phase this <> ManagerPhase.Destroy ->
             ManagerPhase.value (phase this)
             <= ManagerPhase.value (phase (snd (onStateUpdate parameter s)))).
  { intros parameter s Hp Hf Hc.
    destruct (onStateUpdate_lifecycle parameter s) as (E & _).
    rewrite E, Hf, Hp.
    destruct (firstStateUpdate this); [|lia].
    destruct Hc as [Hc|Hc]; [discriminate|].
    destruct (phase this); simpl; try lia. contradiction. }
  destruct operation as [view|parameter|state|]; simpl perform.
  - destruct (ManagerPhase.ge (phase this) ManagerPhase.EditorView) eqn:E.
    + rewrite addView_late by exact E. simpl. lia.
    + rewrite addView_early by exact E. simpl.
      apply Z.leb_gt in E. simpl in E. lia.
  - apply Hupdate; try reflexivity.
    destruct Hcase as [Hcase|Hcase]; [discriminate | exact Hcase].
  - rewrite updateState_unfold.
    destruct (fst (getState this)) as [previous|error]; [|simpl; lia].
    destruct (store_view this) as [view|]; [|simpl; lia].
    apply Hupdate; try reflexivity.
    destruct Hcase as [Hcase|Hcase]; [discriminate | exact Hcase].
  - rewrite destroy_unfold.
    destruct (fst (lateHandlers _ _ _)); simpl; destruct (phase this); simpl; lia.
Qed.

(** The first state update since the view was added moves a destroyed
    manager back to [Runtime]. *)
Lemma onStateUpdate_after_destroy parameter this :
  phase this = ManagerPhase.Destroy ->
  firstStateUpdate this = true ->
  phase (snd (onStateUpdate parameter this)) = ManagerPhase.Runtime.
Proof.
  intros _ Hfirst. destruct (onStateUpdate_lifecycle parameter this) as (E & _).
  now rewrite E, Hfirst.
Qed.

(** C9, where the code departs from it: on the example manager a view
    is added, the manager is destroyed, and then a state update is
    delivered.  The phase goes to [EditorView], to [Destroy], and back
    to [Runtime]: it decreases, and the manager, although destroyed, no
    longer reports [destroyed] and reports [mounted]. *)
Theorem phase_decreases_after_destroy :
  phase exampleManager = ManagerPhase.Create
  /\ phases updateAfterDestroy exampleManager
     = [ManagerPhase.EditorView; ManagerPhase.Destroy; ManagerPhase.Runtime]
  /\ ManagerPhase.value ManagerPhase.Runtime < ManagerPhase.value ManagerPhase.Destroy
  /\ destroyed (performAll updateAfterDestroy exampleManager) = false
  /\ mounted (performAll updateAfterDestroy exampleManager) = true
  /\ viewsDestroyed (trace (performAll updateAfterDestroy exampleManager))
     = [1%nat].
Proof. repeat split; vm_compute; reflexivity. Qed.

(** ** [getTextSelection] *)








(** ** Lifecycle methods touch the extension store and the trace only *)

Lemma set_extensionStore_id this :
  set_extensionStore (fun store => store) this = this.
Proof. now destruct this. Qed.

Lemma runStoreCall_touch call this :
  exists change, snd (runStoreCall call this) = set_extensionStore change this.
Proof.
  destruct call as [key value|]; unfold runStoreCall.
  - unfold setExtensionStore, assignExtensionStore, bind, gets, invariant, modify,
      ret, throw. simpl.
    destruct (ManagerPhase.le (phase this) ManagerPhase.Create); simpl;
      [|exists (fun store => store); now rewrite set_extensionStore_id].
    destruct (isReadonlyStoreKey key); simpl;
      [exists (fun store => store); now rewrite set_extensionStore_id|].
    now exists (insert key value).
  - exists (fun store => store). rewrite set_extensionStore_id.
    unfold getState, bind, gets, invariant, ret, throw. simpl.
    destruct (ManagerPhase.ge (phase this) ManagerPhase.EditorView); simpl;
      [|reflexivity].
    now destruct (store_view this).
Qed.

Lemma body_touch body this :
  exists change,
    snd (for_each body runStoreCall this) = set_extensionStore change this.
Proof.
  revert this. induction body as [|call rest IH]; intros this.
  - exists (fun store => store). now rewrite set_extensionStore_id.
  - simpl. unfold bind.
    destruct (runStoreCall_touch call this) as (change1 & H1).
    destruct (runStoreCall call this) as [[[]|error] this1]; simpl in *.
    + destruct (IH this1) as (change2 & H2). rewrite H2, H1.
      now exists (fun store => change2 (change1 store)).
    + now exists change1.
Qed.

Lemma callHandlers_touch called registered this :
  exists change events,
    snd (for_each registered (callHandler called) this)
    = record_events events (set_extensionStore change this).
Proof.
  revert this. induction registered as [|handler rest IH]; intros this.
  - exists (fun store => store), []. simpl.
    now rewrite set_extensionStore_id, record_events_nil.
  - simpl. unfold bind at 1. unfold callHandler at 1. unfold bind at 1, modify at 1.
    destruct (body_touch (handler_body handler)
                (record_events [called (handler_this handler)] this))
      as (change1 & H1).
    destruct (for_each (handler_body handler) runStoreCall
                (record_events [called (handler_this handler)] this))
      as [[[]|error] this1]; simpl in *.
    + destruct (IH this1) as (change2 & events2 & H2). rewrite H2, H1.
      exists (fun store => change2 (change1 store)),
        (called (handler_this handler) :: events2).
      unfold record_events, set_extensionStore. simpl.
      now rewrite <- app_assoc.
    + rewrite H1. now exists change1, [called (handler_this handler)].
Qed.

(** ** Construction *)

Lemma setupExtension_fold extensions : forall h nodeNames markNames plainNames,
  foldl setupExtension (h, (nodeNames, markNames, plainNames)) extensions
  = (mkHandlers
       (create_handlers h ++ boundHandlers extension_onCreate extensions)
       (view_handlers h ++ boundHandlers extension_onView extensions)
       (update_handlers h ++ boundHandlers extension_onStateUpdate extensions)
       (destroy_handlers h ++ boundHandlers extension_onDestroy extensions),
     (nodeNames ++ namesOfKind NodeExtension extensions,
      markNames ++ namesOfKind MarkExtension extensions,
      plainNames ++ namesOfKind PlainExtension extensions))%list.
Proof.
  induction extensions as [|extension rest IH]; intros h nodeNames markNames plainNames.
  - simpl. rewrite !app_nil_r. now destruct h.
  - simpl foldl. unfold setupExtension at 1. rewrite IH. simpl.
    unfold boundHandlers, namesOfKind, pushHandler, pushName,
      isNodeExtension, isMarkExtension, isPlainExtension. simpl.
    destruct (extension_onCreate extension), (extension_onView extension),
      (extension_onStateUpdate extension), (extension_onDestroy extension);
      destruct (extension_kind extension); simpl;
      rewrite <- ?app_assoc; reflexivity.
Qed.

Lemma body_early body : forall this,
  ManagerPhase.le (phase this) ManagerPhase.Create = true ->
  writesOnly body = true ->
  for_each body runStoreCall this
  = (Return tt, set_extensionStore (writeAll body) this).
Proof.
  induction body as [|[key value|] rest IH]; intros this Hphase Hbody.
  - simpl. unfold ret. now rewrite set_extensionStore_id.
  - simpl in Hbody. apply andb_prop in Hbody as [Hkey Hrest].
    apply negb_true_iff in Hkey.
    simpl for_each. unfold bind, runStoreCall.
    rewrite setExtensionStore_early by exact Hphase.
    unfold assignExtensionStore. rewrite Hkey. unfold modify.
    rewrite IH by assumption. reflexivity.
  - discriminate.
Qed.

Lemma body_early_throws body : forall this,
  ManagerPhase.le (phase this) ManagerPhase.Create = true ->
  ManagerPhase.ge (phase this) ManagerPhase.EditorView = false ->
  writesOnly body = false ->
  exists error,
    fst (for_each body runStoreCall this) = Throw error
    /\ (error = TypeError \/ error = RemirrorError (Some MANAGER_PHASE_ERROR)).
Proof.
  induction body as [|[key value|] rest IH]; intros this Hle Hge Hbody.
  - discriminate.
  - simpl in Hbody. simpl for_each. unfold bind, runStoreCall.
    rewrite setExtensionStore_early by exact Hle.
    unfold assignExtensionStore.
    destruct (isReadonlyStoreKey key) eqn:Hkey.
    + exists TypeError. split; [reflexivity | now left].
    + unfold modify. simpl in Hbody. now apply IH.
  - simpl for_each. unfold bind, runStoreCall, bind.
    rewrite getState_early by exact Hge.
    eexists. split; [reflexivity | now right].
Qed.

Lemma callHandlers_early called registered : forall this,
  ManagerPhase.le (phase this) ManagerPhase.Create = true ->
  allWriteOnly registered = true ->
  for_each registered (callHandler called) this
  = (Return tt,
     record_events (map (fun handler => called (handler_this handler)) registered)
       (set_extensionStore (writeAllHandlers registered) this)).
Proof.
  induction registered as [|handler rest IH]; intros this Hphase Hall.
  - simpl. unfold ret. now rewrite set_extensionStore_id, record_events_nil.
  - simpl in Hall. apply andb_prop in Hall as [Hbody Hrest].
    simpl for_each. unfold bind at 1, callHandler at 1.
    unfold bind at 1, modify at 1.
    rewrite body_early by assumption.
    rewrite IH by assumption.
    unfold record_events, set_extensionStore. simpl.
    now rewrite <- app_assoc.
Qed.

Lemma callHandlers_early_throws called registered : forall this,
  ManagerPhase.le (phase this) ManagerPhase.Create = true ->
  ManagerPhase.ge (phase this) ManagerPhase.EditorView = false ->
  allWriteOnly registered = false ->
  exists error,
    fst (for_each registered (callHandler called) this) = Throw error
    /\ (error = TypeError \/ error = RemirrorError (Some MANAGER_PHASE_ERROR)).
Proof.
  induction registered as [|handler rest IH]; intros this Hle Hge Hall.
  - discriminate.
  - simpl in Hall. simpl for_each. unfold bind at 1, callHandler at 1.
    unfold bind at 1, modify at 1.
    destruct (writesOnly (handler_body handler)) eqn:Hbody.
    + rewrite body_early by assumption. simpl in Hall. now apply IH.
    + destruct (body_early_throws (handler_body handler)
                  (record_events [called (handler_this handler)] this)
                  Hle Hge Hbody) as (error & Hthrow & Herror).
      destruct (for_each (handler_body handler) runStoreCall _)
        as [[[]|error'] this1]; simpl in Hthrow; [discriminate|].
      injection Hthrow as ->. now exists error.
Qed.

(** The manager that the constructor is about to hand to the [onCreate]
    handlers. *)
Lemma constructor_unfold `{CoreInternals} combined settings extensions presets :
  transformCombinedUnion combined settings = Return (extensions, presets) ->
  constructor combined (Some privacySymbol) settings
  = match
      for_each (boundHandlers extension_onCreate extensions)
        (callHandler CreateHandlerCalled)
        (mkRemirrorManager (storeWithNames extensions) extensions presets None
           ManagerPhase.Create settings combined true
           (mkHandlers
              (boundHandlers extension_onCreate extensions)
              (boundHandlers extension_onView extensions)
              (boundHandlers extension_onStateUpdate extensions)
              (boundHandlers extension_onDestroy extensions))
           [])
    with
    | (Return _, this) => Return this
    | (Throw error, _) => Throw error
    end.
Proof.
  intros Htransform. unfold constructor.
  rewrite bool_decide_eq_true_2 by reflexivity. simpl negb. cbv iota.
  rewrite Htransform. unfold setupLifecycleHandlers. simpl.
  rewrite setupExtension_fold. reflexivity.
Qed.

(** X2: construction is all or nothing.  When [transformCombinedUnion]
    has resolved the units, the constructor returns a manager exactly
    when every [onCreate] only calls [setExtensionStore] with writable
    keys; an [onCreate] that calls [getState] or writes a read-only key
    makes the constructor throw (the phase error or a [TypeError]), and
    no manager comes into being. *)
Theorem constructor_all_or_nothing `{CoreInternals}
  combined settings extensions presets :
  transformCombinedUnion combined settings = Return (extensions, presets) ->
  (allWriteOnly (boundHandlers extension_onCreate extensions) = true ->
   exists this, constructor combined (Some privacySymbol) settings = Return this)
  /\ (allWriteOnly (boundHandlers extension_onCreate extensions) = false ->
      exists error,
        constructor combined (Some privacySymbol) settings = Throw error
        /\ (error = TypeError
            \/ error = RemirrorError (Some MANAGER_PHASE_ERROR))).
Proof.
  intros Htransform. rewrite (constructor_unfold _ _ _ _ Htransform). split.
  - intros Hall. rewrite callHandlers_early by (reflexivity || exact Hall).
    eexists. reflexivity.
  - intros Hall.
    match goal with
    | |- context [for_each ?hs ?f ?s] =>
        destruct (callHandlers_early_throws CreateHandlerCalled hs s
                    eq_refl eq_refl Hall) as (error & Hthrow & Herror);
        destruct (for_each hs f s) as [[[]|error'] this1]
    end; simpl in Hthrow; [discriminate|].
    injection Hthrow as ->. now exists error.
Qed.

Lemma constructor_all_or_nothing_witness :
  (exists this,
     constructor (exampleCombined ++ [CombinedPreset (BuiltinPreset exampleSettings)])
       (Some privacySymbol) exampleSettings = Return this)
  /\ exists error,
       constructor [CombinedExtension paragraphExtension;
                    CombinedExtension eagerExtension]
         (Some privacySymbol) exampleSettings = Throw error
       /\ (error = TypeError
           \/ error = RemirrorError (Some MANAGER_PHASE_ERROR)).
Proof.
  split.
  - eapply (constructor_all_or_nothing
              (exampleCombined ++ [CombinedPreset (BuiltinPreset exampleSettings)])
              exampleSettings
              [paragraphExtension; italicExtension; tagsExtension]
              [mkPreset "builtin" [tagsExtension]]);
      vm_compute; reflexivity.
  - eapply (constructor_all_or_nothing
              [CombinedExtension paragraphExtension; CombinedExtension eagerExtension]
              exampleSettings [paragraphExtension; eagerExtension] []);
      vm_compute; reflexivity.
Defined.

(** X1: a manager that the constructor returns is in the [Create] phase
    without a view; it keeps the combined list and the settings it was
    given; its four lists of handlers hold the lifecycle methods that
    its extensions define, each list in the order of the extensions;
    its trace is one call to every [onCreate] handler in that order; and
    its extension store holds the three lists of names, by kind and in
    the order of the extensions, overwritten by what the [onCreate]
    handlers have set. *)
Theorem constructor_registers_handlers `{CoreInternals}
  units privacy options this :
  constructor units privacy options = Return this ->
  phase this = ManagerPhase.Create
  /\ store_view this = None
  /\ combined this = units
  /\ settings this = options
  /\ handlers this
     = mkHandlers
         (boundHandlers extension_onCreate (extensions this))
         (boundHandlers extension_onView (extensions this))
         (boundHandlers extension_onStateUpdate (extensions this))
         (boundHandlers extension_onDestroy (extensions this))
  /\ trace this
     = map (fun handler => CreateHandlerCalled (handler_this handler))
         (boundHandlers extension_onCreate (extensions this))
  /\ extensionStore this
     = writeAllHandlers (boundHandlers extension_onCreate (extensions this))
         (storeWithNames (extensions this)).
Proof.
  intros Hreturn.
  destruct (constructor_returns _ _ _ _ Hreturn) as (-> & _).
  destruct (transformCombinedUnion units options) as [[exts pres]|error] eqn:Ht.
  2:{ unfold constructor in Hreturn.
      rewrite bool_decide_eq_true_2, Ht in Hreturn by reflexivity. discriminate. }
  rewrite (constructor_unfold _ _ _ _ Ht) in Hreturn.
  destruct (allWriteOnly (boundHandlers extension_onCreate exts)) eqn:Hall.
  - rewrite callHandlers_early in Hreturn by (reflexivity || exact Hall).
    injection Hreturn as <-. repeat split.
  - match type of Hreturn with
    | context [for_each ?hs ?f ?s] =>
        destruct (callHandlers_early_throws CreateHandlerCalled hs s
                    eq_refl eq_refl Hall) as (error & Hthrow & _);
        destruct (for_each hs f s) as [[[]|error'] this1]
    end; simpl in Hthrow; discriminate.
Qed.

Lemma constructor_registers_handlers_witness :
  view_handlers (handlers exampleManager) = [mkHandler "paragraph" [CallGetState]]
  /\ update_handlers (handlers exampleManager)
     = [mkHandler "paragraph" [CallGetState]; mkHandler "italic" []]
  /\ trace exampleManager = [CreateHandlerCalled "tags"].
Proof.
  destruct (constructor_registers_handlers
              (exampleCombined ++ [CombinedPreset (BuiltinPreset exampleSettings)])
              (Some privacySymbol) exampleSettings exampleManager
              create_exampleManager)
    as (_ & _ & _ & _ & Hhandlers & Htrace & _).
  rewrite Hhandlers, Htrace. repeat split.
Defined.

(** ** [clone] and [recreate] *)

Lemma create_keeps `{CoreInternals} units options this :
  create units options = Return this ->
  phase this = ManagerPhase.Create
  /\ store_view this = None
  /\ firstStateUpdate this = true
  /\ combined this = (units ++ [CombinedPreset (BuiltinPreset options)])%list
  /\ settings this = options.
Proof.
  intros Hcreate. unfold create in Hcreate.
  destruct (constructor_returns _ _ _ _ Hcreate) as (_ & Hp & Hv & Hf).
  destruct (constructor_registers_handlers _ _ _ _ Hcreate)
    as (_ & _ & Hc & Hs & _).
  repeat split; assumption.
Qed.

(** X3: whatever the phase of a manager and whether or not it has a
    view, a manager that [clone()] returns is in the [Create] phase and
    has no view, has the settings of the original, and was made from
    the clones of the combined list of the original followed by one more
    built-in preset: if the original was made by [create] from some
    units, its combined list already ends with a built-in preset, so the
    clone has been given the clone of that preset and a new one. *)
Theorem clone_is_fresh `{CoreInternals} `{UnitInternals} this this' :
  clone this = Return this' ->
  phase this' = ManagerPhase.Create
  /\ store_view this' = None
  /\ firstStateUpdate this' = true
  /\ settings this' = settings this
  /\ combined this'
     = (map cloneWithOptions (combined this)
        ++ [CombinedPreset (BuiltinPreset (settings this))])%list
  /\ length (combined this') = S (length (combined this))
  /\ (forall units options,
        create units options = Return this ->
        combined this'
        = (map cloneWithOptions units
           ++ [cloneWithOptions (CombinedPreset (BuiltinPreset options));
               CombinedPreset (BuiltinPreset options)])%list).
Proof.
  intros Hclone. unfold clone in Hclone.
  destruct (create_keeps _ _ _ Hclone) as (Hp & Hv & Hf & Hc & Hs).
  split; [exact Hp|]. split; [exact Hv|]. split; [exact Hf|].
  split; [exact Hs|]. split; [exact Hc|]. split.
  - rewrite Hc, length_app, length_map. simpl. lia.
  - intros units options Hcreate.
    destruct (create_keeps _ _ _ Hcreate) as (_ & _ & _ & Hc0 & Hs0).
    rewrite Hc, Hc0, Hs0, map_app, <- app_assoc. reflexivity.
Qed.

Lemma clone_is_fresh_witness :
  exists this',
    clone (snd (destroy mountedManager)) = Return this'
    /\ phase this' = ManagerPhase.Create
    /\ store_view this' = None
    /\ length (combined this') = 4%nat.
Proof.
  eexists. split; [vm_compute; reflexivity|].
  match goal with
  | |- phase ?m = _ /\ _ =>
      destruct (clone_is_fresh (snd (destroy mountedManager)) m)
        as (Hp & Hv & _ & _ & _ & Hlen & _); [vm_compute; reflexivity|]
  end.
  split; [exact Hp|]. split; [exact Hv|]. exact Hlen.
Defined.

(** X4: a manager that [recreate(extra, settings)] returns is in the
    [Create] phase without a view, has the new settings and not those of
    the original, and was made from the clones (with their initial
    options) of the combined list of the original, then the extra
    units, then one more built-in preset. *)
Theorem recreate_is_fresh `{CoreInternals} `{UnitInternals}
  this extraCombined newSettings this' :
  recreate this extraCombined newSettings = Return this' ->
  phase this' = ManagerPhase.Create
  /\ store_view this' = None
  /\ settings this' = newSettings
  /\ combined this'
     = (map cloneWithInitialOptions (combined this) ++ extraCombined
        ++ [CombinedPreset (BuiltinPreset newSettings)])%list
  /\ length (combined this')
     = S (length (combined this) + length extraCombined).
Proof.
  intros Hrecreate. unfold recreate in Hrecreate.
  destruct (create_keeps _ _ _ Hrecreate) as (Hp & Hv & _ & Hc & Hs).
  split; [exact Hp|]. split; [exact Hv|]. split; [exact Hs|].
  rewrite <- app_assoc in Hc. split; [exact Hc|].
  rewrite Hc, !length_app, length_map. simpl. lia.
Qed.

Lemma recreate_is_fresh_witness :
  exists this',
    recreate mountedManager [CombinedExtension lateExtension] exampleSettings
    = Return this'
    /\ store_view this' = None
    /\ length (combined this') = 5%nat.
Proof.
  eexists. split; [vm_compute; reflexivity|].
  match goal with
  | |- store_view ?m = _ /\ _ =>
      destruct (recreate_is_fresh mountedManager
                  [CombinedExtension lateExtension] exampleSettings m)
        as (_ & Hv & _ & _ & Hlen); [vm_compute; reflexivity|]
  end.
  split; [exact Hv | exact Hlen].
Defined.

(** ** [updateState] *)

(** X5: on a manager that has a view and whose [onStateUpdate] handlers
    do not call [setExtensionStore], [updateState(state)] returns; it
    puts the state in the view first and then delivers the update, with
    the state the view had before as [previousState]; afterwards
    [getState()] returns the new state and the extension store holds the
    two snapshots. *)
Theorem updateState_then_getState this view state :
  store_view this = Some view ->
  ManagerPhase.value ManagerPhase.EditorView <= ManagerPhase.value (phase this) ->
  withoutSetExtensionStore (update_handlers (handlers this)) = true ->
  exists this',
    updateState state this = (Return tt, this')
    /\ getState this' = (Return state, this')
    /\ store_view this' = Some (mkEditorView (view_id view) state)
    /\ trace this'
       = (trace this
          ++ ViewStateUpdated (view_id view) state
             :: updateEvents (update_handlers (handlers this))
                  (firstStateUpdate this)
                  (mkStateUpdateParameter (view_state view) state))%list
    /\ extensionStore this' !! "currentState" = Some (StateValue state)
    /\ extensionStore this' !! "previousState"
       = Some (StateValue (view_state view)).
Proof.
  intros Hview Hphase Hquiet.
  assert (Hge : ManagerPhase.ge (phase this) ManagerPhase.EditorView = true)
    by phase_compare.
  rewrite updateState_unfold, getState_late, Hview by exact Hge. simpl.
  rewrite onStateUpdate_run.
  - eexists. split; [reflexivity|].
    split.
    { rewrite getState_late.
      - simpl. now rewrite beforeUpdateHandlers_view.
      - simpl. rewrite beforeUpdateHandlers_phase. simpl.
        destruct (firstStateUpdate this); [reflexivity | exact Hge]. }
    split; [simpl; now rewrite beforeUpdateHandlers_view|].
    split.
    { simpl. rewrite beforeUpdateHandlers_trace. simpl.
      now rewrite <- app_assoc. }
    simpl. apply (beforeUpdateHandlers_store
                    (mkStateUpdateParameter (view_state view) state)).
  - reflexivity.
  - right. simpl. now apply phase_ge_late.
  - exact Hquiet.
Qed.

Lemma updateState_then_getState_witness :
  exists this',
    updateState nextState mountedManager = (Return tt, this')
    /\ getState this' = (Return nextState, this')
    /\ extensionStore this' !! "previousState" = Some (StateValue exampleState).
Proof.
  destruct (updateState_then_getState mountedManager exampleView nextState)
    as (this' & Hrun & Hget & _ & _ & _ & Hprevious);
    [reflexivity | simpl; lia | reflexivity |].
  exists this'. repeat split; assumption.
Defined.

(** ** A manager that is past [Create] without a view *)

(** X6: [onStateUpdate] and [destroy] are not gated on the phase.  On a
    manager that has no view they still move the phase to [Runtime] and
    to [Destroy]; and a manager that is at [EditorView] or beyond
    without a view never gets one: whatever operations follow, every
    [addView] is ignored, [updateState] changes nothing, and
    [getState()] throws a [TypeError]. *)
Theorem no_view_after_early_update this operations :
  store_view this = None ->
  (forall parameter,
     firstStateUpdate this = true ->
     phase (snd (onStateUpdate parameter this)) = ManagerPhase.Runtime
     /\ store_view (snd (onStateUpdate parameter this)) = None)
  /\ (phase (snd (destroy this)) = ManagerPhase.Destroy
      /\ store_view (snd (destroy this)) = None)
  /\ (ManagerPhase.value ManagerPhase.EditorView <= ManagerPhase.value (phase this) ->
      store_view (performAll operations this) = None
      /\ getState (performAll operations this)
         = (Throw TypeError, performAll operations this)
      /\ forall view,
           addView view (performAll operations this)
           = (Return tt, performAll operations this)).
Proof.
  intros Hview. split; [|split].
  - intros parameter Hfirst.
    destruct (onStateUpdate_lifecycle parameter this) as (Hp & Hv & _).
    now rewrite Hp, Hv, Hfirst.
  - rewrite destroy_unfold. destruct (fst (lateHandlers _ _ _)); now simpl.
  - intros Hphase.
    assert (Hinv : store_view (performAll operations this) = None
                   /\ ManagerPhase.ge (phase (performAll operations this))
                        ManagerPhase.EditorView = true).
    { assert (Hge : ManagerPhase.ge (phase this) ManagerPhase.EditorView = true)
        by phase_compare.
      clear Hphase. revert this Hview Hge.
      induction operations as [|operation rest IH]; intros this Hview Hge;
        [now split|].
      simpl. apply IH.
      - destruct operation as [view|parameter|state|]; simpl perform.
        + now rewrite addView_late.
        + destruct (onStateUpdate_lifecycle parameter this) as (_ & Hv & _).
          now rewrite Hv.
        + rewrite updateState_unfold, getState_late, Hview by exact Hge.
          simpl. exact Hview.
        + rewrite destroy_unfold. destruct (fst (lateHandlers _ _ _)); now simpl.
      - destruct operation as [view|parameter|state|]; simpl perform.
        + now rewrite addView_late.
        + destruct (onStateUpdate_lifecycle parameter this) as (Hp & _).
          rewrite Hp. destruct (firstStateUpdate this); [reflexivity | exact Hge].
        + rewrite updateState_unfold, getState_late, Hview by exact Hge.
          simpl. exact Hge.
        + rewrite destroy_unfold. destruct (fst (lateHandlers _ _ _)); now simpl. }
    destruct Hinv as (Hv & Hge). split; [exact Hv|]. split.
    + rewrite getState_late by exact Hge. now rewrite Hv.
    + intros view. now apply addView_late.
Qed.

Lemma no_view_after_early_update_witness :
  let this :=
    performAll
      [OnStateUpdate (mkStateUpdateParameter exampleState nextState);
       AddView exampleView; UpdateState nextState]
      exampleManager in
  store_view this = None /\ getState this = (Throw TypeError, this).
Proof.
  destruct (no_view_after_early_update
              (snd (onStateUpdate (mkStateUpdateParameter exampleState nextState)
                      exampleManager))
              [AddView exampleView; UpdateState nextState])
    as (_ & _ & H); [reflexivity|].
  destruct H as (Hv & Hget & _); [simpl; lia|].
  split; [exact Hv | exact Hget].
Defined.

(** ** When a handler calls [setExtensionStore] after [Create] *)

Lemma lateBodyOutcome_setExtensionStore body :
  callsSetExtensionStore body = true ->
  lateBodyOutcome true body = Throw (RemirrorError (Some MANAGER_PHASE_ERROR)).
Proof.
  induction body as [|[key value|] rest IH]; simpl; intros H;
    [discriminate | reflexivity | exact (IH H)].
Qed.

Lemma lateHandlers_first_setExtensionStore called before handler after :
  withoutSetExtensionStore before = true ->
  callsSetExtensionStore (handler_body handler) = true ->
  lateHandlers called true (before ++ handler :: after)
  = (Throw (RemirrorError (Some MANAGER_PHASE_ERROR)),
     map (fun registered => called (handler_this registered)) (before ++ [handler])).
Proof.
  intros Hbefore Hcalls. induction before as [|first rest IH]; simpl.
  - now rewrite lateBodyOutcome_setExtensionStore.
  - apply andb_prop in Hbefore as [Hfirst Hrest].
    rewrite lateBodyOutcome_view by now apply negb_true_iff.
    now rewrite (IH Hrest).
Qed.

Lemma destroyHandlerCalls_app first second :
  destroyHandlerCalls (first ++ second)
  = (destroyHandlerCalls first ++ destroyHandlerCalls second)%list.
Proof. unfold destroyHandlerCalls. apply omap_app. Qed.

Lemma viewsDestroyed_app first second :
  viewsDestroyed (first ++ second) = (viewsDestroyed first ++ viewsDestroyed second)%list.
Proof. unfold viewsDestroyed. apply omap_app. Qed.

Lemma pluginEvents_only plugins :
  let events :=
    omap (fun plugin => match plugin_state plugin with
                        | Some true => Some (PluginStateDestroyed (plugin_key plugin))
                        | _ => None
                        end) plugins in
  destroyHandlerCalls events = []
  /\ viewsDestroyed events = []
  /\ DestroyEmitted ∉ events.
Proof.
  induction plugins as [|plugin rest (Hcalls & Hviews & Hemit)]; simpl.
  - repeat split. apply not_elem_of_nil.
  - destruct (plugin_state plugin) as [[]|]; simpl; try now repeat split.
    repeat split; [exact Hcalls | exact Hviews |].
    apply not_elem_of_cons. split; [discriminate | exact Hemit].
Qed.

Lemma handlerEvents_only registered :
  let events :=
    map (fun handler => DestroyHandlerCalled (handler_this handler)) registered in
  destroyHandlerCalls events = map handler_this registered
  /\ viewsDestroyed events = []
  /\ DestroyEmitted ∉ events.
Proof.
  induction registered as [|handler rest (Hcalls & Hviews & Hemit)]; simpl.
  - repeat split. apply not_elem_of_nil.
  - repeat split.
    + unfold destroyHandlerCalls in *. simpl. now f_equal.
    + exact Hviews.
    + apply not_elem_of_cons. split; [discriminate | exact Hemit].
Qed.

(** X7: an [onView] handler that calls [setExtensionStore], the
    handlers before it returning, makes the first [addView] throw the
    phase error, for the phase is [EditorView] by the time the handlers
    run.  The view is stored all the same; the handlers up to and
    including that one have been called, in order; and because every
    later [addView] does nothing, the [onView] handlers after it are
    never called. *)
Theorem addView_handler_throws this view before handler after :
  ManagerPhase.value (phase this) < ManagerPhase.value ManagerPhase.EditorView ->
  view_handlers (handlers this) = (before ++ handler :: after)%list ->
  withoutSetExtensionStore before = true ->
  callsSetExtensionStore (handler_body handler) = true ->
  exists this',
    addView view this = (Throw (RemirrorError (Some MANAGER_PHASE_ERROR)), this')
    /\ store_view this' = Some view
    /\ phase this' = ManagerPhase.EditorView
    /\ trace this'
       = (trace this
          ++ map (fun registered => ViewHandlerCalled (handler_this registered) view)
               (before ++ [handler]))%list
    /\ forall views, performAll (map AddView views) this' = this'.
Proof.
  intros Hphase Hhandlers Hbefore Hcalls.
  rewrite addView_early by phase_compare. rewrite Hhandlers.
  rewrite (lateHandlers_first_setExtensionStore _ before handler after Hbefore Hcalls).
  eexists. split; [reflexivity|].
  split; [reflexivity|]. split; [reflexivity|]. split; [reflexivity|].
  intros views. now apply performAll_addView_late.
Qed.

Lemma addView_handler_throws_witness :
  exists this',
    addView exampleView lateManager
    = (Throw (RemirrorError (Some MANAGER_PHASE_ERROR)), this')
    /\ store_view this' = Some exampleView
    /\ trace this'
       = [CreateHandlerCalled "tags"; ViewHandlerCalled "paragraph" exampleView;
          ViewHandlerCalled "late" exampleView]
    /\ performAll [AddView otherView; AddView exampleView] this' = this'.
Proof.
  destruct (addView_handler_throws lateManager exampleView
              [mkHandler "paragraph" [CallGetState]]
              (mkHandler "late" [CallSetExtensionStore "late" (CustomValue "value")])
              [])
    as (this' & Hthrow & Hview & _ & Htrace & Hnoop);
    [simpl; lia | reflexivity | reflexivity | reflexivity |].
  exists this'. split; [exact Hthrow|]. split; [exact Hview|].
  split; [exact Htrace | exact (Hnoop [otherView; exampleView])].
Defined.

(** X8: on a manager with a view, an [onDestroy] handler that calls
    [setExtensionStore], the handlers before it returning, makes
    [destroy()] throw the phase error, for the phase is [Destroy] by
    the time the handlers run.  [destroy()] has then destroyed the
    plugin states and called the handlers up to and including that
    one, but it has not called [view.destroy()] and has not emitted
    [destroy]: the manager is [destroyed] and still holds its view,
    which has not been destroyed. *)
Theorem destroy_handler_throws this view before handler after :
  store_view this = Some view ->
  destroy_handlers (handlers this) = (before ++ handler :: after)%list ->
  withoutSetExtensionStore before = true ->
  callsSetExtensionStore (handler_body handler) = true ->
  exists this' called,
    destroy this = (Throw (RemirrorError (Some MANAGER_PHASE_ERROR)), this')
    /\ phase this' = ManagerPhase.Destroy
    /\ destroyed this' = true
    /\ store_view this' = Some view
    /\ trace this' = (trace this ++ called)%list
    /\ destroyHandlerCalls called = map handler_this (before ++ [handler])
    /\ viewsDestroyed called = []
    /\ DestroyEmitted ∉ called.
Proof.
  intros Hview Hhandlers Hbefore Hcalls.
  rewrite destroy_unfold. unfold hasView. rewrite Hview, Hhandlers.
  rewrite (lateHandlers_first_setExtensionStore _ before handler after Hbefore Hcalls).
  cbn [fst snd].
  destruct (pluginEvents_only (st_plugins (view_state view)))
    as (Hpcalls & Hpviews & Hpemit).
  destruct (handlerEvents_only (before ++ [handler])) as (Hhcalls & Hhviews & Hhemit).
  eexists. eexists. split; [reflexivity|].
  split; [reflexivity|]. split; [reflexivity|]. split; [exact Hview|].
  split; [reflexivity|]. split; [|split].
  - now rewrite destroyHandlerCalls_app, Hpcalls, Hhcalls.
  - now rewrite viewsDestroyed_app, Hpviews, Hhviews.
  - intros Hin. apply elem_of_app in Hin as [Hin|Hin]; contradiction.
Qed.

Lemma destroy_handler_throws_witness :
  exists this',
    destroy eraserManager = (Throw (RemirrorError (Some MANAGER_PHASE_ERROR)), this')
    /\ destroyed this' = true
    /\ store_view this' = Some exampleView
    /\ viewsDestroyed (trace this') = [].
Proof.
  destruct (destroy_handler_throws eraserManager exampleView
              [mkHandler "paragraph" []]
              (mkHandler "eraser" [CallSetExtensionStore "erased" (CustomValue "yes")])
              [mkHandler "italic" [CallGetState]])
    as (this' & called & Hthrow & _ & Hdestroyed & Hview & Htrace & _ & Hviews & _);
    [reflexivity | reflexivity | reflexivity | reflexivity |].
  exists this'. split; [exact Hthrow|]. split; [exact Hdestroyed|].
  split; [exact Hview|].
  rewrite Htrace, viewsDestroyed_app, Hviews. reflexivity.
Defined.

(** ** The phase once a state update has been delivered *)

Lemma perform_firstStateUpdate operation this :
  firstStateUpdate this = false ->
  ManagerPhase.ge (phase this) ManagerPhase.EditorView = true ->
  firstStateUpdate (snd (perform operation this)) = false.
Proof.
  intros Hfirst Hge. destruct operation as [view|parameter|state|]; simpl perform.
  - now rewrite addView_late.
  - now destruct (onStateUpdate_lifecycle parameter this) as (_ & _ & Hf & _).
  - rewrite updateState_unfold.
    destruct (fst (getState this)); [|exact Hfirst].
    destruct (store_view this); [|exact Hfirst].
    match goal with
    | |- context [onStateUpdate ?p ?s] =>
        now destruct (onStateUpdate_lifecycle p s) as (_ & _ & Hf & _)
    end.
  - rewrite destroy_unfold. destruct (fst (lateHandlers _ _ _)); exact Hfirst.
Qed.

Lemma phases_sorted operations : forall this,
  firstStateUpdate this = false ->
  ManagerPhase.ge (phase this) ManagerPhase.EditorView = true ->
  Sorted (fun a b => ManagerPhase.value a <= ManagerPhase.value b)
    (phase this :: phases operations this).
Proof.
  induction operations as [|operation rest IH]; intros this Hfirst Hge.
  - repeat constructor.
  - simpl phases.
    pose proof (perform_phase_monotone operation this
                  (or_intror (or_introl Hfirst))) as Hstep.
    constructor.
    + apply IH.
      * now apply perform_firstStateUpdate.
      * apply Z.leb_le. apply Z.leb_le in Hge. simpl in *. lia.
    + constructor. exact Hstep.
Qed.

Lemma perform_first_implies_phase operation this :
  (firstStateUpdate this = false ->
   ManagerPhase.ge (phase this) ManagerPhase.EditorView = true) ->
  firstStateUpdate (snd (perform operation this)) = false ->
  ManagerPhase.ge (phase (snd (perform operation this))) ManagerPhase.EditorView = true.
Proof.
  intros Inv. destruct operation as [view|parameter|state|]; simpl perform.
  - destruct (ManagerPhase.ge (phase this) ManagerPhase.EditorView) eqn:E.
    + rewrite addView_late by exact E. intros _. exact E.
    + rewrite addView_early by exact E. reflexivity.
  - destruct (onStateUpdate_lifecycle parameter this) as (Hp & _).
    rewrite Hp. intros _. destruct (firstStateUpdate this); [reflexivity|].
    now apply Inv.
  - rewrite updateState_unfold.
    destruct (ManagerPhase.ge (phase this) ManagerPhase.EditorView) eqn:E.
    + rewrite getState_late by exact E.
      destruct (store_view this) as [view|]; simpl; [|intros _; exact E].
      match goal with
      | |- context [onStateUpdate ?p ?s] =>
          destruct (onStateUpdate_lifecycle p s) as (Hp & _)
      end.
      rewrite Hp. simpl. intros _. now destruct (firstStateUpdate this).
    + rewrite getState_early by exact E. simpl. intros Hf.
      specialize (Inv Hf). discriminate.
  - rewrite destroy_unfold. destruct (fst (lateHandlers _ _ _)); reflexivity.
Qed.

(** X9: on a manager made by [create], once a state update has been
    delivered (after any operations), the phase never decreases again:
    along every further sequence of [addView], state updates and
    [destroy] the phases are in non-decreasing order.  (A decrease
    needs a [destroy] that comes before the first state update.) *)
Theorem phase_monotone_after_update `{CoreInternals}
  units options this0 before parameter after :
  create units options = Return this0 ->
  Sorted (fun a b => ManagerPhase.value a <= ManagerPhase.value b)
    (phase (snd (onStateUpdate parameter (performAll before this0)))
     :: phases after (snd (onStateUpdate parameter (performAll before this0)))).
Proof.
  intros Hcreate.
  destruct (create_keeps _ _ _ Hcreate) as (_ & _ & Hfirst & _).
  assert (Inv : firstStateUpdate (performAll before this0) = false ->
                ManagerPhase.ge (phase (performAll before this0))
                  ManagerPhase.EditorView = true).
  { assert (Inv0 : firstStateUpdate this0 = false ->
                   ManagerPhase.ge (phase this0) ManagerPhase.EditorView = true)
      by (rewrite Hfirst; discriminate).
    clear Hfirst Hcreate. revert this0 Inv0.
    induction before as [|operation rest IH]; intros this0 Inv0; [exact Inv0|].
    simpl. apply IH. now apply perform_first_implies_phase. }
  destruct (onStateUpdate_lifecycle parameter (performAll before this0))
    as (Hp & _ & Hf & _).
  apply phases_sorted; [exact Hf|].
  rewrite Hp. destruct (firstStateUpdate (performAll before this0));
    [reflexivity | now apply Inv].
Qed.

Lemma phase_monotone_after_update_witness :
  Sorted (fun a b => ManagerPhase.value a <= ManagerPhase.value b)
    (phase (snd (onStateUpdate (mkStateUpdateParameter exampleState nextState)
                   (performAll [AddView exampleView] exampleManager)))
     :: phases
          [Destroy; OnStateUpdate (mkStateUpdateParameter nextState exampleState);
           AddView otherView]
          (snd (onStateUpdate (mkStateUpdateParameter exampleState nextState)
                  (performAll [AddView exampleView] exampleManager)))).
Proof.
  apply (phase_monotone_after_update exampleCombined exampleSettings exampleManager
           [AddView exampleView]).
  exact create_exampleManager.
Defined.

(** ** [mounted] and [destroyed] *)



(** ** More about [getTextSelection] *)

(** X11: with a clamp that returns the value itself when it lies
    between the bounds and the nearer bound otherwise, on a document: a
    number at or below 0 gives the selection of ['start'] and a number
    at or above [doc.nodeSize - 2] that of ['end']; a [{ from, to }]
    pair within the document is taken as it is, also when [from] is
    greater than [to]; only a selection instance is handed back without
    looking at the document. *)
Theorem getTextSelection_bounds `{DocumentEngine} `{CoreHelpers} doc :
  (forall min max value, min <= value <= max -> clamp min max value = value) ->
  (forall min max value, min <= max -> value < min -> clamp min max value = min) ->
  (forall min max value, min <= max -> max < value -> clamp min max value = max) ->
  hasContent doc = true ->
  (forall pos,
     pos <= 0 ->
     getTextSelection (SelectionNumber pos) doc = getTextSelection SelectionStart doc)
  /\ (forall pos,
        nodeSize doc - 2 <= pos ->
        getTextSelection (SelectionNumber pos) doc = getTextSelection SelectionEnd doc)
  /\ getTextSelection SelectionStart doc
     = Return (Selection_near (mkResolvedPos doc 0))
  /\ getTextSelection SelectionEnd doc
     = Return (Selection_near (mkResolvedPos doc (contentSize doc)))
  /\ (forall from to,
        0 <= from <= contentSize doc ->
        0 <= to <= contentSize doc ->
        getTextSelection (SelectionFromTo from to) doc
        = Return (mkSelection doc from to))
  /\ (forall given, getTextSelection (SelectionInstance given) doc = Return given).
Proof.
  intros Hin Hbelow Habove Hdoc.
  pose proof (nodeSize_hasContent doc Hdoc) as Hsize.
  pose proof (contentSize_nonneg doc) as Hnonneg.
  assert (Hresolve : forall pos,
             0 <= pos <= contentSize doc ->
             resolve doc pos = Return (mkResolvedPos doc pos)).
  { intros pos Hpos. unfold resolve.
    destruct (Z.leb_spec 0 pos); [|lia].
    destruct (Z.leb_spec pos (contentSize doc)); [reflexivity | lia]. }
  assert (Hclamp0 : forall pos, pos <= 0 -> clamp 0 (nodeSize doc - 2) pos = 0).
  { intros pos Hpos. destruct (Z.eq_dec pos 0) as [->|Hne].
    - apply Hin. lia.
    - apply Hbelow; lia. }
  assert (Hclamp1 : forall pos,
             nodeSize doc - 2 <= pos ->
             clamp 0 (nodeSize doc - 2) pos = contentSize doc).
  { intros pos Hpos. rewrite <- Hsize.
    destruct (Z.eq_dec pos (nodeSize doc - 2)) as [->|Hne].
    - apply Hin. lia.
    - apply Habove; lia. }
  split; [|split; [|split; [|split; [|split]]]].
  - intros pos Hpos. unfold getTextSelection. cbn [clampNumber resolveNumber].
    now rewrite (Hclamp0 pos Hpos), (Hclamp0 0) by lia.
  - intros pos Hpos. unfold getTextSelection. cbn [clampNumber resolveNumber].
    now rewrite (Hclamp1 pos Hpos), (Hclamp1 (nodeSize doc - 2)) by lia.
  - unfold getTextSelection. cbn [clampNumber resolveNumber]. rewrite (Hclamp0 0), Hresolve by lia. reflexivity.
  - unfold getTextSelection. cbn [clampNumber resolveNumber].
    rewrite (Hclamp1 (nodeSize doc - 2)), Hresolve by lia. reflexivity.
  - intros from to Hfrom Hto. unfold getTextSelection, TextSelection_create.
    cbn [clampNumber resolveNumber].
    rewrite !Hin by lia. now rewrite !Hresolve by lia.
  - reflexivity.
Qed.

Lemma exampleHelpers_clamp_in min max value :
  min <= value <= max -> clamp min max value = value.
Proof.
  intros Hvalue. simpl.
  destruct (Z.ltb_spec value min); [lia|].
  destruct (Z.ltb_spec max value); [lia | reflexivity].
Qed.

Lemma exampleHelpers_clamp_below min max value :
  min <= max -> value < min -> clamp min max value = min.
Proof. intros _ Hvalue. simpl. destruct (Z.ltb_spec value min); [reflexivity | lia]. Qed.

Lemma exampleHelpers_clamp_above min max value :
  min <= max -> max < value -> clamp min max value = max.
Proof.
  intros Hle Hvalue. simpl.
  destruct (Z.ltb_spec value min); [lia|].
  destruct (Z.ltb_spec max value); [reflexivity | lia].
Qed.

Lemma getTextSelection_bounds_witness :
  getTextSelection (SelectionNumber (-5)) exampleDocument
  = getTextSelection SelectionStart exampleDocument
  /\ getTextSelection (SelectionFromTo 6 2) exampleDocument
     = Return (mkSelection exampleDocument 6 2).
Proof.
  destruct (getTextSelection_bounds exampleDocument
              exampleHelpers_clamp_in exampleHelpers_clamp_below
              exampleHelpers_clamp_above eq_refl)
    as (Hstart & _ & _ & _ & Hpair & _).
  split.
  - apply Hstart. lia.
  - apply Hpair; simpl; lia.
Defined.

(** ** More about [createDocumentNode] and [createState] *)

(** X12: without an [onError] from the caller, content that is not
    recognized, and document JSON that the schema rejects, become what
    the schema makes of [EMPTY_PARAGRAPH_NODE] when the content
    expression of the document node starts with ["block"], and of
    [EMPTY_NODE] when it does not or when there is none; if the schema
    rejects that JSON too, [createDocumentNode] throws. *)
Theorem createDocumentNode_default_fallback `{CoreConstants} parameter :
  onError parameter = None ->
  let fallback :=
    match doc_spec_content (schema parameter) with
    | Some expression =>
        if String.prefix "block" expression
        then EMPTY_PARAGRAPH_NODE else EMPTY_NODE
    | None => EMPTY_NODE
    end in
  (unrecognized parameter ->
   createDocumentNode parameter = nodeFromJSON (schema parameter) fallback)
  /\ (forall json error,
        content parameter = ContentObject json ->
        isRemirrorJSON (ContentObject json) = Some json ->
        nodeFromJSON (schema parameter) json = Throw error ->
        createDocumentNode parameter = nodeFromJSON (schema parameter) fallback).
Proof.
  intros Hnone fallback. subst fallback. split.
  - intros (Hjson & Hcontent). unfold createDocumentNode, defaultOnError.
    rewrite Hnone.
    destruct (content parameter) as [node|json|text|state]; try contradiction;
      rewrite Hjson; try rewrite Hcontent;
      destruct (doc_spec_content (schema parameter)) as [expression|];
      try destruct (String.prefix "block" expression); reflexivity.
  - intros json error Hcontent Hjson Hthrow.
    unfold createDocumentNode, defaultOnError.
    rewrite Hnone, Hcontent, Hjson, Hthrow.
    destruct (doc_spec_content (schema parameter)) as [expression|];
      try destruct (String.prefix "block" expression); reflexivity.
Qed.

Lemma createDocumentNode_default_fallback_witness :
  createDocumentNode
    (mkCreateDocumentNodeParameter (ContentString "Hello") exampleSchema None
       None None None)
  = Return (PMBranch "doc" [PMBranch "paragraph" []])
  /\ createDocumentNode
       (mkCreateDocumentNodeParameter
          (ContentObject (ObjectNode "doc" (Some [ObjectNode "table" None None]) None))
          (mkEditorSchema exampleNodeFromJSON (Some "inline*")) None None None None)
     = Return (PMBranch "doc" []).
Proof.
  split.
  - destruct (createDocumentNode_default_fallback
                (mkCreateDocumentNodeParameter (ContentString "Hello")
                   exampleSchema None None None None) eq_refl) as (Hunrecognized & _).
    apply Hunrecognized. split; reflexivity.
  - destruct (createDocumentNode_default_fallback
                (mkCreateDocumentNodeParameter
                   (ContentObject
                      (ObjectNode "doc" (Some [ObjectNode "table" None None]) None))
                   (mkEditorSchema exampleNodeFromJSON (Some "inline*"))
                   None None None None) eq_refl) as (_ & Hjson).
    apply (Hjson (ObjectNode "doc" (Some [ObjectNode "table" None None]) None)
             RangeError); reflexivity.
Defined.

(** X13: a string given together with a string handler is handed to
    the handler with the schema and the custom document, and what the
    handler returns or throws is what [createDocumentNode] returns or
    throws: neither [onError] nor the fallback documents come into it,
    unlike for document JSON that the schema rejects.  An error of the
    handler is therefore also the error of [createState]. *)
Theorem createDocumentNode_stringHandler `{CoreConstants} parameter text handler :
  content parameter = ContentString text ->
  stringHandler parameter = Some handler ->
  createDocumentNode parameter
  = handler (mkFromStringParameter (doc parameter) text (schema parameter))
  /\ (forall error store_plugins `{DocumentEngine} `{CoreHelpers},
        handler (mkFromStringParameter (doc parameter) text (schema parameter))
        = Throw error ->
        createState (schema parameter) store_plugins parameter = Throw error).
Proof.
  intros Hcontent Hhandler. split.
  - unfold createDocumentNode. now rewrite Hcontent, Hhandler.
  - intros error store_plugins engine helpers Hthrow.
    unfold createState, createDocumentNode. simpl.
    rewrite Hcontent, Hhandler. simpl. now rewrite Hthrow.
Qed.

Lemma createDocumentNode_stringHandler_witness :
  createDocumentNode
    (mkCreateDocumentNodeParameter (ContentString "<p>") exampleSchema None
       (Some (fun _ => Throw RangeError))
       (Some (OnErrorFallback (FallbackNode fallbackDocument))) None)
  = Throw RangeError.
Proof.
  apply (createDocumentNode_stringHandler
           (mkCreateDocumentNodeParameter (ContentString "<p>") exampleSchema None
              (Some (fun _ => Throw RangeError))
              (Some (OnErrorFallback (FallbackNode fallbackDocument))) None)
           "<p>" (fun _ => Throw RangeError) eq_refl eq_refl).
Defined.

(** ** [nodeNameMatchesList] *)

Lemma nodeNameMatchesList_existsb `{RegExpEngine} node nodeMatches :
  nodeNameMatchesList (Some node) nodeMatches
  = existsb (fun checker => checkNodeName checker (nodeTypeName node) node)
      nodeMatches.
Proof.
  unfold nodeNameMatchesList.
  induction nodeMatches as [|checker rest IH]; [reflexivity|].
  simpl. destruct (checkNodeName checker (nodeTypeName node) node);
    [reflexivity | exact IH].
Qed.

(** X14: [nodeNameMatchesList] is false without a node; with a node it
    is true exactly when some item of the list matches the name of the
    node's type, so the items of two lists joined match when those of
    one of them do, and the name itself in the list is enough.  An
    array that is empty or has more than two strings is not a regex
    tuple and matches nothing. *)
Theorem nodeNameMatchesList_any `{RegExpEngine} node nodeMatches :
  nodeNameMatchesList None nodeMatches = false
  /\ (nodeNameMatchesList (Some node) nodeMatches = true
      <-> exists checker,
            checker ∈ nodeMatches
            /\ checkNodeName checker (nodeTypeName node) node = true)
  /\ (forall more,
        nodeNameMatchesList (Some node) (nodeMatches ++ more)%list
        = nodeNameMatchesList (Some node) nodeMatches
          || nodeNameMatchesList (Some node) more)
  /\ (MatchName (nodeTypeName node) ∈ nodeMatches ->
      nodeNameMatchesList (Some node) nodeMatches = true)
  /\ (forall items,
        (length items = 0 \/ 2 < length items)%nat ->
        nodeNameMatchesList (Some node) (nodeMatches ++ [MatchArray items])%list
        = nodeNameMatchesList (Some node) nodeMatches).
Proof.
  assert (Hiff : nodeNameMatchesList (Some node) nodeMatches = true
                 <-> exists checker,
                       checker ∈ nodeMatches
                       /\ checkNodeName checker (nodeTypeName node) node = true).
  { rewrite nodeNameMatchesList_existsb, existsb_exists.
    split; intros (checker & Hin & Hmatch); exists checker;
      (split; [now apply list_elem_of_In | exact Hmatch]). }
  split; [reflexivity|].
  split; [exact Hiff|].
  split.
  { intros more. rewrite !nodeNameMatchesList_existsb. apply existsb_app. }
  split.
  { intros Hin. apply Hiff. exists (MatchName (nodeTypeName node)).
    split; [exact Hin|]. simpl. apply String.eqb_refl. }
  intros items Hitems. rewrite !nodeNameMatchesList_existsb, existsb_app. simpl.
  replace (checkNodeName (MatchArray items) (nodeTypeName node) node) with false.
  { now rewrite !orb_false_r. }
  unfold checkNodeName, isRegexTuple.
  destruct Hitems as [Hitems|Hitems].
  - rewrite Hitems. reflexivity.
  - destruct (Nat.leb_spec (length items) 2); [lia|].
    now rewrite andb_false_r.
Qed.

Lemma nodeNameMatchesList_any_witness :
  nodeNameMatchesList (Some (PMBranch "paragraph" []))
    [MatchArray ["^para"; "i"; "g"]; MatchName "paragraph"] = true
  /\ nodeNameMatchesList (Some (PMBranch "paragraph" []))
       ([MatchName "heading"] ++ [MatchArray ["^para"; "i"; "g"]])%list
     = nodeNameMatchesList (Some (PMBranch "paragraph" [])) [MatchName "heading"].
Proof.
  split.
  - destruct (nodeNameMatchesList_any (PMBranch "paragraph" [])
                [MatchArray ["^para"; "i"; "g"]; MatchName "paragraph"])
      as (_ & _ & _ & Hname & _).
    apply Hname. simpl. right. left.
  - destruct (nodeNameMatchesList_any (PMBranch "paragraph" [])
                [MatchName "heading"]) as (_ & _ & _ & _ & Harray).
    apply Harray. simpl. right. lia.
Defined.

(** ** [areSchemaCompatible] *)

Lemma allIncluded_subseteq items other :
  allIncluded items other = true <-> forall item, item ∈ items -> item ∈ other.
Proof.
  induction items as [|item rest IH]; simpl.
  - split; [intros _ item Hin; inversion Hin | reflexivity].
  - unfold includes. destruct (bool_decide_reflect (item ∈ other)) as [Hin|Hout]; simpl.
    + rewrite IH. split.
      * intros Hrest x Hx. apply elem_of_cons in Hx as [->|Hx]; auto.
      * intros Hall x Hx. apply Hall, elem_of_cons. now right.
    + split; [discriminate|]. intros Hall. exfalso.
      apply Hout, Hall, elem_of_cons. now left.
Qed.

Lemma keys_compatible (keysA keysB : list string) :
  NoDup keysA ->
  (length keysA =? length keysB)%nat && allIncluded keysA keysB = true
  <-> keysA ≡ₚ keysB.
Proof.
  intros Hdistinct. rewrite andb_true_iff, Nat.eqb_eq, allIncluded_subseteq. split.
  - intros (Hlength & Hincluded).
    apply submseteq_length_Permutation; [|lia].
    now apply NoDup_submseteq.
  - intros Hsame. split; [now rewrite Hsame|].
    intros item. now rewrite Hsame.
Qed.

Lemma areSchemaCompatible_unfold schemaA schemaB :
  schema_identity schemaA <> schema_identity schemaB ->
  areSchemaCompatible schemaA schemaB
  = ((length (schema_marks schemaA) =? length (schema_marks schemaB))%nat
     && allIncluded (schema_marks schemaA) (schema_marks schemaB))
    && ((length (schema_nodes schemaA) =? length (schema_nodes schemaB))%nat
        && allIncluded (schema_nodes schemaA) (schema_nodes schemaB)).
Proof.
  intros Hdistinct. unfold areSchemaCompatible.
  destruct (Nat.eqb_spec (schema_identity schemaA) (schema_identity schemaB));
    [contradiction|].
  destruct (length (schema_marks schemaA) =? length (schema_marks schemaB))%nat,
    (length (schema_nodes schemaA) =? length (schema_nodes schemaB))%nat,
    (allIncluded (schema_marks schemaA) (schema_marks schemaB)),
    (allIncluded (schema_nodes schemaA) (schema_nodes schemaB)); reflexivity.
Qed.

(** X15: for two schemas whose mark names and node names are each
    distinct (they are the keys of an object), [areSchemaCompatible] is
    true exactly when the two schemas have the same mark names and the
    same node names, in whatever order; so it does not matter which of
    the two schemas comes first, although the code only looks for the
    names of the first in the second. *)
Theorem areSchemaCompatible_same_names schemaA schemaB :
  wellFormedKeys schemaA ->
  wellFormedKeys schemaB ->
  (schema_identity schemaA = schema_identity schemaB -> schemaA = schemaB) ->
  (areSchemaCompatible schemaA schemaB = true
   <-> schema_marks schemaA ≡ₚ schema_marks schemaB
       /\ schema_nodes schemaA ≡ₚ schema_nodes schemaB)
  /\ areSchemaCompatible schemaB schemaA = areSchemaCompatible schemaA schemaB.
Proof.
  intros (HmarksA & HnodesA) (HmarksB & HnodesB) Hobject.
  destruct (Nat.eq_dec (schema_identity schemaA) (schema_identity schemaB))
    as [Hsame|Hdistinct].
  { rewrite <- (Hobject Hsame). unfold areSchemaCompatible.
    rewrite Nat.eqb_refl. repeat split; reflexivity. }
  assert (Hiff : forall first second,
             NoDup (schema_marks first) -> NoDup (schema_nodes first) ->
             schema_identity first <> schema_identity second ->
             areSchemaCompatible first second = true
             <-> schema_marks first ≡ₚ schema_marks second
                 /\ schema_nodes first ≡ₚ schema_nodes second).
  { intros first second Hmarks Hnodes Hne.
    rewrite (areSchemaCompatible_unfold first second Hne), andb_true_iff.
    now rewrite (keys_compatible _ _ Hmarks), (keys_compatible _ _ Hnodes). }
  split; [now apply Hiff|].
  pose proof (Hiff schemaA schemaB HmarksA HnodesA Hdistinct) as Hforth.
  pose proof (Hiff schemaB schemaA HmarksB HnodesB (not_eq_sym Hdistinct)) as Hback.
  destruct (areSchemaCompatible schemaA schemaB) eqn:EA,
    (areSchemaCompatible schemaB schemaA) eqn:EB; try reflexivity.
  - destruct Hforth as ((Hm & Hn) & _); [reflexivity|].
    destruct Hback as (_ & Hback). apply Hback. split; now symmetry.
  - destruct Hback as ((Hm & Hn) & _); [reflexivity|].
    destruct Hforth as (_ & Hforth). symmetry. apply Hforth. split; now symmetry.
Qed.

Lemma areSchemaCompatible_same_names_witness :
  (areSchemaCompatible basicKeys reorderedKeys = true
   <-> schema_marks basicKeys ≡ₚ schema_marks reorderedKeys
       /\ schema_nodes basicKeys ≡ₚ schema_nodes reorderedKeys)
  /\ areSchemaCompatible reorderedKeys basicKeys
     = areSchemaCompatible basicKeys reorderedKeys.
Proof.
  apply (areSchemaCompatible_same_names basicKeys reorderedKeys).
  - split; apply (bool_decide_unpack _); vm_compute; exact I.
  - split; apply (bool_decide_unpack _); vm_compute; exact I.
  - simpl. discriminate.
Defined.

(** ** [getInvalidContent] and [transformInvalidJSON] *)

Lemma MarkedJSON_induction (P : MarkedJSON -> Prop) :
  (forall type marks, P (MarkedNode type marks None)) ->
  (forall type marks content,
     Forall P content -> P (MarkedNode type marks (Some content))) ->
  forall json, P json.
Proof.
  intros Hleaf Hbranch. fix ind 1. intros [type marks [content|]].
  - apply Hbranch. revert content. fix children 1. intros [|child rest].
    + constructor.
    + constructor; [apply ind | apply children].
  - apply Hleaf.
Qed.

Lemma invalidMarksLoop_flag validMarks path parentNode marks :
  forall index invalidMarks parentMark,
    (invalidMarksLoop validMarks path parentNode marks index invalidMarks
       parentMark).2
    = parentMark || hasInvalidMark validMarks (Some marks).
Proof.
  induction marks as [|mark rest IH]; intros index invalidMarks parentMark; simpl.
  - now rewrite orb_false_r.
  - destruct (bool_decide (markName mark ∈ validMarks)); rewrite IH; simpl.
    + reflexivity.
    + now rewrite orb_true_r.
Qed.

Lemma invalidMarksLoop_length validMarks path parentNode marks :
  forall index invalidMarks parentMark,
    length
      (invalidMarksLoop validMarks path parentNode marks index invalidMarks
         parentMark).1
    = (invalidMarkCount validMarks marks + length invalidMarks)%nat.
Proof.
  unfold invalidMarkCount.
  induction marks as [|mark rest IH]; intros index invalidMarks parentMark; simpl.
  - reflexivity.
  - destruct (bool_decide (markName mark ∈ validMarks)); rewrite IH; simpl;
      rewrite ?Nat.add_succ_r; reflexivity.
Qed.

Lemma invalidMarkCount_zero validMarks marks :
  invalidMarkCount validMarks marks = 0%nat
  <-> hasInvalidMark validMarks (Some marks) = false.
Proof.
  unfold invalidMarkCount, hasInvalidMark. rewrite negb_false_iff.
  induction marks as [|mark rest IH]; simpl.
  - split; reflexivity.
  - destruct (bool_decide (markName mark ∈ validMarks)); simpl.
    + exact IH.
    + split; discriminate.
Qed.

Lemma invalidMarksLoop_blocks validMarks path parentNode marks :
  forall index invalidMarks parentMark block,
    block ∈ (invalidMarksLoop validMarks path parentNode marks index invalidMarks
               parentMark).1 ->
    block ∈ invalidMarks
    \/ (block_type block = BlockMark
        /\ (block_name block ∉ validMarks)
        /\ (path `prefix_of` block_path block)
        /\ invalidParentNode block = parentNode
        /\ (parentMark = true -> invalidParentMark block = true)).
Proof.
  induction marks as [|mark rest IH];
    intros index invalidMarks parentMark block; simpl.
  - now left.
  - destruct (bool_decide_reflect (markName mark ∈ validMarks)) as [Hin|Hout];
      intros Hblock; apply IH in Hblock.
    + exact Hblock.
    + destruct Hblock as [Hblock|(Htype & Hname & Hpath & Hnode & Hmark)].
      * apply elem_of_cons in Hblock as [->|Hblock]; [|now left].
        right. simpl. repeat split; auto. now apply prefix_app_r.
      * right. repeat split; auto.
Qed.

Lemma invalidContentLoop_laterChildrenFirst recurse path content :
  forall index invalidContent,
    invalidContentLoop recurse path content index invalidContent
    = (laterChildrenFirst recurse path content index ++ invalidContent)%list.
Proof.
  induction content as [|value rest IH]; intros index invalidContent; simpl.
  - reflexivity.
  - now rewrite IH, app_assoc.
Qed.

Lemma getInvalidContent_leaf validMarks validNodes type marks path
  parentNode parentMark :
  getInvalidContent validMarks validNodes (MarkedNode type marks None) path
    parentNode parentMark
  = (match marks with
     | Some marks =>
         (invalidMarksLoop validMarks path parentNode marks 0 [] parentMark).1
     | None => []
     end
     ++ (if bool_decide (type ∈ validNodes) then []
         else [mkInvalidContentBlock BlockNode type path parentNode
                 (parentMark || hasInvalidMark validMarks marks)]))%list.
Proof.
  simpl. destruct marks as [marks|].
  - pose proof (invalidMarksLoop_flag validMarks path parentNode marks 0 []
                  parentMark) as Hflag.
    destruct (invalidMarksLoop validMarks path parentNode marks 0 [] parentMark)
      as [invalidMarks flag]. simpl in Hflag. subst flag. simpl.
    destruct (bool_decide (type ∈ validNodes)); [now rewrite app_nil_r | reflexivity].
  - simpl. destruct (bool_decide (type ∈ validNodes));
      [reflexivity | now rewrite orb_false_r].
Qed.

Lemma getInvalidContent_children validMarks validNodes type marks content path
  parentNode parentMark :
  getInvalidContent validMarks validNodes (MarkedNode type marks (Some content))
    path parentNode parentMark
  = (laterChildrenFirst
       (fun value path =>
          getInvalidContent validMarks validNodes value path
            (parentNode || negb (bool_decide (type ∈ validNodes)))
            (parentMark || hasInvalidMark validMarks marks))
       path content 0
     ++ getInvalidContent validMarks validNodes (MarkedNode type marks None) path
          parentNode parentMark)%list.
Proof.
  rewrite getInvalidContent_leaf. simpl. destruct marks as [marks|].
  - pose proof (invalidMarksLoop_flag validMarks path parentNode marks 0 []
                  parentMark) as Hflag.
    destruct (invalidMarksLoop validMarks path parentNode marks 0 [] parentMark)
      as [invalidMarks flag]. simpl in Hflag. subst flag. simpl.
    destruct (bool_decide (type ∈ validNodes)); simpl;
      rewrite invalidContentLoop_laterChildrenFirst, app_nil_r.
    + now rewrite orb_false_r, app_nil_r.
    + now rewrite orb_true_r.
  - simpl. destruct (bool_decide (type ∈ validNodes)); simpl;
      rewrite invalidContentLoop_laterChildrenFirst, app_nil_r, !orb_false_r.
    + reflexivity.
    + now rewrite orb_true_r.
Qed.

Lemma laterChildrenFirst_length recurse (measure : MarkedJSON -> nat) path content :
  Forall (fun child => forall path, length (recurse child path) = measure child)
    content ->
  forall index,
    length (laterChildrenFirst recurse path content index)
    = foldr (fun child total => (measure child + total)%nat) 0%nat content.
Proof.
  induction 1 as [|child rest Hchild _ IH]; intros index; simpl.
  - reflexivity.
  - rewrite length_app, IH, Hchild. lia.
Qed.

Lemma laterChildrenFirst_elem recurse path content : forall index block,
  block ∈ laterChildrenFirst recurse path content index ->
  exists child position,
    child ∈ content
    /\ block ∈ recurse child (path ++ ["content"; position])%list.
Proof.
  induction content as [|value rest IH]; intros index block; simpl.
  - intros Hblock. inversion Hblock.
  - intros Hblock. apply elem_of_app in Hblock as [Hblock|Hblock].
    + destruct (IH _ _ Hblock) as (child & position & Hchild & Hin).
      exists child, position. split; [|exact Hin]. apply elem_of_cons. now right.
    + exists value, (pretty index). split; [|exact Hblock].
      apply elem_of_cons. now left.
Qed.

Lemma getInvalidContent_length validMarks validNodes json :
  forall path parentNode parentMark,
    length (getInvalidContent validMarks validNodes json path parentNode parentMark)
    = invalidCount validMarks validNodes json.
Proof.
  induction json as [type marks|type marks content IH] using MarkedJSON_induction;
    intros path parentNode parentMark.
  - rewrite getInvalidContent_leaf, length_app. simpl.
    destruct marks as [marks|];
      [rewrite invalidMarksLoop_length|];
      destruct (bool_decide (type ∈ validNodes)); simpl; lia.
  - rewrite getInvalidContent_children, length_app.
    rewrite (laterChildrenFirst_length _ (invalidCount validMarks validNodes)).
    + rewrite getInvalidContent_leaf, length_app.
      change (invalidCount validMarks validNodes (MarkedNode type marks (Some content)))
        with ((if bool_decide (type ∈ validNodes) then 0 else 1)
              + match marks with
                | Some marks => invalidMarkCount validMarks marks
                | None => 0
                end
              + foldr (fun child total =>
                         invalidCount validMarks validNodes child + total)
                  0 content)%nat.
      destruct marks as [marks|];
        [rewrite invalidMarksLoop_length|];
        destruct (bool_decide (type ∈ validNodes)); cbn [length]; lia.
    + eapply Forall_impl; [exact IH|]. intros child Hchild childPath.
      apply Hchild.
Qed.

Lemma invalidCount_valid validMarks validNodes json :
  invalidCount validMarks validNodes json = 0%nat
  <-> validJSON validMarks validNodes json = true.
Proof.
  induction json as [type marks|type marks content IH] using MarkedJSON_induction.
  - simpl. destruct (bool_decide (type ∈ validNodes)); simpl.
    + destruct marks as [marks|]; simpl.
      * rewrite andb_true_r, Nat.add_0_r, invalidMarkCount_zero.
        unfold hasInvalidMark. now rewrite negb_false_iff.
      * split; reflexivity.
    + split; [lia | discriminate].
  - assert (Hchildren :
               foldr (fun child total =>
                        (invalidCount validMarks validNodes child + total)%nat)
                 0%nat content = 0%nat
               <-> forallb (validJSON validMarks validNodes) content = true).
    { induction IH as [|child rest Hchild _ IHrest]; simpl.
      - split; reflexivity.
      - rewrite andb_true_iff, <- Hchild, <- IHrest. lia. }
    simpl. destruct (bool_decide (type ∈ validNodes)); simpl.
    + destruct marks as [marks|]; simpl.
      * rewrite andb_true_iff, <- Hchildren.
        pose proof (invalidMarkCount_zero validMarks marks) as Hmarks.
        unfold hasInvalidMark in Hmarks. rewrite negb_false_iff in Hmarks.
        rewrite <- Hmarks. lia.
      * exact Hchildren.
    + split; [lia | discriminate].
Qed.

Lemma getInvalidContent_nil validMarks validNodes json path parentNode parentMark :
  getInvalidContent validMarks validNodes json path parentNode parentMark = []
  <-> validJSON validMarks validNodes json = true.
Proof.
  rewrite <- invalidCount_valid, <- (getInvalidContent_length _ _ json path
                                       parentNode parentMark).
  split; [now intros -> | apply nil_length_inv].
Qed.

Lemma getInvalidContent_blocks validMarks validNodes json :
  forall path parentNode parentMark block,
    block ∈ getInvalidContent validMarks validNodes json path parentNode parentMark ->
    blockIsInvalid validMarks validNodes block
    /\ path `prefix_of` block_path block
    /\ (parentNode = true -> invalidParentNode block = true)
    /\ (parentMark = true -> invalidParentMark block = true).
Proof.
  assert (Hleaf : forall type marks path parentNode parentMark block,
             block ∈ getInvalidContent validMarks validNodes
                       (MarkedNode type marks None) path parentNode parentMark ->
             blockIsInvalid validMarks validNodes block
             /\ path `prefix_of` block_path block
             /\ (parentNode = true -> invalidParentNode block = true)
             /\ (parentMark = true -> invalidParentMark block = true)).
  { intros type marks path parentNode parentMark block.
    rewrite getInvalidContent_leaf. intros Hblock.
    apply elem_of_app in Hblock as [Hblock|Hblock].
    - destruct marks as [marks|]; [|inversion Hblock].
      apply invalidMarksLoop_blocks in Hblock
        as [Hblock|(Htype & Hname & Hpath & Hnode & Hmark)]; [inversion Hblock|].
      unfold blockIsInvalid. rewrite Htype.
      repeat split; auto. intros ->. exact Hnode.
    - destruct (bool_decide_reflect (type ∈ validNodes)) as [Hin|Hout];
        [inversion Hblock|].
      apply list_elem_of_singleton in Hblock as ->.
      unfold blockIsInvalid. simpl. repeat split; auto.
      intros ->. reflexivity. }
  induction json as [type marks|type marks content IH] using MarkedJSON_induction;
    intros path parentNode parentMark block.
  - apply Hleaf.
  - rewrite getInvalidContent_children. intros Hblock.
    apply elem_of_app in Hblock as [Hblock|Hblock]; [|now apply Hleaf in Hblock].
    apply laterChildrenFirst_elem in Hblock
      as (child & position & Hchild & Hblock).
    rewrite Forall_forall in IH.
    destruct (IH child Hchild _ _ _ _ Hblock) as (Hinvalid & Hpath & Hnode & Hmark).
    split; [exact Hinvalid|].
    split; [etrans; [|exact Hpath]; now apply prefix_app_r|].
    split.
    + intros ->. now apply Hnode.
    + intros ->. now apply Hmark.
Qed.

(** X16: [getInvalidContent] returns one block for every node whose
    type is not among the valid nodes and one for every mark that is not
    among the valid marks, whatever path and flags it starts from; so it
    returns the empty array exactly for JSON in which every type and
    every mark is known. *)
Theorem getInvalidContent_counts validMarks validNodes json path
  parentNode parentMark :
  length (getInvalidContent validMarks validNodes json path parentNode parentMark)
  = invalidCount validMarks validNodes json
  /\ (getInvalidContent validMarks validNodes json path parentNode parentMark = []
      <-> validJSON validMarks validNodes json = true).
Proof.
  split; [apply getInvalidContent_length | apply getInvalidContent_nil].
Qed.

Lemma getInvalidContent_counts_witness :
  length
    (getInvalidContent (validMarksOf basicKeys) (validNodesOf basicKeys)
       markedDocument [] false false) = 2%nat
  /\ getInvalidContent (validMarksOf basicKeys) (validNodesOf basicKeys)
       validDocument [] false false = [].
Proof.
  split.
  - destruct (getInvalidContent_counts (validMarksOf basicKeys)
                (validNodesOf basicKeys) markedDocument [] false false)
      as (Hlength & _).
    rewrite Hlength. vm_compute. reflexivity.
  - apply (getInvalidContent_counts (validMarksOf basicKeys)
             (validNodesOf basicKeys) validDocument [] false false).
    vm_compute. reflexivity.
Defined.

Lemma invalidMarksLoop_elem validMarks path parentNode marks :
  forall index invalidMarks parentMark block,
    block ∈ (invalidMarksLoop validMarks path parentNode marks index invalidMarks
               parentMark).1 ->
    block ∈ invalidMarks
    \/ (hasInvalidMark validMarks (Some marks) = true
        /\ block_type block = BlockMark
        /\ invalidParentNode block = parentNode
        /\ exists position, block_path block = (path ++ ["marks"; position])%list).
Proof.
  induction marks as [|mark rest IH];
    intros index invalidMarks parentMark block; simpl.
  - now left.
  - destruct (bool_decide (markName mark ∈ validMarks)) eqn:Hvalid;
      intros Hblock; apply IH in Hblock; simpl in *.
    + exact Hblock.
    + destruct Hblock as [Hblock|(_ & Hrest)].
      * apply elem_of_cons in Hblock as [->|Hblock]; [|now left].
        right. simpl. repeat split. now eexists.
      * right. split; [reflexivity | exact Hrest].
Qed.

Lemma laterChildrenFirst_lookup recurse path content : forall index block,
  block ∈ laterChildrenFirst recurse path content index
  <-> exists offset child,
        content !! offset = Some child
        /\ block ∈ recurse child
                     (path ++ ["content"; pretty (index + offset)%nat])%list.
Proof.
  induction content as [|value rest IH]; intros index block; simpl.
  - split.
    + intros Hblock. inversion Hblock.
    + intros (offset & child & Hlookup & _). discriminate.
  - rewrite elem_of_app, IH. split.
    + intros [(offset & child & Hlookup & Hblock)|Hblock].
      * exists (S offset), child. split; [exact Hlookup|].
        now replace (index + S offset)%nat with (S index + offset)%nat by lia.
      * exists 0%nat, value. split; [reflexivity|].
        now rewrite Nat.add_0_r.
    + intros ([|offset] & child & Hlookup & Hblock).
      * right. simpl in Hlookup. injection Hlookup as <-.
        now rewrite Nat.add_0_r in Hblock.
      * left. exists offset, child. split; [exact Hlookup|].
        now replace (S index + offset)%nat with (index + S offset)%nat by lia.
Qed.

(** The blocks of a node are its own block, the blocks of its marks,
    and the blocks of its children. *)
Lemma getInvalidContent_elem validMarks validNodes type marks content path
  parentNode parentMark block :
  block ∈ getInvalidContent validMarks validNodes (MarkedNode type marks content)
            path parentNode parentMark ->
  ((type ∉ validNodes)
   /\ block = mkInvalidContentBlock BlockNode type path parentNode
                (parentMark || hasInvalidMark validMarks marks))
  \/ (hasInvalidMark validMarks marks = true
      /\ block_type block = BlockMark
      /\ invalidParentNode block = parentNode
      /\ exists position, block_path block = (path ++ ["marks"; position])%list)
  \/ (exists items index child,
        content = Some items
        /\ items !! index = Some child
        /\ block ∈ getInvalidContent validMarks validNodes child
                     (path ++ ["content"; pretty index])%list
                     (parentNode || negb (bool_decide (type ∈ validNodes)))
                     (parentMark || hasInvalidMark validMarks marks)).
Proof.
  assert (Hleaf :
            block ∈ getInvalidContent validMarks validNodes
                      (MarkedNode type marks None) path parentNode parentMark ->
            ((type ∉ validNodes)
             /\ block = mkInvalidContentBlock BlockNode type path parentNode
                          (parentMark || hasInvalidMark validMarks marks))
            \/ (hasInvalidMark validMarks marks = true
                /\ block_type block = BlockMark
                /\ invalidParentNode block = parentNode
                /\ exists position,
                     block_path block = (path ++ ["marks"; position])%list)).
  { rewrite getInvalidContent_leaf. intros Hblock.
    apply elem_of_app in Hblock as [Hblock|Hblock].
    - destruct marks as [marks|]; [|inversion Hblock].
      apply invalidMarksLoop_elem in Hblock as [Hblock|Hmark];
        [inversion Hblock | now right].
    - destruct (bool_decide_reflect (type ∈ validNodes)) as [Hin|Hout];
        [inversion Hblock|].
      apply list_elem_of_singleton in Hblock. now left. }
  destruct content as [items|].
  - rewrite getInvalidContent_children. intros Hblock.
    apply elem_of_app in Hblock as [Hblock|Hblock].
    + apply laterChildrenFirst_lookup in Hblock
        as (offset & child & Hlookup & Hblock).
      right. right. exists items, offset, child. now repeat split.
    + destruct (Hleaf Hblock) as [Hnode|Hmark]; [now left | now right; left].
  - intros Hblock. destruct (Hleaf Hblock) as [Hnode|Hmark];
      [now left | now right; left].
Qed.

Lemma getInvalidContent_own validMarks validNodes type marks content path
  parentNode parentMark :
  type ∉ validNodes ->
  mkInvalidContentBlock BlockNode type path parentNode
    (parentMark || hasInvalidMark validMarks marks)
  ∈ getInvalidContent validMarks validNodes (MarkedNode type marks content) path
      parentNode parentMark.
Proof.
  intros Hout.
  assert (Hleaf :
            mkInvalidContentBlock BlockNode type path parentNode
              (parentMark || hasInvalidMark validMarks marks)
            ∈ getInvalidContent validMarks validNodes (MarkedNode type marks None)
                path parentNode parentMark).
  { rewrite getInvalidContent_leaf. apply elem_of_app. right.
    destruct (bool_decide_reflect (type ∈ validNodes)) as [Hin|_];
      [contradiction|]. apply list_elem_of_singleton. reflexivity. }
  destruct content as [items|]; [|exact Hleaf].
  rewrite getInvalidContent_children. apply elem_of_app. now right.
Qed.

Lemma getInvalidContent_child validMarks validNodes type marks items path
  parentNode parentMark index child block :
  items !! index = Some child ->
  block ∈ getInvalidContent validMarks validNodes child
            (path ++ ["content"; pretty index])%list
            (parentNode || negb (bool_decide (type ∈ validNodes)))
            (parentMark || hasInvalidMark validMarks marks) ->
  block ∈ getInvalidContent validMarks validNodes
            (MarkedNode type marks (Some items)) path parentNode parentMark.
Proof.
  intros Hlookup Hblock. rewrite getInvalidContent_children.
  apply elem_of_app. left. apply laterChildrenFirst_lookup.
  exists index, child. now split.
Qed.

Lemma inContentOf_app path above below :
  inContentOf (path ++ above) (path ++ below)
  <-> (above ++ ["content"])%list `prefix_of` below.
Proof.
  unfold inContentOf. rewrite <- app_assoc. split.
  - apply prefix_app_inv.
  - apply prefix_app.
Qed.

Lemma inContentOf_above path above : ~ inContentOf (path ++ above) path.
Proof.
  intros (rest & Hrest). apply (f_equal length) in Hrest.
  rewrite !length_app in Hrest. simpl in Hrest. lia.
Qed.

Lemma inContentOf_self path : ~ inContentOf path path.
Proof.
  intros Hin. apply (inContentOf_above path []). now rewrite app_nil_r.
Qed.

Lemma inContentOf_marks path position :
  ~ inContentOf path (path ++ ["marks"; position]).
Proof.
  unfold inContentOf. intros Hin. apply prefix_app_inv in Hin.
  apply prefix_cons_inv_1 in Hin. discriminate.
Qed.

(** A block of a child lies under [path/content/index]. *)
Lemma getInvalidContent_child_path validMarks validNodes child path (index : nat)
  parentNode parentMark block :
  block ∈ getInvalidContent validMarks validNodes child
            (path ++ ["content"; pretty index])%list parentNode parentMark ->
  exists below,
    block_path block = (path ++ "content" :: pretty index :: below)%list.
Proof.
  intros Hblock.
  apply getInvalidContent_blocks in Hblock as (_ & (below & Hpath) & _).
  exists below. now rewrite Hpath, <- app_assoc.
Qed.

Lemma MarkedJSON_children_induction (P : MarkedJSON -> Prop) :
  (forall type marks content,
     (forall items, content = Some items -> Forall P items) ->
     P (MarkedNode type marks content)) ->
  forall json, P json.
Proof.
  intros Hstep json.
  induction json as [type marks|type marks content IH] using MarkedJSON_induction;
    apply Hstep.
  - discriminate.
  - intros items E. now injection E as <-.
Qed.

(** A block under an invalid node carries [invalidParentNode]. *)
Lemma getInvalidContent_under_node validMarks validNodes json :
  forall path parentNode parentMark parent block,
    parent ∈ getInvalidContent validMarks validNodes json path parentNode parentMark ->
    block ∈ getInvalidContent validMarks validNodes json path parentNode parentMark ->
    block_type parent = BlockNode ->
    inContentOf (block_path parent) (block_path block) ->
    invalidParentNode block = true.
Proof.
  induction json as [type marks content IH] using MarkedJSON_children_induction.
  intros path parentNode parentMark parent block Hparent Hblock Htype Hunder.
  apply getInvalidContent_elem in Hparent
    as [(Hout & ->)|[(_ & Hmark & _)|(items & j & childJ & -> & HlookupJ & Hparent)]].
  - simpl in Hunder.
    apply getInvalidContent_elem in Hblock
      as [(_ & ->)|[(_ & _ & _ & position & Hpath)
                   |(items & k & childK & _ & _ & Hblock)]].
    + now apply inContentOf_self in Hunder.
    + rewrite Hpath in Hunder. now apply inContentOf_marks in Hunder.
    + apply getInvalidContent_blocks in Hblock as (_ & _ & Hflag & _).
      apply Hflag. destruct (bool_decide_reflect (type ∈ validNodes));
        [contradiction | now rewrite orb_true_r].
  - congruence.
  - destruct (getInvalidContent_child_path _ _ _ _ _ _ _ _ Hparent)
      as (above & Habove).
    rewrite Habove in Hunder.
    apply getInvalidContent_elem in Hblock
      as [(_ & ->)|[(_ & _ & _ & position & Hpath)
                   |(items' & k & childK & E & HlookupK & Hblock)]].
    + simpl in Hunder. now apply inContentOf_above in Hunder.
    + rewrite Hpath in Hunder. apply inContentOf_app in Hunder.
      apply prefix_cons_inv_1 in Hunder. discriminate.
    + injection E as <-.
      destruct (getInvalidContent_child_path _ _ _ _ _ _ _ _ Hblock)
        as (below & Hbelow).
      pose proof Hunder as Hsame. rewrite Hbelow in Hsame.
      apply inContentOf_app in Hsame.
      apply prefix_cons_inv_2, prefix_cons_inv_1 in Hsame.
      apply (inj pretty) in Hsame. subst k.
      rewrite HlookupJ in HlookupK. injection HlookupK as <-.
      rewrite <- Habove in Hunder.
      pose proof (Forall_lookup_1 _ _ _ _ (IH items eq_refl) HlookupJ) as Hchild.
      exact (Hchild _ _ _ parent block Hparent Hblock Htype Hunder).
Qed.

(** A block that carries [invalidParentNode] got it from the call or
    lies under an invalid node. *)
Lemma getInvalidContent_flagged validMarks validNodes json :
  forall path parentNode parentMark block,
    block ∈ getInvalidContent validMarks validNodes json path parentNode parentMark ->
    invalidParentNode block = true ->
    parentNode = true
    \/ exists parent,
         parent ∈ getInvalidContent validMarks validNodes json path parentNode
                    parentMark
         /\ block_type parent = BlockNode
         /\ inContentOf (block_path parent) (block_path block).
Proof.
  induction json as [type marks content IH] using MarkedJSON_children_induction.
  intros path parentNode parentMark block Hblock Hflag.
  pose proof Hblock as Hin.
  apply getInvalidContent_elem in Hin
    as [(_ & ->)|[(_ & _ & Hnode & _)|(items & k & child & -> & Hlookup & Hin)]].
  - left. exact Hflag.
  - left. now rewrite <- Hnode.
  - destruct (getInvalidContent_child_path _ _ _ _ _ _ _ _ Hin) as (below & Hbelow).
    pose proof (Forall_lookup_1 _ _ _ _ (IH items eq_refl) Hlookup) as Hchild.
    destruct (Hchild _ _ _ _ Hin Hflag) as [Hparent|(parent & Hparent & Htype & Hunder)].
    + destruct parentNode; [now left|]. right. simpl in Hparent.
      apply negb_true_iff, bool_decide_eq_false in Hparent.
      eexists. split; [now apply getInvalidContent_own|].
      split; [reflexivity|]. simpl. rewrite Hbelow.
      exists (pretty k :: below). now rewrite <- app_assoc.
    + right. exists parent. split; [|now split].
      now apply (getInvalidContent_child _ _ _ _ _ _ _ _ k child).
Qed.

(** The node that carries an invalid mark lies at or under the path
    of the call. *)
Lemma getInvalidContent_mark_owner validMarks validNodes json :
  forall path parentNode parentMark mark owner position,
    mark ∈ getInvalidContent validMarks validNodes json path parentNode parentMark ->
    block_type mark = BlockMark ->
    block_path mark = (owner ++ ["marks"; position])%list ->
    path `prefix_of` owner.
Proof.
  induction json as [type marks content IH] using MarkedJSON_children_induction.
  intros path parentNode parentMark mark owner position Hmark Htype Hpath.
  apply getInvalidContent_elem in Hmark
    as [(_ & ->)|[(_ & _ & _ & position' & Hown)
                 |(items & k & child & -> & Hlookup & Hmark)]].
  - discriminate.
  - rewrite Hown in Hpath. apply app_inj_2 in Hpath as (-> & _); reflexivity.
  - pose proof (Forall_lookup_1 _ _ _ _ (IH items eq_refl) Hlookup) as Hchild.
    etrans; [|exact (Hchild _ _ _ _ _ _ Hmark Htype Hpath)].
    now apply prefix_app_r.
Qed.

(** A node with an invalid mark, and every block in its content,
    carries [invalidParentMark]. *)
Lemma getInvalidContent_under_mark validMarks validNodes json :
  forall path parentNode parentMark mark owner position block,
    mark ∈ getInvalidContent validMarks validNodes json path parentNode parentMark ->
    block ∈ getInvalidContent validMarks validNodes json path parentNode parentMark ->
    block_type mark = BlockMark ->
    block_path mark = (owner ++ ["marks"; position])%list ->
    inContentOf owner (block_path block)
    \/ (block_type block = BlockNode /\ block_path block = owner) ->
    invalidParentMark block = true.
Proof.
  induction json as [type marks content IH] using MarkedJSON_children_induction.
  intros path parentNode parentMark mark owner position block
    Hmark Hblock Htype Hpath Hunder.
  apply getInvalidContent_elem in Hmark
    as [(_ & ->)|[(Hinvalid & _ & _ & position' & Hown)
                 |(items & j & childJ & -> & HlookupJ & Hmark)]].
  - discriminate.
  - rewrite Hown in Hpath. apply app_inj_2 in Hpath as (<- & _); [|reflexivity].
    apply getInvalidContent_elem in Hblock
      as [(_ & ->)|[(_ & Hkind & _ & position'' & Hblockpath)
                   |(items & k & childK & _ & _ & Hblock)]].
    + simpl. rewrite Hinvalid. apply orb_true_r.
    + destruct Hunder as [Hunder|(Hnode & _)]; [|congruence].
      rewrite Hblockpath in Hunder. now apply inContentOf_marks in Hunder.
    + apply getInvalidContent_blocks in Hblock as (_ & _ & _ & Hflag).
      apply Hflag. rewrite Hinvalid. apply orb_true_r.
  - destruct (getInvalidContent_mark_owner _ _ _ _ _ _ _ _ _ Hmark Htype Hpath)
      as (above & Habove). rewrite <- app_assoc in Habove. simpl in Habove.
    assert (Hsame : exists k childK,
               items !! k = Some childK
               /\ pretty k = pretty j
               /\ block ∈ getInvalidContent validMarks validNodes childK
                            (path ++ ["content"; pretty k])%list
                            (parentNode || negb (bool_decide (type ∈ validNodes)))
                            (parentMark || hasInvalidMark validMarks marks)).
    { apply getInvalidContent_elem in Hblock
        as [(_ & ->)|[(_ & Hkind & _ & position'' & Hblockpath)
                     |(items' & k & childK & E & HlookupK & Hblock)]].
      - exfalso. simpl in Hunder. rewrite Habove in Hunder.
        destruct Hunder as [Hunder|(_ & Hunder)].
        + now apply inContentOf_above in Hunder.
        + apply (f_equal length) in Hunder. rewrite length_app in Hunder.
          simpl in Hunder. lia.
      - exfalso. destruct Hunder as [Hunder|(Hnode & _)]; [|congruence].
        rewrite Habove, Hblockpath in Hunder. apply inContentOf_app in Hunder.
        apply prefix_cons_inv_1 in Hunder. discriminate.
      - injection E as <-. exists k, childK. split; [exact HlookupK|].
        split; [|exact Hblock].
        destruct (getInvalidContent_child_path _ _ _ _ _ _ _ _ Hblock)
          as (below & Hbelow).
        rewrite Habove, Hbelow in Hunder. destruct Hunder as [Hunder|(_ & Hunder)].
        + apply inContentOf_app in Hunder.
          apply prefix_cons_inv_2, prefix_cons_inv_1 in Hunder. now symmetry.
        + apply app_inv_head in Hunder. now injection Hunder. }
    destruct Hsame as (k & childK & HlookupK & Hpretty & Hblock').
    apply (inj pretty) in Hpretty. subst k.
    rewrite HlookupJ in HlookupK. injection HlookupK as <-.
    pose proof (Forall_lookup_1 _ _ _ _ (IH items eq_refl) HlookupJ) as Hchild.
    exact (Hchild _ _ _ mark owner position block Hmark Hblock' Htype Hpath Hunder).
Qed.

(** X17: every block that [getInvalidContent] returns names a mark
    that is not a valid mark or a node type that is not a valid node,
    at a path that extends the path the call started from, and inherits
    the flags the call was given.  Among the blocks returned, a block
    in the content of a node that has a block of its own (its type is
    invalid) carries [invalidParentNode], and a block carries
    [invalidParentNode] only if the call was given the flag or the
    block lies in the content of such a node; and the block of a node
    that has an invalid mark, and every block in the content of that
    node, carries [invalidParentMark]. *)
Theorem getInvalidContent_sound validMarks validNodes json path
  parentNode parentMark block :
  let blocks :=
    getInvalidContent validMarks validNodes json path parentNode parentMark in
  block ∈ blocks ->
  blockIsInvalid validMarks validNodes block
  /\ path `prefix_of` block_path block
  /\ (parentNode = true -> invalidParentNode block = true)
  /\ (parentMark = true -> invalidParentMark block = true)
  /\ (forall parent,
        parent ∈ blocks ->
        block_type parent = BlockNode ->
        inContentOf (block_path parent) (block_path block) ->
        invalidParentNode block = true)
  /\ (invalidParentNode block = true ->
      parentNode = true
      \/ exists parent,
           parent ∈ blocks
           /\ block_type parent = BlockNode
           /\ inContentOf (block_path parent) (block_path block))
  /\ (forall mark owner position,
        mark ∈ blocks ->
        block_type mark = BlockMark ->
        block_path mark = (owner ++ ["marks"; position])%list ->
        inContentOf owner (block_path block)
        \/ (block_type block = BlockNode /\ block_path block = owner) ->
        invalidParentMark block = true).
Proof.
  intros blocks Hblock. subst blocks.
  destruct (getInvalidContent_blocks _ _ _ _ _ _ _ Hblock)
    as (Hinvalid & Hpath & Hnode & Hmark).
  split; [exact Hinvalid|]. split; [exact Hpath|].
  split; [exact Hnode|]. split; [exact Hmark|]. split; [|split].
  - intros parent Hparent Htype Hunder.
    exact (getInvalidContent_under_node _ _ _ _ _ _ _ _ Hparent Hblock Htype Hunder).
  - now apply getInvalidContent_flagged.
  - intros mark owner position Hin Htype Howner Hunder.
    exact (getInvalidContent_under_mark _ _ _ _ _ _ _ _ _ _
             Hin Hblock Htype Howner Hunder).
Qed.

Lemma getInvalidContent_sound_witness :
  let block :=
    mkInvalidContentBlock BlockMark "underline"
      ["content"; "1"; "content"; "0"; "marks"; "0"] true false in
  blockIsInvalid (validMarksOf basicKeys) (validNodesOf basicKeys) block
  /\ invalidParentNode block = true
  /\ exists parent,
       parent ∈ getInvalidContent (validMarksOf basicKeys) (validNodesOf basicKeys)
                  markedDocument [] false false
       /\ block_type parent = BlockNode
       /\ inContentOf (block_path parent) (block_path block).
Proof.
  intros block.
  destruct (getInvalidContent_sound (validMarksOf basicKeys)
              (validNodesOf basicKeys) markedDocument [] false false block)
    as (Hinvalid & _ & _ & _ & Hunder & Hflagged & _).
  { vm_compute. left. }
  split; [exact Hinvalid|]. split.
  - apply (Hunder (mkInvalidContentBlock BlockNode "table" ["content"; "1"]
                     false false)).
    + vm_compute. right. left.
    + reflexivity.
    + exists ["0"; "marks"; "0"]. reflexivity.
  - destruct (Hflagged eq_refl) as [Hcall|Hparent]; [discriminate | exact Hparent].
Defined.

(** X18: the blocks of a node with content are the blocks of its
    children, those of a later child before those of an earlier one,
    followed by the blocks of the node itself: its invalid marks and
    then, when its type is not a valid node, the node.  The children
    are searched at [path/content/index], flagged with
    [invalidParentNode] when the type of the node is not valid and with
    [invalidParentMark] when one of its marks is not. *)
Theorem getInvalidContent_deepest_first validMarks validNodes type marks content
  path parentNode parentMark :
  getInvalidContent validMarks validNodes (MarkedNode type marks (Some content))
    path parentNode parentMark
  = (laterChildrenFirst
       (fun value path =>
          getInvalidContent validMarks validNodes value path
            (parentNode || negb (bool_decide (type ∈ validNodes)))
            (parentMark || hasInvalidMark validMarks marks))
       path content 0
     ++ getInvalidContent validMarks validNodes (MarkedNode type marks None) path
          parentNode parentMark)%list
  /\ (type ∉ validNodes ->
      last (getInvalidContent validMarks validNodes
              (MarkedNode type marks (Some content)) path parentNode parentMark)
      = Some (mkInvalidContentBlock BlockNode type path parentNode
                (parentMark || hasInvalidMark validMarks marks))).
Proof.
  split; [apply getInvalidContent_children|].
  intros Hout. rewrite getInvalidContent_children, getInvalidContent_leaf.
  destruct (bool_decide_reflect (type ∈ validNodes)) as [Hin|_]; [contradiction|].
  now rewrite app_assoc, last_snoc.
Qed.

Lemma getInvalidContent_deepest_first_witness :
  last (getInvalidContent (validMarksOf basicKeys) (validNodesOf basicKeys)
          (MarkedNode "table" None
             (Some [MarkedNode "text" (Some [MarkObject "underline"]) None]))
          ["content"; "1"] false false)
  = Some (mkInvalidContentBlock BlockNode "table" ["content"; "1"] false false).
Proof.
  destruct (getInvalidContent_deepest_first (validMarksOf basicKeys)
              (validNodesOf basicKeys) "table" None
              [MarkedNode "text" (Some [MarkObject "underline"]) None]
              ["content"; "1"] false false) as (_ & Hlast).
  apply Hlast. apply (bool_decide_unpack _). vm_compute. exact I.
Defined.

(** ** [transformInvalidJSON] *)

Lemma remove_skips `{ObjectHelpers} json blocks :
  Forall (fun block => invalidParentNode block = true) blocks ->
  remove json blocks = json.
Proof.
  unfold remove. induction 1 as [|block rest Hblock _ IH]; simpl.
  - reflexivity.
  - now rewrite Hblock.
Qed.

Lemma transformInvalidJSON_unfold `{ObjectHelpers} json schema transformer :
  transformInvalidJSON json schema transformer
  = match
      getInvalidContent (validMarksOf schema) (validNodesOf schema) json []
        false false
    with
    | _ :: _ =>
        match transformer with
        | TransformerRemove => remove
        | TransformerFunction transform => transform
        end json
          (getInvalidContent (validMarksOf schema) (validNodesOf schema) json []
             false false)
    | [] => json
    end.
Proof. reflexivity. Qed.

(** X19: [transformInvalidJSON] returns JSON in which every node type
    and every mark is one of the schema as it is, without calling the
    transformer; for any other JSON it returns what the transformer
    makes of the JSON and the blocks of [getInvalidContent], of which
    there is at least one. *)
Theorem transformInvalidJSON_valid `{ObjectHelpers} json schema :
  (validJSON (validMarksOf schema) (validNodesOf schema) json = true ->
   forall transformer, transformInvalidJSON json schema transformer = json)
  /\ (validJSON (validMarksOf schema) (validNodesOf schema) json = false ->
      getInvalidContent (validMarksOf schema) (validNodesOf schema) json []
        false false <> []
      /\ forall transform,
           transformInvalidJSON json schema (TransformerFunction transform)
           = transform json
               (getInvalidContent (validMarksOf schema) (validNodesOf schema)
                  json [] false false)).
Proof.
  split.
  - intros Hvalid transformer. rewrite transformInvalidJSON_unfold.
    apply (getInvalidContent_nil _ _ json [] false false) in Hvalid.
    now rewrite Hvalid.
  - intros Hinvalid.
    assert (Hblocks :
               getInvalidContent (validMarksOf schema) (validNodesOf schema) json
                 [] false false <> []).
    { intros Hnil. apply getInvalidContent_nil in Hnil. congruence. }
    split; [exact Hblocks|].
    intros transform. rewrite transformInvalidJSON_unfold.
    destruct (getInvalidContent _ _ json [] false false); [contradiction|reflexivity].
Qed.

Lemma transformInvalidJSON_valid_witness :
  transformInvalidJSON validDocument basicKeys TransformerRemove = validDocument
  /\ transformInvalidJSON markedDocument basicKeys
       (TransformerFunction (fun json _ => json))
     = markedDocument.
Proof.
  destruct (transformInvalidJSON_valid validDocument basicKeys) as (Hvalid & _).
  destruct (transformInvalidJSON_valid markedDocument basicKeys) as (_ & Hinvalid).
  split.
  - apply Hvalid. vm_compute. reflexivity.
  - destruct Hinvalid as (_ & Htransform); [vm_compute; reflexivity|].
    apply (Htransform (fun json _ => json)).
Defined.

(** X20: when the type of the root node is not a node of the schema
    and the marks of the root are all marks of the schema,
    [transformInvalidJSON] with ['remove'] unsets the root path and no
    other: every other block lies below the invalid root, is flagged
    with [invalidParentNode], and is skipped. *)
Theorem transformInvalidJSON_remove_root `{ObjectHelpers} schema type marks content :
  type ∉ schema_nodes schema ->
  hasInvalidMark (validMarksOf schema) marks = false ->
  transformInvalidJSON (MarkedNode type marks content) schema TransformerRemove
  = unset [] (MarkedNode type marks content).
Proof.
  intros Htype Hmarks. rewrite transformInvalidJSON_unfold.
  set (json := MarkedNode type marks content).
  set (root := mkInvalidContentBlock BlockNode type [] false false).
  assert (Hout : bool_decide (type ∈ validNodesOf schema) = false).
  { apply bool_decide_eq_false. unfold validNodesOf.
    now rewrite elem_of_list_to_set. }
  assert (Hleaf :
             getInvalidContent (validMarksOf schema) (validNodesOf schema)
               (MarkedNode type marks None) [] false false = [root]).
  { rewrite getInvalidContent_leaf, Hout, Hmarks. simpl.
    destruct marks as [marks|]; [|reflexivity].
    rewrite (nil_length_inv
               (invalidMarksLoop (validMarksOf schema) [] false marks 0 [] false).1);
      [reflexivity|].
    rewrite invalidMarksLoop_length. simpl.
    rewrite Nat.add_0_r. now apply invalidMarkCount_zero. }
  assert (Hall : exists below,
             getInvalidContent (validMarksOf schema) (validNodesOf schema) json
               [] false false = (below ++ [root])%list
             /\ Forall (fun block => invalidParentNode block = true) below).
  { subst json. destruct content as [content|].
    - rewrite getInvalidContent_children, Hleaf, Hout. simpl.
      eexists. split; [reflexivity|].
      apply Forall_forall. intros block Hblock.
      apply laterChildrenFirst_elem in Hblock
        as (child & position & _ & Hblock).
      now apply getInvalidContent_blocks in Hblock as (_ & _ & Hflag & _);
        apply Hflag.
    - exists []. split; [exact Hleaf | constructor]. }
  destruct Hall as (below & -> & Hbelow).
  destruct (below ++ [root])%list eqn:E.
  { destruct below; discriminate. }
  rewrite <- E. unfold remove. rewrite foldl_app.
  fold (remove json below). now rewrite (remove_skips json below Hbelow).
Qed.

Lemma transformInvalidJSON_remove_root_witness :
  transformInvalidJSON
    (MarkedNode "table" None
       (Some [MarkedNode "cell" (Some [MarkObject "underline"]) None]))
    basicKeys TransformerRemove
  = MarkedNode "" None None.
Proof.
  refine (transformInvalidJSON_remove_root basicKeys "table" None
            (Some [MarkedNode "cell" (Some [MarkObject "underline"]) None]) _ _).
  - apply (bool_decide_unpack _). vm_compute. exact I.
  - reflexivity.
Defined.
